(** * ceph-csi: group snapshots, capacity based QoS and retryable errors

    A shallow embedding of three parts of the repository:

    - [internal/util/errors.go]: the sentinel errors of package [util] and
      [ShouldRetryVolumeGeneration];
    - the QoS file of package [rbd]: [parseQosParams], [SetQOS] and
      [calcQosBasedOnCapacity], with Go's [int64] arithmetic written out;
    - the group snapshot file of package [rbd]: the three RPCs
      [CreateVolumeGroupSnapshot], [DeleteVolumeGroupSnapshot] and
      [GetVolumeGroupSnapshot], with their deferred calls.

    Definitions come first, theorems afterwards. *)

From Stdlib Require Import ZArith Ascii String List Lia Bool DecimalString.
From Stdlib Require DecimalPos.
From stdpp Require Import base gmap strings list.

Set Warnings "-register-all".

(* ===================================================================== *)
(** * Go error values *)
(* ===================================================================== *)

Module GoErrors.

(** The package level error variables.  Every [errors.New] call yields a
    value that is equal to itself only, so a sentinel is identified by the
    variable it is stored in.  [go-ceph]'s [rados.ErrPermissionDenied] and
    the [group.ErrRBDGroupNotFound] of the [rbd/group] package are the two
    sentinels of other packages that the embedded code compares against;
    [ErrForeign n] stands for any other [errors.New] value, such as the
    "unknown error" of the unit test. *)
Inductive sentinel : Type :=
| ErrImageNotFound
| ErrKeyNotFound
| ErrObjectExists
| ErrObjectNotFound
| ErrSnapNameConflict
| ErrPoolNotFound
| ErrClusterIDNotSet
| ErrMissingConfigForMonitor
| rados_ErrPermissionDenied
| group_ErrRBDGroupNotFound
| ErrForeign (n : nat).

#[export] Instance sentinel_eq_dec : EqDecision sentinel.
Proof. solve_decision. Defined.

(** A non-nil [error]: a sentinel, an error that wraps one other error
    ([fmt.Errorf] with one [%w], an [Unwrap() error] method), an error
    that wraps several ([errors.Join], an [Unwrap() []error] method), or
    a value of an error type of its own that has an [Is(error) bool]
    method, together with the errors its [Unwrap] method returns (none,
    one or several). *)
Inductive error : Type :=
| New (s : sentinel)
| Wrap (msg : string) (inner : error)
| Join (inner : list error)
| Custom (own_is : sentinel -> bool) (inner : list error).

(** [errors.Is(err, target)] for a sentinel [target]: the loop of the
    standard library compares [err] itself with [target], then asks the
    [Is] method of [err] when it has one, then follows [Unwrap]; for
    several unwrapped errors it searches the children depth first.
    Wrappers and values of other types are not the pointer that a
    sentinel is, so only a [New] node can be equal to a sentinel. *)
Fixpoint errors_Is (err : error) (target : sentinel) : bool :=
  match err with
  | New s => bool_decide (s = target)
  | Wrap _ inner => errors_Is inner target
  | Join inner => existsb (fun e => errors_Is e target) inner
  | Custom own_is inner =>
      own_is target || existsb (fun e => errors_Is e target) inner
  end.

(** The [error] interface type: [None] is [nil]. *)
Definition goerror : Type := option error.

(** [ShouldRetryVolumeGeneration] of [internal/util/errors.go]. *)
Definition ShouldRetryVolumeGeneration (err : goerror) : bool :=
  match err with
  | None => false
  | Some e =>
      errors_Is e ErrKeyNotFound
      || errors_Is e ErrPoolNotFound
      || errors_Is e ErrImageNotFound
      || errors_Is e rados_ErrPermissionDenied
  end.

(** What "[e] wraps [target]" means: [target] occurs in the tree of
    errors reachable from [e] through [Unwrap]. *)
Inductive wraps (target : sentinel) : error -> Prop :=
| wraps_here : wraps target (New target)
| wraps_inner msg e : wraps target e -> wraps target (Wrap msg e)
| wraps_child es e : In e es -> wraps target e -> wraps target (Join es)
| wraps_custom own_is es e :
    In e es -> wraps target e -> wraps target (Custom own_is es).

(** "[e] answers for [target]": an error of the tree reachable from [e]
    through [Unwrap] has an [Is] method that returns [true] for
    [target]. *)
Inductive answers (target : sentinel) : error -> Prop :=
| answers_here own_is es :
    own_is target = true -> answers target (Custom own_is es)
| answers_inner msg e : answers target e -> answers target (Wrap msg e)
| answers_child es e :
    In e es -> answers target e -> answers target (Join es)
| answers_custom own_is es e :
    In e es -> answers target e -> answers target (Custom own_is es).

(** The errors built with [errors.New], [fmt.Errorf] and [errors.Join]
    only: no error of the tree has an [Is] method. *)
Fixpoint plain (e : error) : bool :=
  match e with
  | New _ => true
  | Wrap _ inner => plain inner
  | Join inner => forallb plain inner
  | Custom _ _ => false
  end.

End GoErrors.

(* ===================================================================== *)
(** * Capacity based QoS of an RBD volume *)
(* ===================================================================== *)

Module Qos.

Local Open Scope string_scope.
Local Open Scope Z_scope.

(** ** [int64] arithmetic *)

Definition minInt64 : Z := - 2 ^ 63.
Definition maxInt64 : Z := 2 ^ 63 - 1.

Definition int64_range (z : Z) : Prop := minInt64 <= z <= maxInt64.

(** Go's signed 64-bit integers wrap around silently. *)
Definition wrap64 (z : Z) : Z := (z + 2 ^ 63) mod 2 ^ 64 - 2 ^ 63.

Definition add64 (a b : Z) : Z := wrap64 (a + b).
Definition sub64 (a b : Z) : Z := wrap64 (a - b).
Definition mul64 (a b : Z) : Z := wrap64 (a * b).
(** [/] on integers truncates toward zero. *)
Definition div64 (a b : Z) : Z := wrap64 (Z.quot a b).

(** Modelled from the spec: the constant [oneGB] of package [rbd] is
    declared outside the embedded files.  The claim about the QoS
    computation gives the divisor as 2^30, and the expectations of
    [TestSetQOS] agree with that value. *)
Definition oneGB : Z := 1073741824.

(** ** [strconv] *)

Definition digit_of (c : ascii) : option Z :=
  let n := Z.of_nat (nat_of_ascii c) in
  if (48 <=? n) && (n <=? 57) then Some (n - 48) else None.

Fixpoint parse_digits (s : string) (acc : Z) : option Z :=
  match s with
  | EmptyString => Some acc
  | String c s' =>
      match digit_of c with
      | Some d => parse_digits s' (acc * 10 + d)
      | None => None
      end
  end.

(** [strconv.ParseUint(s, 10, 64)] before its range check: a non-empty
    run of decimal digits (base 10 is given explicitly, so no underscores
    and no prefixes). *)
Definition ParseUint (s : string) : option Z :=
  match s with
  | EmptyString => None
  | _ => parse_digits s 0
  end.

(** [strconv.ParseInt(s, 10, 64)]: an optional sign, then the digits;
    [None] stands for a non-nil error (syntax or range). *)
Definition ParseInt (s : string) : option Z :=
  match s with
  | EmptyString => None
  | String c s' =>
      let neg := Ascii.eqb c "-" in
      let body := if Ascii.eqb c "+" || Ascii.eqb c "-" then s' else s in
      match ParseUint body with
      | None => None
      | Some un =>
          if neg
          then if un >? 2 ^ 63 then None else Some (- un)
          else if un >=? 2 ^ 63 then None else Some un
      end
  end.

(** [strconv.FormatInt(i, 10)]. *)
Definition FormatInt (i : Z) : string :=
  DecimalString.NilZero.string_of_int (Z.to_int i).

(** ** The volume and its QoS settings *)

Definition baseReadIops := "BaseReadIops"%string.
Definition baseWriteIops := "BaseWriteIops"%string.
Definition baseReadBytesPerSecond := "BaseReadBytesPerSecond"%string.
Definition baseWriteBytesPerSecond := "BaseWriteBytesPerSecond"%string.
Definition readIopsPerGiB := "ReadIopsPerGiB"%string.
Definition writeIopsPerGiB := "WriteIopsPerGiB"%string.
Definition readBpsPerGiB := "ReadBpsPerGiB"%string.
Definition writeBpsPerGiB := "WriteBpsPerGiB"%string.
Definition baseVolSizeBytes := "BaseVolSizeBytes"%string.

Definition readIopsLimit := "rbd_qos_read_iops_limit"%string.
Definition writeIopsLimit := "rbd_qos_write_iops_limit"%string.
Definition readBpsLimit := "rbd_qos_read_bps_limit"%string.
Definition writeBpsLimit := "rbd_qos_write_bps_limit"%string.

Record qosSpec : Type := mkQosSpec {
  baseLimitType : string;
  baseLimit : string;
  perGiBLimitType : string;
  perGiBLimit : string;
  present : bool
}.

(** The fields of [rbdVolume] that the QoS code reads and writes.  A
    [nil] map is [None]. *)
Record rbdVolume : Type := mkRbdVolume {
  RequestedVolSize : Z;
  BaseVolSize : string;
  QosParameters : option (gmap string string)
}.

(** The error of a failed [strconv.ParseInt], with what was parsed. *)
Inductive NumError : Type :=
| ParseIntError (what : string) (input : string).

Definition with_QosParameters (rv : rbdVolume) (m : gmap string string)
  : rbdVolume :=
  {| RequestedVolSize := RequestedVolSize rv;
     BaseVolSize := BaseVolSize rv;
     QosParameters := Some m |}.

Definition with_BaseVolSize (rv : rbdVolume) (v : string) : rbdVolume :=
  {| RequestedVolSize := RequestedVolSize rv;
     BaseVolSize := v;
     QosParameters := QosParameters rv |}.

Definition nonempty (s : string) : bool :=
  match s with EmptyString => false | _ => true end.

(** [rv.calcQosBasedOnCapacity(ctx, qos)]: the volume after the call and
    the error returned. *)
Definition calcQosBasedOnCapacity (rv : rbdVolume) (qos : qosSpec)
  : rbdVolume * option NumError :=
  let params := default ∅ (QosParameters rv) in
  let rv := with_QosParameters rv params in
  if negb (nonempty (baseLimit qos)) then (rv, None) else
  match ParseInt (baseLimit qos) with
  | None => (rv, Some (ParseIntError (baseLimitType qos) (baseLimit qos)))
  | Some baseLimit_ =>
      if nonempty (perGiBLimit qos) && nonempty (BaseVolSize rv) then
        match ParseInt (perGiBLimit qos) with
        | None =>
            (rv, Some (ParseIntError (perGiBLimitType qos) (perGiBLimit qos)))
        | Some perGiBLimit_ =>
            match ParseInt (BaseVolSize rv) with
            | None =>
                (rv, Some (ParseIntError baseVolSizeBytes (BaseVolSize rv)))
            | Some baseVolSize =>
                if RequestedVolSize rv <=? baseVolSize then
                  (with_QosParameters rv
                     (<[baseLimitType qos := baseLimit qos]> params), None)
                else
                  let capacityQos :=
                    mul64 (div64 (sub64 (RequestedVolSize rv) baseVolSize)
                                 oneGB) perGiBLimit_ in
                  let finalQosLimit := add64 baseLimit_ capacityQos in
                  (with_QosParameters rv
                     (<[baseLimitType qos := FormatInt finalQosLimit]> params),
                   None)
            end
        end
      else
        (with_QosParameters rv
           (<[baseLimitType qos := baseLimit qos]> params), None)
  end.

(** [parseQosParams]: the four base limits, filled from the storage class
    parameters.  Each key of [scParams] touches its own entry only, so the
    order in which Go ranges over the map does not show. *)
Definition rbdQosParameters0 : gmap string qosSpec :=
  list_to_map
    [ (baseReadIops, mkQosSpec readIopsLimit "" readIopsPerGiB "" false);
      (baseWriteIops, mkQosSpec writeIopsLimit "" writeIopsPerGiB "" false);
      (baseReadBytesPerSecond,
        mkQosSpec readBpsLimit "" readBpsPerGiB "" false);
      (baseWriteBytesPerSecond,
        mkQosSpec writeBpsLimit "" writeBpsPerGiB "" false) ].

Definition parseQosParams_step (scParams : gmap string string)
    (acc : gmap string qosSpec) (kv : string * string)
  : gmap string qosSpec :=
  let '(k, v) := kv in
  match acc !! k with
  | Some qos =>
      if nonempty v then
        let perGiB :=
          match scParams !! perGiBLimitType qos with
          | Some p => if nonempty p then p else perGiBLimit qos
          | None => perGiBLimit qos
          end in
        <[k := mkQosSpec (baseLimitType qos) v (perGiBLimitType qos)
                         perGiB true]> acc
      else acc
  | None => acc
  end.

Definition parseQosParams (scParams : gmap string string)
  : gmap string qosSpec :=
  fold_left (parseQosParams_step scParams) (map_to_list scParams)
            rbdQosParameters0.

(** The loop of [SetQOS] over the parsed limits; it stops at the first
    error. *)
Fixpoint SetQOS_loop (rv : rbdVolume) (l : list qosSpec)
  : rbdVolume * option NumError :=
  match l with
  | [] => (rv, None)
  | qos :: l' =>
      if present qos then
        match calcQosBasedOnCapacity rv qos with
        | (rv', Some err) => (rv', Some err)
        | (rv', None) => SetQOS_loop rv' l'
        end
      else SetQOS_loop rv l'
  end.

(** [rv.SetQOS(ctx, scParams)].  Go ranges over [rbdQosParameters] in an
    unspecified order; the model takes the order of [map_to_list]. *)
Definition SetQOS (rv : rbdVolume) (scParams : gmap string string)
  : rbdVolume * option NumError :=
  let rv := with_BaseVolSize rv "" in
  let rv :=
    match scParams !! baseVolSizeBytes with
    | Some v => if nonempty v then with_BaseVolSize rv v else rv
    | None => rv
    end in
  SetQOS_loop rv (snd <$> map_to_list (parseQosParams scParams)).

End Qos.

(* ===================================================================== *)
(** * The group snapshot RPCs *)
(* ===================================================================== *)

Module GroupSnapshot.

Import GoErrors.

(** The gRPC status codes an error can carry.  [codes.OK] is left out: a
    non-nil status error never has it. *)
Inductive Code : Type :=
| Canceled | Unknown | InvalidArgument | DeadlineExceeded | NotFound
| AlreadyExists | PermissionDenied | ResourceExhausted
| FailedPrecondition | Aborted | OutOfRange | Unimplemented | Internal
| Unavailable | DataLoss | Unauthenticated.

#[export] Instance Code_eq_dec : EqDecision Code.
Proof. solve_decision. Defined.

(** What an RPC hands back: [(resp, nil)], [(nil, status.Error(c, _))],
    or a run-time panic (a method call on a [nil] interface value, an
    index out of range). *)
Inductive rpc_result (R : Type) : Type :=
| Response (r : R)
| Status (c : Code)
| Panic.
Arguments Response {R} r.
Arguments Status {R} c.
Arguments Panic {R}.

Inductive DeleteVolumeGroupSnapshotResponse : Type :=
| mkDeleteResponse.

Record CreateVolumeGroupSnapshotRequest : Type := mkCreateRequest {
  Name : string;
  SourceVolumeIds : list string;
  Parameters : gmap string string;
  Secrets : gmap string string
}.

Record DeleteVolumeGroupSnapshotRequest : Type := mkDeleteRequest {
  del_GroupSnapshotId : string;
  del_Secrets : gmap string string
}.

Record GetVolumeGroupSnapshotRequest : Type := mkGetRequest {
  get_GroupSnapshotId : string;
  get_Secrets : gmap string string
}.

(** Everything the RPCs call and that lives outside their file: the lock
    registry [cs.VolumeGroupLocks], the [types.Manager], [types.Volume],
    [types.VolumeGroup] and [types.VolumeGroupSnapshot] interfaces, the
    credentials of package [util] and [status.Code].  [World] is the state
    these calls read and change (the storage cluster, the lock set, the
    handles in memory).  A Go call returning [(value, error)] yields [inl
    value] or [inr err]; the lookup by name returns both components, as
    the RPC tests them one after the other. *)
Record Backend : Type := mkBackend {
  World : Type;
  Manager : Type;
  Volume : Type;
  VolumeGroup : Type;
  VolumeGroupSnapshot : Type;
  CSIGroupSnapshot : Type;
  Credentials : Type;
  h_TryAcquire : string -> World -> bool * World;
  h_Release : string -> World -> World;
  h_NewManager :
    option (gmap string string) -> gmap string string -> World ->
    Manager * World;
  h_Manager_Destroy : Manager -> World -> World;
  h_GetVolumeByID : Manager -> string -> World -> (Volume + error) * World;
  h_GetVolumeGroupSnapshotByName :
    Manager -> string -> World ->
    (option VolumeGroupSnapshot * option error) * World;
  h_GetVolumeGroupSnapshotByID :
    Manager -> string -> World -> (VolumeGroupSnapshot + error) * World;
  h_CreateVolumeGroup :
    Manager -> string -> World -> (VolumeGroup + error) * World;
  h_Manager_CreateVolumeGroupSnapshot :
    Manager -> VolumeGroup -> string -> World ->
    (VolumeGroupSnapshot + error) * World;
  h_NewUserCredentials :
    gmap string string -> World -> (Credentials + error) * World;
  h_DeleteCredentials : Credentials -> World -> World;
  h_PrepareVolumeForSnapshot :
    Volume -> Credentials -> World -> option error * World;
  h_Volume_Destroy : Volume -> World -> World;
  h_AddVolume : VolumeGroup -> Volume -> World -> option error * World;
  h_RemoveVolume :
    VolumeGroup -> option Volume -> World -> option error * World;
  h_VolumeGroup_Delete : VolumeGroup -> World -> option error * World;
  h_VolumeGroup_Destroy : VolumeGroup -> World -> World;
  h_ToCSI :
    VolumeGroupSnapshot -> World -> (CSIGroupSnapshot + error) * World;
  h_VolumeGroupSnapshot_Delete :
    VolumeGroupSnapshot -> World -> option error * World;
  h_VolumeGroupSnapshot_Destroy : VolumeGroupSnapshot -> World -> World;
  status_Code : error -> Code
}.

Section RPC.

Context {B : Backend}.

(** One entry per call that leaves the RPC, with what came back. *)
Inductive event : Type :=
| EvTryAcquire (name : string) (acquired : bool)
| EvRelease (name : string)
| EvNewManager (parameters : option (gmap string string))
    (secrets : gmap string string) (mgr : Manager B)
| EvManagerDestroy (mgr : Manager B)
| EvGetVolumeByID (mgr : Manager B) (id : string) (r : Volume B + error)
| EvGetVolumeGroupSnapshotByName (mgr : Manager B) (name : string)
    (r : option (VolumeGroupSnapshot B) * option error)
| EvGetVolumeGroupSnapshotByID (mgr : Manager B) (id : string)
    (r : VolumeGroupSnapshot B + error)
| EvCreateVolumeGroup (mgr : Manager B) (name : string)
    (r : VolumeGroup B + error)
| EvCreateVolumeGroupSnapshot (mgr : Manager B) (g : VolumeGroup B)
    (name : string) (r : VolumeGroupSnapshot B + error)
| EvNewUserCredentials (secrets : gmap string string)
    (r : Credentials B + error)
| EvDeleteCredentials (creds : Credentials B)
| EvPrepareVolumeForSnapshot (vol : Volume B) (creds : Credentials B)
    (r : option error)
| EvVolumeDestroy (vol : Volume B)
| EvAddVolume (g : VolumeGroup B) (vol : Volume B) (r : option error)
| EvRemoveVolume (g : VolumeGroup B) (vol : option (Volume B))
    (r : option error)
| EvVolumeGroupDelete (g : VolumeGroup B) (r : option error)
| EvVolumeGroupDestroy (g : VolumeGroup B)
| EvToCSI (gs : VolumeGroupSnapshot B) (r : CSIGroupSnapshot B + error)
| EvVolumeGroupSnapshotDelete (gs : VolumeGroupSnapshot B)
    (r : option error)
| EvVolumeGroupSnapshotDestroy (gs : VolumeGroupSnapshot B).

(** A [defer] statement of one of the three RPCs.  The receiver and the
    arguments of a deferred method call are fixed when [defer] runs;
    the function literal of [CreateVolumeGroupSnapshot] reads its
    variables when it is called. *)
Inductive deferred : Type :=
| DeferRelease (name : string)
| DeferManagerDestroy (mgr : Manager B)
| DeferCleanup
| DeferVolumeGroupSnapshotDestroy (gs : VolumeGroupSnapshot B)
| DeferDeleteCredentials (creds : Credentials B).

(** The state of one call: the world outside, the two variables that
    the cleanup closure captures, and the stack of deferred calls. *)
Record frame : Type := mkFrame {
  world : World B;
  volumes : list (option (Volume B));
  vg : option (VolumeGroup B);
  defers : list deferred
}.

Definition enter (w : World B) : frame :=
  {| world := w; volumes := []; vg := None; defers := [] |}.

(** A computation reads and writes the frame and emits events. *)
Definition M (A : Type) : Type := frame -> A * frame * list event.

#[export] Instance M_ret : MRet M := fun A a s => (a, s, []).
#[export] Instance M_bind : MBind M := fun A C f m s =>
  let '(a, s1, t1) := m s in
  let '(c, s2, t2) := f a s1 in
  (c, s2, t1 ++ t2).

Definition call {A} (h : World B -> A * World B) (ev : A -> event)
  : M A :=
  fun s =>
    let '(a, w) := h (world s) in
    (a, {| world := w; volumes := volumes s; vg := vg s;
           defers := defers s |}, [ev a]).

Definition call_ (h : World B -> World B) (ev : event) : M unit :=
  call (fun w => (tt, h w)) (fun _ => ev).

Definition get_volumes : M (list (option (Volume B))) :=
  fun s => (volumes s, s, []).
Definition get_vg : M (option (VolumeGroup B)) :=
  fun s => (vg s, s, []).
Definition set_volumes (vs : list (option (Volume B))) : M unit :=
  fun s => (tt, {| world := world s; volumes := vs; vg := vg s;
                   defers := defers s |}, []).
Definition set_vg (g : option (VolumeGroup B)) : M unit :=
  fun s => (tt, {| world := world s; volumes := volumes s; vg := g;
                   defers := defers s |}, []).
Definition defer (d : deferred) : M unit :=
  fun s => (tt, {| world := world s; volumes := volumes s; vg := vg s;
                   defers := d :: defers s |}, []).
Definition take_defers : M (list deferred) :=
  fun s => (defers s, {| world := world s; volumes := volumes s;
                         vg := vg s; defers := [] |}, []).

(** ** The calls that leave the RPC *)

Definition TryAcquire (name : string) : M bool :=
  call (h_TryAcquire B name) (EvTryAcquire name).
Definition Release (name : string) : M unit :=
  call_ (h_Release B name) (EvRelease name).
Definition NewManager (parameters : option (gmap string string))
    (secrets : gmap string string) : M (Manager B) :=
  call (h_NewManager B parameters secrets)
       (EvNewManager parameters secrets).
Definition Manager_Destroy (mgr : Manager B) : M unit :=
  call_ (h_Manager_Destroy B mgr) (EvManagerDestroy mgr).
Definition GetVolumeByID (mgr : Manager B) (id : string)
  : M (Volume B + error) :=
  call (h_GetVolumeByID B mgr id) (EvGetVolumeByID mgr id).
Definition GetVolumeGroupSnapshotByName (mgr : Manager B) (name : string)
  : M (option (VolumeGroupSnapshot B) * option error) :=
  call (h_GetVolumeGroupSnapshotByName B mgr name)
       (EvGetVolumeGroupSnapshotByName mgr name).
Definition GetVolumeGroupSnapshotByID (mgr : Manager B) (id : string)
  : M (VolumeGroupSnapshot B + error) :=
  call (h_GetVolumeGroupSnapshotByID B mgr id)
       (EvGetVolumeGroupSnapshotByID mgr id).
Definition CreateVolumeGroup (mgr : Manager B) (name : string)
  : M (VolumeGroup B + error) :=
  call (h_CreateVolumeGroup B mgr name) (EvCreateVolumeGroup mgr name).
Definition Manager_CreateVolumeGroupSnapshot (mgr : Manager B)
    (g : VolumeGroup B) (name : string)
  : M (VolumeGroupSnapshot B + error) :=
  call (h_Manager_CreateVolumeGroupSnapshot B mgr g name)
       (EvCreateVolumeGroupSnapshot mgr g name).
Definition NewUserCredentials (secrets : gmap string string)
  : M (Credentials B + error) :=
  call (h_NewUserCredentials B secrets) (EvNewUserCredentials secrets).
Definition DeleteCredentials (creds : Credentials B) : M unit :=
  call_ (h_DeleteCredentials B creds) (EvDeleteCredentials creds).
Definition PrepareVolumeForSnapshot (vol : Volume B)
    (creds : Credentials B) : M (option error) :=
  call (h_PrepareVolumeForSnapshot B vol creds)
       (EvPrepareVolumeForSnapshot vol creds).
Definition Volume_Destroy (vol : Volume B) : M unit :=
  call_ (h_Volume_Destroy B vol) (EvVolumeDestroy vol).
Definition AddVolume (g : VolumeGroup B) (vol : Volume B)
  : M (option error) :=
  call (h_AddVolume B g vol) (EvAddVolume g vol).
Definition RemoveVolume (g : VolumeGroup B) (vol : option (Volume B))
  : M (option error) :=
  call (h_RemoveVolume B g vol) (EvRemoveVolume g vol).
Definition VolumeGroup_Delete (g : VolumeGroup B) : M (option error) :=
  call (h_VolumeGroup_Delete B g) (EvVolumeGroupDelete g).
Definition VolumeGroup_Destroy (g : VolumeGroup B) : M unit :=
  call_ (h_VolumeGroup_Destroy B g) (EvVolumeGroupDestroy g).
Definition ToCSI (gs : VolumeGroupSnapshot B)
  : M (CSIGroupSnapshot B + error) :=
  call (h_ToCSI B gs) (EvToCSI gs).
Definition VolumeGroupSnapshot_Delete (gs : VolumeGroupSnapshot B)
  : M (option error) :=
  call (h_VolumeGroupSnapshot_Delete B gs) (EvVolumeGroupSnapshotDelete gs).
Definition VolumeGroupSnapshot_Destroy (gs : VolumeGroupSnapshot B)
  : M unit :=
  call_ (h_VolumeGroupSnapshot_Destroy B gs)
        (EvVolumeGroupSnapshotDestroy gs).

(** ** The deferred cleanup of [CreateVolumeGroupSnapshot] *)

(** The loop of the function literal: for every entry of [volumes],
    [vg.RemoveVolume] when [vg] is set (its error is logged only), then
    [volume.Destroy] when the entry is set. *)
Fixpoint cleanup_volumes (vs : list (option (Volume B))) : M unit :=
  match vs with
  | [] => mret tt
  | volume :: vs' =>
      g ← get_vg;
      match g with
      | Some g => RemoveVolume g volume ;; mret tt
      | None => mret tt
      end ;;
      match volume with
      | Some v => Volume_Destroy v
      | None => mret tt
      end ;;
      cleanup_volumes vs'
  end.

Definition cleanup : M unit :=
  vs ← get_volumes;
  cleanup_volumes vs ;;
  g ← get_vg;
  match g with
  | Some g => VolumeGroup_Delete g ;; VolumeGroup_Destroy g
  | None => mret tt
  end.

Definition run_deferred (d : deferred) : M unit :=
  match d with
  | DeferRelease name => Release name
  | DeferManagerDestroy mgr => Manager_Destroy mgr
  | DeferCleanup => cleanup
  | DeferVolumeGroupSnapshotDestroy gs => VolumeGroupSnapshot_Destroy gs
  | DeferDeleteCredentials creds => DeleteCredentials creds
  end.

(** Deferred calls run last in, first out. *)
Fixpoint run_defers (ds : list deferred) : M unit :=
  match ds with
  | [] => mret tt
  | d :: ds' => run_deferred d ;; run_defers ds'
  end.

(** A function body followed by its deferred calls; the result is fixed
    before they run. *)
Definition returning {A} (body : M A) : M A :=
  r ← body;
  ds ← take_defers;
  run_defers ds ;;
  mret r.

(** ** [CreateVolumeGroupSnapshot] *)

Record CreateVolumeGroupSnapshotResponse : Type := mkCreateResponse {
  GroupSnapshot : CSIGroupSnapshot B
}.

(** The loop over [req.GetSourceVolumeIds()]: [Some res] is a [return]
    from inside the loop.  [volumes] was made with one entry per id. *)
Fixpoint resolve_volumes {R} (mgr : Manager B) (i : nat)
    (ids : list string) : M (option (rpc_result R)) :=
  match ids with
  | [] => mret None
  | id :: ids' =>
      r ← GetVolumeByID mgr id;
      match r with
      | inr err => mret (Some (Status InvalidArgument))
      | inl vol =>
          vs ← get_volumes;
          if decide (i < length vs) then
            set_volumes (<[i := Some vol]> vs) ;;
            resolve_volumes mgr (S i) ids'
          else mret (Some Panic)
      end
  end.

(** The loop that prepares every volume and collects the errors in
    [errList]; [None] is a panic. *)
Fixpoint prepare_volumes (creds : Credentials B)
    (vs : list (option (Volume B))) (errList : list error)
  : M (option (list error)) :=
  match vs with
  | [] => mret (Some errList)
  | None :: _ => mret None
  | Some volume :: vs' =>
      err ← PrepareVolumeForSnapshot volume creds;
      match err with
      | Some e => prepare_volumes creds vs' (errList ++ [e])
      | None => prepare_volumes creds vs' errList
      end
  end.

(** The loop that adds the volumes to the group. *)
Fixpoint add_volumes {R} (g : VolumeGroup B)
    (vs : list (option (Volume B))) : M (option (rpc_result R)) :=
  match vs with
  | [] => mret None
  | None :: _ => mret (Some Panic)
  | Some volume :: vs' =>
      err ← AddVolume g volume;
      match err with
      | Some e => mret (Some (Status Aborted))
      | None => add_volumes g vs'
      end
  end.

Definition CreateVolumeGroupSnapshot_body
    (req : CreateVolumeGroupSnapshotRequest)
  : M (rpc_result CreateVolumeGroupSnapshotResponse) :=
  let vgName := (Name req +:+ "-vg")%string in
  let vgsName := Name req in
  acquired ← TryAcquire vgsName;
  if negb acquired then mret (Status Aborted) else
  defer (DeferRelease vgsName) ;;
  mgr ← NewManager (Some (Parameters req)) (Secrets req);
  defer (DeferManagerDestroy mgr) ;;
  set_volumes (replicate (length (SourceVolumeIds req)) None) ;;
  defer DeferCleanup ;;
  r ← resolve_volumes mgr 0 (SourceVolumeIds req);
  match r with
  | Some res => mret res
  | None =>
  found ← GetVolumeGroupSnapshotByName mgr vgsName;
  match fst found with
  | Some groupSnapshot =>
      defer (DeferVolumeGroupSnapshotDestroy groupSnapshot) ;;
      csiVGS ← ToCSI groupSnapshot;
      match csiVGS with
      | inr csiErr => mret (Status Aborted)
      | inl csiVGS => mret (Response (mkCreateResponse csiVGS))
      end
  | None =>
  (* [snd found], when set, is written to the debug log only *)
  creds ← NewUserCredentials (Secrets req);
  match creds with
  | inr err => mret (Status Internal)
  | inl creds =>
  defer (DeferDeleteCredentials creds) ;;
  vs ← get_volumes;
  errList ← prepare_volumes creds vs [];
  match errList with
  | None => mret Panic
  | Some (e :: _) => mret (Status (status_Code B e))
  | Some [] =>
  r ← CreateVolumeGroup mgr vgName;
  match r with
  | inr err => mret (Status Internal)
  | inl g =>
  set_vg (Some g) ;;
  vs ← get_volumes;
  r ← add_volumes g vs;
  match r with
  | Some res => mret res
  | None =>
  r ← Manager_CreateVolumeGroupSnapshot mgr g vgsName;
  match r with
  | inr err => mret (Status Aborted)
  | inl groupSnapshot =>
  defer (DeferVolumeGroupSnapshotDestroy groupSnapshot) ;;
  csiVGS ← ToCSI groupSnapshot;
  match csiVGS with
  | inr err => mret (Status Aborted)
  | inl csiVGS => mret (Response (mkCreateResponse csiVGS))
  end end end end end end end end.

Definition CreateVolumeGroupSnapshot
    (req : CreateVolumeGroupSnapshotRequest)
  : M (rpc_result CreateVolumeGroupSnapshotResponse) :=
  returning (CreateVolumeGroupSnapshot_body req).

(** ** [DeleteVolumeGroupSnapshot] *)

Definition DeleteVolumeGroupSnapshot_body
    (req : DeleteVolumeGroupSnapshotRequest)
  : M (rpc_result DeleteVolumeGroupSnapshotResponse) :=
  let groupSnapshotID := del_GroupSnapshotId req in
  acquired ← TryAcquire groupSnapshotID;
  if negb acquired then mret (Status Aborted) else
  defer (DeferRelease groupSnapshotID) ;;
  mgr ← NewManager None (del_Secrets req);
  defer (DeferManagerDestroy mgr) ;;
  r ← GetVolumeGroupSnapshotByID mgr groupSnapshotID;
  match r with
  | inr err =>
      if errors_Is err group_ErrRBDGroupNotFound
      then mret (Response mkDeleteResponse)
      else mret (Status Internal)
  | inl groupSnapshot =>
      defer (DeferVolumeGroupSnapshotDestroy groupSnapshot) ;;
      err ← VolumeGroupSnapshot_Delete groupSnapshot;
      match err with
      | Some _ => mret (Status Internal)
      | None => mret (Response mkDeleteResponse)
      end
  end.

Definition DeleteVolumeGroupSnapshot
    (req : DeleteVolumeGroupSnapshotRequest)
  : M (rpc_result DeleteVolumeGroupSnapshotResponse) :=
  returning (DeleteVolumeGroupSnapshot_body req).

(** ** [GetVolumeGroupSnapshot] *)

Record GetVolumeGroupSnapshotResponse : Type := mkGetResponse {
  get_GroupSnapshot : CSIGroupSnapshot B
}.

Definition GetVolumeGroupSnapshot_body
    (req : GetVolumeGroupSnapshotRequest)
  : M (rpc_result GetVolumeGroupSnapshotResponse) :=
  let groupSnapshotID := get_GroupSnapshotId req in
  acquired ← TryAcquire groupSnapshotID;
  if negb acquired then mret (Status Aborted) else
  defer (DeferRelease groupSnapshotID) ;;
  mgr ← NewManager None (get_Secrets req);
  defer (DeferManagerDestroy mgr) ;;
  r ← GetVolumeGroupSnapshotByID mgr groupSnapshotID;
  match r with
  | inr err =>
      if errors_Is err group_ErrRBDGroupNotFound
      then mret (Status NotFound)
      else mret (Status Internal)
  | inl groupSnapshot =>
      defer (DeferVolumeGroupSnapshotDestroy groupSnapshot) ;;
      csiVGS ← ToCSI groupSnapshot;
      match csiVGS with
      | inr err => mret (Status Aborted)
      | inl csiVGS => mret (Response (mkGetResponse csiVGS))
      end
  end.

Definition GetVolumeGroupSnapshot
    (req : GetVolumeGroupSnapshotRequest)
  : M (rpc_result GetVolumeGroupSnapshotResponse) :=
  returning (GetVolumeGroupSnapshot_body req).

(** An RPC run from a world: the result, the world afterwards and the
    calls made, in order. *)
Definition run {A} (rpc : M A) (w : World B)
  : A * World B * list event :=
  let '(r, s, t) := rpc (enter w) in (r, world s, t).

(** ** Reading a trace *)

(** [step w ev w']: the call recorded by [ev], made in world [w], gave
    the recorded answer and left world [w']. *)
Definition step (w : World B) (ev : event) (w' : World B) : Prop :=
  match ev with
  | EvTryAcquire name b => h_TryAcquire B name w = (b, w')
  | EvRelease name => h_Release B name w = w'
  | EvNewManager p sec mgr => h_NewManager B p sec w = (mgr, w')
  | EvManagerDestroy mgr => h_Manager_Destroy B mgr w = w'
  | EvGetVolumeByID mgr id r => h_GetVolumeByID B mgr id w = (r, w')
  | EvGetVolumeGroupSnapshotByName mgr name r =>
      h_GetVolumeGroupSnapshotByName B mgr name w = (r, w')
  | EvGetVolumeGroupSnapshotByID mgr id r =>
      h_GetVolumeGroupSnapshotByID B mgr id w = (r, w')
  | EvCreateVolumeGroup mgr name r =>
      h_CreateVolumeGroup B mgr name w = (r, w')
  | EvCreateVolumeGroupSnapshot mgr g name r =>
      h_Manager_CreateVolumeGroupSnapshot B mgr g name w = (r, w')
  | EvNewUserCredentials sec r => h_NewUserCredentials B sec w = (r, w')
  | EvDeleteCredentials creds => h_DeleteCredentials B creds w = w'
  | EvPrepareVolumeForSnapshot vol creds r =>
      h_PrepareVolumeForSnapshot B vol creds w = (r, w')
  | EvVolumeDestroy vol => h_Volume_Destroy B vol w = w'
  | EvAddVolume g vol r => h_AddVolume B g vol w = (r, w')
  | EvRemoveVolume g vol r => h_RemoveVolume B g vol w = (r, w')
  | EvVolumeGroupDelete g r => h_VolumeGroup_Delete B g w = (r, w')
  | EvVolumeGroupDestroy g => h_VolumeGroup_Destroy B g w = w'
  | EvToCSI gs r => h_ToCSI B gs w = (r, w')
  | EvVolumeGroupSnapshotDelete gs r =>
      h_VolumeGroupSnapshot_Delete B gs w = (r, w')
  | EvVolumeGroupSnapshotDestroy gs =>
      h_VolumeGroupSnapshot_Destroy B gs w = w'
  end.

Fixpoint steps (w : World B) (t : list event) (w' : World B) : Prop :=
  match t with
  | [] => w' = w
  | ev :: t' => exists w1, step w ev w1 /\ steps w1 t' w'
  end.

(** A computation whose trace is a faithful record of what it did to
    the world. *)
Definition sound {A} (m : M A) : Prop :=
  forall s a s' t, m s = (a, s', t) -> steps (world s) t (world s').

(** The calls that only give a handle or a lock back. *)
Definition releases (ev : event) : bool :=
  match ev with
  | EvRelease _ | EvManagerDestroy _ | EvDeleteCredentials _
  | EvVolumeDestroy _ | EvVolumeGroupDestroy _
  | EvVolumeGroupSnapshotDestroy _ => true
  | _ => false
  end.

(** The calls that change what is stored in the cluster: groups, their
    members, group snapshots, and the quiescing of a volume. *)
Definition mutates (ev : event) : bool :=
  match ev with
  | EvCreateVolumeGroup _ _ _
  | EvCreateVolumeGroupSnapshot _ _ _ _
  | EvPrepareVolumeForSnapshot _ _ _
  | EvAddVolume _ _ _
  | EvRemoveVolume _ _ _
  | EvVolumeGroupDelete _ _
  | EvVolumeGroupSnapshotDelete _ _ => true
  | _ => false
  end.

(** The calls to [CreateVolumeGroup], whatever they return. *)
Definition creates_group (ev : event) : bool :=
  match ev with
  | EvCreateVolumeGroup _ _ _ => true
  | _ => false
  end.

(** The calls to the manager's [CreateVolumeGroupSnapshot]. *)
Definition takes_snapshot (ev : event) : bool :=
  match ev with
  | EvCreateVolumeGroupSnapshot _ _ _ _ => true
  | _ => false
  end.

(** The calls that add or drop a stored group snapshot. *)
Definition changes_snapshots (ev : event) : bool :=
  match ev with
  | EvCreateVolumeGroupSnapshot _ _ _ _
  | EvVolumeGroupSnapshotDelete _ _ => true
  | _ => false
  end.

(** The lock registry calls. *)
Definition is_lock_event (ev : event) : bool :=
  match ev with
  | EvTryAcquire _ _ | EvRelease _ => true
  | _ => false
  end.

(** What a trace shows of the ephemeral group: the groups created, the
    volumes added without error, the volumes handed to [RemoveVolume],
    the groups deleted, the snapshots taken, the failed preparations. *)
Definition groups_created (t : list event) : list (VolumeGroup B) :=
  omap (fun ev => match ev with
                  | EvCreateVolumeGroup _ _ (inl g) => Some g
                  | _ => None
                  end) t.

Definition volumes_added (t : list event) : list (Volume B) :=
  omap (fun ev => match ev with
                  | EvAddVolume _ vol None => Some vol
                  | _ => None
                  end) t.

Definition volumes_removed (t : list event) : list (option (Volume B)) :=
  omap (fun ev => match ev with
                  | EvRemoveVolume _ vol _ => Some vol
                  | _ => None
                  end) t.

Definition groups_deleted (t : list event) : list (VolumeGroup B) :=
  omap (fun ev => match ev with
                  | EvVolumeGroupDelete g _ => Some g
                  | _ => None
                  end) t.

Definition snapshots_taken (t : list event)
  : list (VolumeGroupSnapshot B) :=
  omap (fun ev => match ev with
                  | EvCreateVolumeGroupSnapshot _ _ _ (inl gs) => Some gs
                  | _ => None
                  end) t.

Definition volumes_resolved (t : list event) : list (Volume B) :=
  omap (fun ev => match ev with
                  | EvGetVolumeByID _ _ (inl vol) => Some vol
                  | _ => None
                  end) t.

Definition volumes_prepared (t : list event) : list (Volume B) :=
  omap (fun ev => match ev with
                  | EvPrepareVolumeForSnapshot vol _ _ => Some vol
                  | _ => None
                  end) t.

Definition lock_calls (t : list event) : list event :=
  omap (fun ev => if is_lock_event ev then Some ev else None) t.

Definition prepare_failures (t : list event) : list error :=
  omap (fun ev => match ev with
                  | EvPrepareVolumeForSnapshot _ _ (Some e) => Some e
                  | _ => None
                  end) t.

(** ** The shapes a run of [CreateVolumeGroupSnapshot] can take *)

Definition resolved (mgr : Manager B) (ids : list string)
    (vols : list (Volume B)) : list event :=
  zip_with (fun id vol => EvGetVolumeByID mgr id (inl vol)) ids vols.

Definition prepared (creds : Credentials B) (vols : list (Volume B))
    (rs : list (option error)) : list event :=
  zip_with (fun vol r => EvPrepareVolumeForSnapshot vol creds r) vols rs.

Definition added (g : VolumeGroup B) (vols : list (Volume B))
  : list event :=
  (fun vol => EvAddVolume g vol None) <$> vols.

Definition destroyed (vols : list (Volume B)) : list event :=
  EvVolumeDestroy <$> vols.

Definition removed (g : VolumeGroup B) (vols : list (Volume B))
    (rs : list (option error)) : list event :=
  concat (zip_with (fun vol r => [EvRemoveVolume g (Some vol) r;
                                  EvVolumeDestroy vol]) vols rs).

Section Shapes.

Context (req : CreateVolumeGroupSnapshotRequest).

(** The lock is taken, the manager made and all volumes found. *)
Definition before_lookup (mgr : Manager B) (vols : list (Volume B))
  : list event :=
  [EvTryAcquire (Name req) true;
   EvNewManager (Some (Parameters req)) (Secrets req) mgr]
  ++ resolved mgr (SourceVolumeIds req) vols.

(** No snapshot of that name was returned and the credentials are
    there. *)
Definition before_prepare (mgr : Manager B) (vols : list (Volume B))
    (err : option error) (creds : Credentials B) : list event :=
  before_lookup mgr vols
  ++ [EvGetVolumeGroupSnapshotByName mgr (Name req) (None, err);
      EvNewUserCredentials (Secrets req) (inl creds)].

(** All volumes are prepared and the group exists. *)
Definition before_add (mgr : Manager B) (vols : list (Volume B))
    (err : option error) (creds : Credentials B) (g : VolumeGroup B)
  : list event :=
  before_prepare mgr vols err creds
  ++ prepared creds vols (replicate (length vols) None)
  ++ [EvCreateVolumeGroup mgr (Name req +:+ "-vg")%string (inl g)].

(** The last two deferred calls. *)
Definition closing (mgr : Manager B) : list event :=
  [EvManagerDestroy mgr; EvRelease (Name req)].

(** The deferred calls when no group was made. *)
Definition release (mgr : Manager B) (vols : list (Volume B))
  : list event :=
  destroyed vols ++ closing mgr.

(** The deferred calls once the group was made. *)
Definition teardown (mgr : Manager B) (creds : Credentials B)
    (g : VolumeGroup B) (vols : list (Volume B))
    (rs : list (option error)) (rd : option error) : list event :=
  [EvDeleteCredentials creds]
  ++ removed g vols rs
  ++ [EvVolumeGroupDelete g rd; EvVolumeGroupDestroy g]
  ++ closing mgr.

Definition converted (conv : CSIGroupSnapshot B + error)
  : rpc_result CreateVolumeGroupSnapshotResponse :=
  match conv with
  | inl csiVGS => Response (mkCreateResponse csiVGS)
  | inr _ => Status Aborted
  end.

Inductive create_path
  : rpc_result CreateVolumeGroupSnapshotResponse -> list event -> Prop :=
| path_busy :
    create_path (Status Aborted) [EvTryAcquire (Name req) false]
| path_unresolved mgr ids1 id ids2 vols err :
    SourceVolumeIds req = ids1 ++ id :: ids2 ->
    length vols = length ids1 ->
    create_path (Status InvalidArgument)
      ([EvTryAcquire (Name req) true;
        EvNewManager (Some (Parameters req)) (Secrets req) mgr]
       ++ resolved mgr ids1 vols
       ++ [EvGetVolumeByID mgr id (inr err)]
       ++ release mgr vols)
| path_found mgr vols gs err conv :
    length vols = length (SourceVolumeIds req) ->
    create_path (converted conv)
      (before_lookup mgr vols
       ++ [EvGetVolumeGroupSnapshotByName mgr (Name req) (Some gs, err);
           EvToCSI gs conv;
           EvVolumeGroupSnapshotDestroy gs]
       ++ release mgr vols)
| path_no_credentials mgr vols err e :
    length vols = length (SourceVolumeIds req) ->
    create_path (Status Internal)
      (before_lookup mgr vols
       ++ [EvGetVolumeGroupSnapshotByName mgr (Name req) (None, err);
           EvNewUserCredentials (Secrets req) (inr e)]
       ++ release mgr vols)
| path_unprepared mgr vols err creds rs e es :
    length vols = length (SourceVolumeIds req) ->
    length rs = length vols ->
    omap id rs = e :: es ->
    create_path (Status (status_Code B e))
      (before_prepare mgr vols err creds
       ++ prepared creds vols rs
       ++ [EvDeleteCredentials creds]
       ++ release mgr vols)
| path_no_group mgr vols err creds e :
    length vols = length (SourceVolumeIds req) ->
    create_path (Status Internal)
      (before_prepare mgr vols err creds
       ++ prepared creds vols (replicate (length vols) None)
       ++ [EvCreateVolumeGroup mgr (Name req +:+ "-vg")%string (inr e);
           EvDeleteCredentials creds]
       ++ release mgr vols)
| path_not_added mgr vols err creds g vols1 vol vols2 e rs rd :
    length vols = length (SourceVolumeIds req) ->
    vols = vols1 ++ vol :: vols2 ->
    length rs = length vols ->
    create_path (Status Aborted)
      (before_add mgr vols err creds g
       ++ added g vols1
       ++ [EvAddVolume g vol (Some e)]
       ++ teardown mgr creds g vols rs rd)
| path_no_snapshot mgr vols err creds g e rs rd :
    length vols = length (SourceVolumeIds req) ->
    length rs = length vols ->
    create_path (Status Aborted)
      (before_add mgr vols err creds g
       ++ added g vols
       ++ [EvCreateVolumeGroupSnapshot mgr g (Name req) (inr e)]
       ++ teardown mgr creds g vols rs rd)
| path_created mgr vols err creds g gs conv rs rd :
    length vols = length (SourceVolumeIds req) ->
    length rs = length vols ->
    create_path (converted conv)
      (before_add mgr vols err creds g
       ++ added g vols
       ++ [EvCreateVolumeGroupSnapshot mgr g (Name req) (inl gs);
           EvToCSI gs conv;
           EvVolumeGroupSnapshotDestroy gs]
       ++ teardown mgr creds g vols rs rd).

End Shapes.

End RPC.

Arguments event : clear implicits.
Arguments deferred : clear implicits.
Arguments frame : clear implicits.
Arguments M : clear implicits.
Arguments CreateVolumeGroupSnapshotResponse : clear implicits.
Arguments GetVolumeGroupSnapshotResponse : clear implicits.

End GroupSnapshot.

(* ===================================================================== *)
(** * A storage cluster to run the RPCs against *)
(* ===================================================================== *)

Module Sim.

Import GoErrors GroupSnapshot.

(** Modelled from the spec: the lock registry, the manager, the volumes,
    the volume groups and the group snapshots are implemented outside the
    embedded files.  This is the storage layer as sections 3, 4.1 and 4.2
    of the specification describe it: locks are a set of held names; a
    volume is known by its ID and belongs to at most one group; a group
    snapshot is stored under its name, has an ID of its own, a creation
    time, a readiness flag and one member record per source volume;
    [Destroy] releases a handle and leaves the storage alone.  Two fields
    make calls fail: [unpreparable] gives the volumes that cannot be
    quiesced, with the cause, and [lookup_fault] is set while snapshot
    lookups cannot reach the cluster. *)
Record snapshot : Type := mkSnapshot {
  snap_id : string;
  snap_name : string;
  snap_created : nat;
  snap_ready : bool;
  snap_members : list (string * string)
}.

Record csi_snapshot : Type := mkCsiSnapshot {
  GroupSnapshotId : string;
  CreationTime : nat;
  ReadyToUse : bool;
  Snapshots : list (string * string)
}.

Record cluster : Type := mkCluster {
  held : gset string;
  images : gset string;
  unpreparable : gmap string error;
  member_of : gmap string string;
  groups : gmap string (list string);
  snapshots : gmap string snapshot;
  lookup_fault : option error;
  clock : nat
}.

Definition set_held (f : gset string -> gset string) (w : cluster)
  : cluster :=
  mkCluster (f (held w)) (images w) (unpreparable w) (member_of w)
            (groups w) (snapshots w) (lookup_fault w) (clock w).

Definition set_membership (m : gmap string string)
    (g : gmap string (list string)) (w : cluster) : cluster :=
  mkCluster (held w) (images w) (unpreparable w) m g (snapshots w)
            (lookup_fault w) (clock w).

Definition set_snapshots (f : gmap string snapshot) (c : nat)
    (w : cluster) : cluster :=
  mkCluster (held w) (images w) (unpreparable w) (member_of w) (groups w)
            f (lookup_fault w) c.

(** Modelled from the spec: [TryAcquire] and [Release] of section 4.1. *)
Definition sim_TryAcquire (name : string) (w : cluster) : bool * cluster :=
  if decide (name ∈ held w) then (false, w)
  else (true, set_held (fun h => {[name]} ∪ h) w).

Definition sim_Release (name : string) (w : cluster) : cluster :=
  set_held (fun h => h ∖ {[name]}) w.

(** Modelled from the spec: [GetVolumeByID] of section 4.2; a volume
    handle is the ID. *)
Definition sim_GetVolumeByID (mgr : unit) (id : string) (w : cluster)
  : (string + error) * cluster :=
  (if decide (id ∈ images w) then inl id else inr (New ErrImageNotFound), w).

(** Modelled from the spec: [GetVolumeGroupSnapshotByName] and
    [GetVolumeGroupSnapshotByID] of section 4.2. *)
Definition sim_GetVolumeGroupSnapshotByName (mgr : unit) (name : string)
    (w : cluster) : (option snapshot * option error) * cluster :=
  (match lookup_fault w with
   | Some e => (None, Some e)
   | None =>
       match snapshots w !! name with
       | Some gs => (Some gs, None)
       | None => (None, Some (New group_ErrRBDGroupNotFound))
       end
   end, w).

Definition sim_GetVolumeGroupSnapshotByID (mgr : unit) (id : string)
    (w : cluster) : (snapshot + error) * cluster :=
  (match lookup_fault w with
   | Some e => inr e
   | None =>
       match map_to_list
               (filter (fun kv => snap_id (snd kv) = id) (snapshots w)) with
       | (_, gs) :: _ => inl gs
       | [] => inr (Wrap "group snapshot" (New group_ErrRBDGroupNotFound))
       end
   end, w).

(** Modelled from the spec: [CreateVolumeGroup], [AddVolume],
    [RemoveVolume] and [DeleteVolumeGroup] of section 4.2; a group handle
    is the name of the group. *)
Definition sim_CreateVolumeGroup (mgr : unit) (name : string) (w : cluster)
  : (string + error) * cluster :=
  match groups w !! name with
  | Some _ => (inr (New ErrObjectExists), w)
  | None => (inl name, set_membership (member_of w)
                                      (<[name := []]> (groups w)) w)
  end.

Definition sim_AddVolume (g : string) (vol : string) (w : cluster)
  : option error * cluster :=
  match groups w !! g, member_of w !! vol with
  | None, _ => (Some (New group_ErrRBDGroupNotFound), w)
  | Some _, Some g' =>
      (if decide (g' = g) then None else Some (New ErrObjectExists), w)
  | Some ms, None =>
      (None, set_membership (<[vol := g]> (member_of w))
                            (<[g := ms ++ [vol]]> (groups w)) w)
  end.

Definition sim_RemoveVolume (g : string) (vol : option string)
    (w : cluster) : option error * cluster :=
  match vol with
  | None => (Some (New ErrObjectNotFound), w)
  | Some v =>
      if decide (member_of w !! v = Some g) then
        (None, set_membership (delete v (member_of w))
                              (alter (filter (fun x => x ≠ v)) g (groups w))
                              w)
      else (Some (New ErrObjectNotFound), w)
  end.

Definition sim_VolumeGroup_Delete (g : string) (w : cluster)
  : option error * cluster :=
  match groups w !! g with
  | None => (Some (New group_ErrRBDGroupNotFound), w)
  | Some _ =>
      (None, set_membership (filter (fun kv => snd kv ≠ g) (member_of w))
                            (delete g (groups w)) w)
  end.

(** Modelled from the spec: [CreateVolumeGroupSnapshot] and
    [DeleteVolumeGroupSnapshot] of section 4.2. *)
Definition sim_CreateVolumeGroupSnapshot (mgr : unit) (g : string)
    (name : string) (w : cluster) : (snapshot + error) * cluster :=
  match snapshots w !! name, groups w !! g with
  | Some _, _ => (inr (New ErrObjectExists), w)
  | None, None => (inr (New group_ErrRBDGroupNotFound), w)
  | None, Some ms =>
      let gs :=
        {| snap_id := ("id-" +:+ name)%string;
           snap_name := name;
           snap_created := clock w;
           snap_ready := true;
           snap_members :=
             (fun v => (v, (name +:+ "@" +:+ v)%string)) <$> ms |} in
      (inl gs, set_snapshots (<[name := gs]> (snapshots w)) (S (clock w)) w)
  end.

Definition sim_VolumeGroupSnapshot_Delete (gs : snapshot) (w : cluster)
  : option error * cluster :=
  (None, set_snapshots (delete (snap_name gs) (snapshots w)) (clock w) w).

(** Modelled from the spec: the converter of section 6, which fails when
    an identity field is unset. *)
Definition sim_ToCSI (gs : snapshot) (w : cluster)
  : (csi_snapshot + error) * cluster :=
  (if bool_decide (snap_id gs = ""%string)
      || bool_decide (snap_name gs = ""%string)
   then inr (New ErrClusterIDNotSet)
   else inl (mkCsiSnapshot (snap_id gs) (snap_created gs) (snap_ready gs)
                           (snap_members gs)), w).

(** Modelled from the spec: [PrepareForSnapshot] of section 4.2. *)
Definition sim_PrepareVolumeForSnapshot (vol : string)
    (creds : gmap string string) (w : cluster) : option error * cluster :=
  (unpreparable w !! vol, w).

(** Modelled from the spec: the error class of an error.  [status.Code]
    belongs to the gRPC library; here the n-th foreign error carries the
    n-th code and every other error is [Unknown]. *)
Definition sim_status_Code (e : error) : Code :=
  match e with
  | New (ErrForeign n) =>
      nth n [Canceled; Unknown; InvalidArgument; DeadlineExceeded; NotFound;
             AlreadyExists; PermissionDenied; ResourceExhausted;
             FailedPrecondition; Aborted; OutOfRange; Unimplemented;
             Internal; Unavailable; DataLoss; Unauthenticated] Unknown
  | _ => Unknown
  end.

Definition backend : Backend :=
  {| World := cluster;
     Manager := unit;
     Volume := string;
     VolumeGroup := string;
     VolumeGroupSnapshot := snapshot;
     CSIGroupSnapshot := csi_snapshot;
     Credentials := gmap string string;
     h_TryAcquire := sim_TryAcquire;
     h_Release := sim_Release;
     h_NewManager := fun _ _ w => (tt, w);
     h_Manager_Destroy := fun _ w => w;
     h_GetVolumeByID := sim_GetVolumeByID;
     h_GetVolumeGroupSnapshotByName := sim_GetVolumeGroupSnapshotByName;
     h_GetVolumeGroupSnapshotByID := sim_GetVolumeGroupSnapshotByID;
     h_CreateVolumeGroup := sim_CreateVolumeGroup;
     h_Manager_CreateVolumeGroupSnapshot := sim_CreateVolumeGroupSnapshot;
     h_NewUserCredentials := fun secrets w => (inl secrets, w);
     h_DeleteCredentials := fun _ w => w;
     h_PrepareVolumeForSnapshot := sim_PrepareVolumeForSnapshot;
     h_Volume_Destroy := fun _ w => w;
     h_AddVolume := sim_AddVolume;
     h_RemoveVolume := sim_RemoveVolume;
     h_VolumeGroup_Delete := sim_VolumeGroup_Delete;
     h_VolumeGroup_Destroy := fun _ w => w;
     h_ToCSI := sim_ToCSI;
     h_VolumeGroupSnapshot_Delete := sim_VolumeGroupSnapshot_Delete;
     h_VolumeGroupSnapshot_Destroy := fun _ w => w;
     status_Code := sim_status_Code |}.

(** A cluster with three volumes and nothing else. *)
Definition cluster0 : cluster :=
  {| held := ∅;
     images := {["v1"; "v2"; "v3"]}%string;
     unpreparable := ∅;
     member_of := ∅;
     groups := ∅;
     snapshots := ∅;
     lookup_fault := None;
     clock := 0 |}.

(** The same cluster while another call holds the name vgs1. *)
Definition cluster_busy : cluster :=
  set_held (fun _ => {["vgs1"%string]}) cluster0.

(** The same cluster with v2 a member of some other group. *)
Definition cluster_grouped : cluster :=
  set_membership {["v2"%string := "other"%string]}
                 {["other"%string := ["v2"%string]]} cluster0.

(** The same cluster, where v2 and v3 cannot be quiesced: v2 fails with
    FailedPrecondition, v3 with Internal. *)
Definition cluster_unquiesced : cluster :=
  mkCluster ∅ {["v1"; "v2"; "v3"]}%string
            {["v2"%string := New (ErrForeign 8);
              "v3"%string := New (ErrForeign 12)]}
            ∅ ∅ ∅ None 0.

(** The same cluster while snapshot lookups fail with an error that is not
    the not-found error (its class is Unavailable). *)
Definition cluster_unreachable : cluster :=
  mkCluster ∅ {["v1"; "v2"; "v3"]}%string ∅ ∅ ∅ ∅
            (Some (New (ErrForeign 13))) 0.

Definition create_req (name : string) (ids : list string)
  : CreateVolumeGroupSnapshotRequest :=
  mkCreateRequest name ids ∅ ∅.

Definition Create (name : string) (ids : list string) (w : cluster) :=
  run (B := backend) (CreateVolumeGroupSnapshot (create_req name ids)) w.

Definition Delete (id : string) (w : cluster) :=
  run (B := backend) (DeleteVolumeGroupSnapshot (mkDeleteRequest id ∅)) w.

Definition Get (id : string) (w : cluster) :=
  run (B := backend) (GetVolumeGroupSnapshot (mkGetRequest id ∅)) w.

End Sim.

(* ===================================================================== *)
(** * Reading handles off a trace *)
(* ===================================================================== *)

Module Handles.

Import GoErrors GroupSnapshot.

Section Readers.

Context {B : Backend}.

(** The handles a trace shows as obtained and as given back. *)
Definition volumes_destroyed (t : list (event B)) : list (Volume B) :=
  omap (fun ev => match ev with
                  | EvVolumeDestroy vol => Some vol
                  | _ => None
                  end) t.

Definition managers_made (t : list (event B)) : list (Manager B) :=
  omap (fun ev => match ev with
                  | EvNewManager _ _ mgr => Some mgr
                  | _ => None
                  end) t.

Definition managers_destroyed (t : list (event B)) : list (Manager B) :=
  omap (fun ev => match ev with
                  | EvManagerDestroy mgr => Some mgr
                  | _ => None
                  end) t.

Definition credentials_made (t : list (event B)) : list (Credentials B) :=
  omap (fun ev => match ev with
                  | EvNewUserCredentials _ (inl creds) => Some creds
                  | _ => None
                  end) t.

Definition credentials_deleted (t : list (event B))
  : list (Credentials B) :=
  omap (fun ev => match ev with
                  | EvDeleteCredentials creds => Some creds
                  | _ => None
                  end) t.

Definition groups_destroyed (t : list (event B)) : list (VolumeGroup B) :=
  omap (fun ev => match ev with
                  | EvVolumeGroupDestroy g => Some g
                  | _ => None
                  end) t.

(** The group snapshots a trace shows as returned by a lookup or by the
    manager's [CreateVolumeGroupSnapshot]. *)
Definition snapshots_obtained (t : list (event B))
  : list (VolumeGroupSnapshot B) :=
  omap (fun ev => match ev with
                  | EvGetVolumeGroupSnapshotByName _ _ (Some gs, _) => Some gs
                  | EvGetVolumeGroupSnapshotByID _ _ (inl gs) => Some gs
                  | EvCreateVolumeGroupSnapshot _ _ _ (inl gs) => Some gs
                  | _ => None
                  end) t.

Definition snapshots_destroyed (t : list (event B))
  : list (VolumeGroupSnapshot B) :=
  omap (fun ev => match ev with
                  | EvVolumeGroupSnapshotDestroy gs => Some gs
                  | _ => None
                  end) t.

Definition snapshots_deleted (t : list (event B))
  : list (VolumeGroupSnapshot B) :=
  omap (fun ev => match ev with
                  | EvVolumeGroupSnapshotDelete gs _ => Some gs
                  | _ => None
                  end) t.

(** The result and the trace of a run. *)
Definition result_of {A} (x : A * World B * list (event B)) : A := x.1.1.
Definition trace_of {A} (x : A * World B * list (event B))
  : list (event B) := x.2.

End Readers.

End Handles.

(* ===================================================================== *)
(** * More clusters to run the RPCs against *)
(* ===================================================================== *)

Module SimClusters.

Import GoErrors GroupSnapshot Sim.

(** The cluster with three volumes where a group of the name that a
    Create of vgs1 uses is left over. *)
Definition cluster_leftover : cluster :=
  set_membership ∅ {["vgs1-vg"%string := []]} cluster0.

(** A group snapshot as the cluster stores it. *)
Definition snapshot1 : snapshot :=
  mkSnapshot "id-vgs1" "vgs1" 0 true
             [("v1", "vgs1@v1"); ("v2", "vgs1@v2"); ("v3", "vgs1@v3")]%string.

(** The cluster that stores [snapshot1]. *)
Definition cluster_snapshotted : cluster :=
  set_snapshots {["vgs1"%string := snapshot1]} 1 cluster0.

(** The same cluster while snapshot lookups fail. *)
Definition cluster_hidden : cluster :=
  mkCluster ∅ {["v1"; "v2"; "v3"]}%string ∅ ∅ ∅
            {["vgs1"%string := snapshot1]} (Some (New (ErrForeign 13))) 1.

End SimClusters.

(* ===================================================================== *)
(** * Reading the QoS parameters *)
(* ===================================================================== *)

Module QosReading.

Import Qos.

Local Open Scope string_scope.

(** [scParams[k]] as Go reads a map of strings: the empty string for a
    key that is not there. *)
Definition param (scParams : gmap string string) (k : string) : string :=
  default "" (scParams !! k).

(** The entry of one base limit after [parseQosParams]: filled when the
    storage class gives the base limit a non-empty value, and as it was
    made otherwise. *)
Definition parsed (scParams : gmap string string)
    (base limitType perGiB : string) : qosSpec :=
  if nonempty (param scParams base)
  then mkQosSpec limitType (param scParams base) perGiB
                 (param scParams perGiB) true
  else mkQosSpec limitType "" perGiB "" false.

(** A parameter of the volume; a [nil] map has none. *)
Definition qos_param (rv : rbdVolume) (k : string) : option string :=
  QosParameters rv ≫= (.!! k).

(** The rows of the table of [parseQosParams]: the storage class key of
    a base limit, the image setting it becomes, and the storage class key
    of its per-GiB limit. *)
Definition qos_rows : list (string * string * string) :=
  [ (baseReadIops, readIopsLimit, readIopsPerGiB);
    (baseWriteIops, writeIopsLimit, writeIopsPerGiB);
    (baseReadBytesPerSecond, readBpsLimit, readBpsPerGiB);
    (baseWriteBytesPerSecond, writeBpsLimit, writeBpsPerGiB) ].

(** The storage class of the last two cases of [TestSetQOS]. *)
Definition test_params : gmap string string :=
  list_to_map
    [ (baseReadIops, "2000"); (baseWriteIops, "1000");
      (baseReadBytesPerSecond, "209715200");
      (baseWriteBytesPerSecond, "104857600");
      (readIopsPerGiB, "20"); (writeIopsPerGiB, "10");
      (readBpsPerGiB, "2097152"); (writeBpsPerGiB, "1048576");
      (baseVolSizeBytes, "21474836480") ].

(** A volume of the given sizes that has no parameters yet. *)
Definition fresh (requested : Z) (baseVolSize : string) : rbdVolume :=
  mkRbdVolume requested baseVolSize None.

End QosReading.

(* ===================================================================== *)
(** * Facts about the retryable errors *)
(* ===================================================================== *)

Module GoErrorsFacts.

Import GoErrors.

(** Induction over an error and, for an error that unwraps to several,
    over all its children. *)
Lemma error_ind' (P : error -> Prop) :
  (forall s, P (New s)) ->
  (forall msg e, P e -> P (Wrap msg e)) ->
  (forall es, Forall P es -> P (Join es)) ->
  (forall own_is es, Forall P es -> P (Custom own_is es)) ->
  forall e, P e.
Proof.
  intros HNew HWrap HJoin HCustom. fix IH 1. intros [s|msg e|es|own_is es].
  - apply HNew.
  - apply HWrap, IH.
  - apply HJoin. induction es as [|e es IHes]; constructor.
    + apply IH.
    + apply IHes.
  - apply HCustom. induction es as [|e es IHes]; constructor.
    + apply IH.
    + apply IHes.
Qed.

Lemma existsb_children (f : error -> bool) (P : error -> Prop) es :
  Forall (fun e => f e = true <-> P e) es ->
  existsb f es = true <-> exists e, In e es /\ P e.
Proof.
  intros IH. rewrite existsb_exists. rewrite Forall_forall in IH.
  split; intros (e & Hin & He); exists e; (split; [done|]);
    apply IH; (done || by apply list_elem_of_In).
Qed.

(** [errors.Is] returns [true] exactly when the error wraps the sentinel
    or answers for it. *)
Lemma errors_Is_finds (e : error) (target : sentinel) :
  errors_Is e target = true <-> wraps target e \/ answers target e.
Proof.
  induction e as [s|msg e IH|es IH|own_is es IH] using error_ind';
    cbn [errors_Is].
  - rewrite bool_decide_eq_true. split.
    + intros ->. left. constructor.
    + intros [H|H]; by inversion H.
  - rewrite IH. split.
    + intros [H|H]; [left|right]; by constructor.
    + intros [H|H]; inversion H; subst; auto.
  - rewrite (existsb_children _ _ _ IH). split.
    + intros (e & Hin & [H|H]); [left|right]; by econstructor.
    + intros [H|H]; inversion H; subst; eauto.
  - rewrite orb_true_iff, (existsb_children _ _ _ IH). split.
    + intros [H|(e & Hin & [H|H])].
      * right. by constructor.
      * left. by econstructor.
      * right. by eapply answers_custom.
    + intros [H|H]; inversion H; subst; eauto.
Qed.

(** An error without [Is] methods answers for nothing. *)
Lemma plain_answers (e : error) (target : sentinel) :
  plain e = true -> ~ answers target e.
Proof.
  induction e as [s|msg e IH|es IH|own_is es IH] using error_ind';
    cbn [plain]; intros Hp Ha; inversion Ha; subst; try done.
  - by apply IH.
  - rewrite forallb_forall in Hp. rewrite Forall_forall in IH.
    eapply IH; [by apply list_elem_of_In|by apply Hp|done].
Qed.

(** C10, as the code has it.  [ShouldRetryVolumeGeneration] returns
    [true] exactly for a non-nil error that wraps one of
    [ErrKeyNotFound], [ErrPoolNotFound], [ErrImageNotFound] and
    [rados.ErrPermissionDenied] or that answers for one of them through
    an [Is] method of its own; so it returns [false] for [nil] and [true]
    for every error that wraps one of the four.  For an error without
    [Is] methods it returns [true] exactly when the error wraps one of
    the four. *)
Theorem ShouldRetryVolumeGeneration_iff (err : goerror) :
  (ShouldRetryVolumeGeneration err = true <->
   exists e, err = Some e /\
     ((wraps ErrKeyNotFound e \/ answers ErrKeyNotFound e) \/
      (wraps ErrPoolNotFound e \/ answers ErrPoolNotFound e) \/
      (wraps ErrImageNotFound e \/ answers ErrImageNotFound e) \/
      (wraps rados_ErrPermissionDenied e \/
       answers rados_ErrPermissionDenied e))) /\
  (err = None -> ShouldRetryVolumeGeneration err = false) /\
  (forall e, err = Some e ->
     (wraps ErrKeyNotFound e \/ wraps ErrPoolNotFound e \/
      wraps ErrImageNotFound e \/ wraps rados_ErrPermissionDenied e ->
      ShouldRetryVolumeGeneration err = true) /\
     (plain e = true ->
      (ShouldRetryVolumeGeneration err = true <->
       wraps ErrKeyNotFound e \/ wraps ErrPoolNotFound e \/
       wraps ErrImageNotFound e \/ wraps rados_ErrPermissionDenied e))).
Proof.
  split; [|split].
  - destruct err as [e|]; cbn [ShouldRetryVolumeGeneration].
    + rewrite !orb_true_iff, !errors_Is_finds. split.
      * intros H. exists e. tauto.
      * intros (e' & [= <-] & H). tauto.
    + split; [done|]. by intros (e & [=] & _).
  - by intros ->.
  - intros e ->. cbn [ShouldRetryVolumeGeneration].
    rewrite !orb_true_iff, !errors_Is_finds. split; [tauto|].
    intros Hp.
    pose proof (plain_answers e ErrKeyNotFound Hp).
    pose proof (plain_answers e ErrPoolNotFound Hp).
    pose proof (plain_answers e ErrImageNotFound Hp).
    pose proof (plain_answers e rados_ErrPermissionDenied Hp).
    tauto.
Qed.

(** C10 as the specification states it fails here: an error whose own
    [Is] method accepts [ErrKeyNotFound] wraps nothing at all, and
    [ShouldRetryVolumeGeneration] returns [true] for it. *)
Lemma ShouldRetryVolumeGeneration_own_Is :
  let e := Custom (fun target => bool_decide (target = ErrKeyNotFound)) [] in
  ShouldRetryVolumeGeneration (Some e) = true /\
  ~ wraps ErrKeyNotFound e /\
  ~ wraps ErrPoolNotFound e /\
  ~ wraps ErrImageNotFound e /\
  ~ wraps rados_ErrPermissionDenied e.
Proof.
  cbv zeta. split; [reflexivity|].
  split_and!; intros H; inversion H as [| | |own_is es e Hin He]; subst;
    by destruct Hin.
Qed.

End GoErrorsFacts.

(* ===================================================================== *)
(** * Facts about the QoS computation *)
(* ===================================================================== *)

Module QosFacts.

Import Qos.

Local Open Scope string_scope.
Local Open Scope Z_scope.

(** ** [int64] arithmetic *)

Lemma wrap64_id (z : Z) : int64_range z -> wrap64 z = z.
Proof.
  unfold int64_range, minInt64, maxInt64, wrap64. intros Hz.
  rewrite Z.mod_small; lia.
Qed.

Lemma wrap64_range (z : Z) : int64_range (wrap64 z).
Proof.
  unfold int64_range, minInt64, maxInt64, wrap64.
  pose proof (Z.mod_pos_bound (z + 2 ^ 63) (2 ^ 64)). lia.
Qed.

Lemma wrap64_add_r (a b : Z) : wrap64 (a + wrap64 b) = wrap64 (a + b).
Proof.
  unfold wrap64. f_equal.
  replace (a + ((b + 2 ^ 63) mod 2 ^ 64 - 2 ^ 63) + 2 ^ 63)
    with (a + (b + 2 ^ 63) mod 2 ^ 64) by lia.
  rewrite Zplus_mod_idemp_r. f_equal. lia.
Qed.

(** ** [strconv.ParseInt] *)

Lemma ParseInt_nonempty (s : string) (z : Z) :
  ParseInt s = Some z -> nonempty s = true.
Proof. by destruct s. Qed.

(** ** [calcQosBasedOnCapacity] *)

(** The capacity based part of the limit is exact as long as the size
    difference and the final limit fit [int64]; the product in between may
    wrap around. *)
Lemma finalQosLimit_exact (bl pg bvs R : Z) :
  bvs < R ->
  int64_range (R - bvs) ->
  int64_range (bl + (R - bvs) / 2 ^ 30 * pg) ->
  add64 bl (mul64 (div64 (sub64 R bvs) oneGB) pg)
  = bl + (R - bvs) / 2 ^ 30 * pg.
Proof.
  intros Hlt Hsub Hfin. unfold add64, mul64, div64, sub64.
  rewrite (wrap64_id (R - bvs)) by done.
  assert (Hq : (R - bvs) ÷ oneGB = (R - bvs) / 2 ^ 30)
    by (apply Z.quot_div_nonneg; unfold oneGB; lia).
  rewrite Hq.
  assert (Hr : int64_range ((R - bvs) / 2 ^ 30)).
  { unfold int64_range, minInt64, maxInt64 in *.
    pose proof (Z.div_pos (R - bvs) (2 ^ 30)).
    pose proof (Z.div_le_upper_bound (R - bvs) (2 ^ 30) (2 ^ 63 - 1)).
    lia. }
  rewrite (wrap64_id _ Hr), wrap64_add_r. by apply wrap64_id.
Qed.

(** C9, with Go's arithmetic.  For a base limit that parses:
    - when the per-GiB limit or the base volume size is absent, the
      parameter is set to the base limit as given;
    - when both parse and the requested size is at most the base volume
      size, the parameter is set to the base limit as given;
    - when both parse and the requested size is larger, the parameter is
      set to the decimal form of
      [baseLimit + (RequestedVolSize - baseVolSize) / oneGB * perGiBLimit]
      computed in [int64], which wraps around; as long as the size
      difference and the final limit fit [int64], this is the exact
      integer [baseLimit + (RequestedVolSize - baseVolSize) / 2^30 *
      perGiBLimit].
    In each case no error is returned and no other parameter changes. *)
Theorem calcQosBasedOnCapacity_limit
    (rv : rbdVolume) (qos : qosSpec) (bl : Z) :
  ParseInt (baseLimit qos) = Some bl ->
  let params := default ∅ (QosParameters rv) in
  let R := RequestedVolSize rv in
  let stores v :=
    calcQosBasedOnCapacity rv qos
    = (with_QosParameters rv (<[baseLimitType qos := v]> params), None) in
  (perGiBLimit qos = "" \/ BaseVolSize rv = "" -> stores (baseLimit qos)) /\
  (forall pg bvs : Z,
     ParseInt (perGiBLimit qos) = Some pg ->
     ParseInt (BaseVolSize rv) = Some bvs ->
     (R <= bvs -> stores (baseLimit qos)) /\
     (bvs < R ->
      stores (FormatInt (add64 bl (mul64 (div64 (sub64 R bvs) oneGB) pg))) /\
      (int64_range (R - bvs) ->
       int64_range (bl + (R - bvs) / 2 ^ 30 * pg) ->
       stores (FormatInt (bl + (R - bvs) / 2 ^ 30 * pg))))).
Proof.
  intros Hbl params R stores. subst stores. cbv beta.
  pose proof (ParseInt_nonempty _ _ Hbl) as Hne.
  unfold calcQosBasedOnCapacity. rewrite Hne, Hbl. cbn [negb].
  cbn [BaseVolSize RequestedVolSize with_QosParameters].
  fold params. fold R. split.
  - intros [-> | ->]; cbn [nonempty andb]; [done|].
    by rewrite andb_false_r.
  - intros pg bvs Hpg Hbvs.
    rewrite (ParseInt_nonempty _ _ Hpg), (ParseInt_nonempty _ _ Hbvs).
    cbn [andb]. rewrite Hpg, Hbvs. split.
    + intros Hle. by rewrite (proj2 (Z.leb_le _ _) Hle).
    + intros Hlt. rewrite (proj2 (Z.leb_gt _ _) Hlt). split; [done|].
      intros Hsub Hfin. by rewrite finalQosLimit_exact.
Qed.

(** What [TestSetQOS] expects of a volume of 100 GiB with a base size of
    20 GiB: 2000 + 80 * 20 = 3600. *)
Lemma calcQosBasedOnCapacity_limit_witness :
  let rv := mkRbdVolume (100 * oneGB) "21474836480" None in
  let qos := mkQosSpec readIopsLimit "2000" readIopsPerGiB "20" true in
  ParseInt (baseLimit qos) = Some 2000 /\
  calcQosBasedOnCapacity rv qos
  = (with_QosParameters rv {[ readIopsLimit := "3600" ]}, None).
Proof.
  intros rv qos. split; [reflexivity|].
  refine (proj2 (proj2 (proj2 (calcQosBasedOnCapacity_limit
            rv qos 2000 eq_refl) 20 21474836480 eq_refl eq_refl) _) _ _).
  - reflexivity.
  - split; apply Zle_bool_imp_le; reflexivity.
  - split; apply Zle_bool_imp_le; reflexivity.
Defined.

(** C9 with exact integers fails where [int64] overflows: for a base
    limit of 2^63 - 1, one more per GiB and one GiB above the base size,
    every input parses, the exact sum is 2^63, and the parameter set is
    -2^63. *)
Lemma calcQosBasedOnCapacity_overflow :
  let rv := mkRbdVolume (2 * oneGB) "1073741824" None in
  let qos :=
    mkQosSpec readIopsLimit "9223372036854775807" readIopsPerGiB "1" true in
  ParseInt (baseLimit qos) = Some 9223372036854775807 /\
  ParseInt (perGiBLimit qos) = Some 1 /\
  ParseInt (BaseVolSize rv) = Some 1073741824 /\
  1073741824 < RequestedVolSize rv /\
  9223372036854775807 + (RequestedVolSize rv - 1073741824) / 2 ^ 30 * 1
  = 9223372036854775808 /\
  calcQosBasedOnCapacity rv qos
  = (with_QosParameters rv {[ readIopsLimit := "-9223372036854775808" ]},
     None) /\
  FormatInt 9223372036854775808 = "9223372036854775808" /\
  "-9223372036854775808" <> "9223372036854775808".
Proof.
  cbv zeta. split; [reflexivity|]. split; [reflexivity|].
  split; [reflexivity|]. split; [reflexivity|]. split; [reflexivity|].
  split; [reflexivity|]. split; [reflexivity|]. discriminate.
Qed.

End QosFacts.

(* ===================================================================== *)
(** * Facts about the group snapshot RPCs *)
(* ===================================================================== *)

Module GroupSnapshotFacts.

Import GoErrors GroupSnapshot.

Section Inversion.

Context {B : Backend}.

Implicit Types (s : frame B) (t : list (event B)) (w : World B).

(** ** Taking a run apart *)

Lemma bind_inv {A C} (m : M B A) (k : A -> M B C) s c s2 t :
  (m ≫= k) s = (c, s2, t) ->
  exists a s1 t1 t2,
    m s = (a, s1, t1) /\ k a s1 = (c, s2, t2) /\ t = t1 ++ t2.
Proof.
  unfold mbind, M_bind.
  destruct (m s) as [[a s1] t1].
  destruct (k a s1) as [[c' s2'] t2] eqn:Hk.
  intros [= -> -> <-]. eauto 10.
Qed.

Lemma ret_inv {A} (a : A) s a' s' t :
  mret (M := M B) a s = (a', s', t) -> a' = a /\ s' = s /\ t = [].
Proof. unfold mret, M_ret. intros [= <- <- <-]. auto. Qed.

Lemma call_inv {A} (h : World B -> A * World B) ev s a s' t :
  call h ev s = (a, s', t) ->
  exists w, h (world s) = (a, w) /\
            s' = mkFrame w (volumes s) (vg s) (defers s) /\
            t = [ev a].
Proof.
  unfold call. destruct (h (world s)) as [a0 w].
  intros [= <- <- <-]. eauto.
Qed.

Lemma call__inv (h : World B -> World B) ev s u s' t :
  call_ h ev s = (u, s', t) ->
  s' = mkFrame (h (world s)) (volumes s) (vg s) (defers s) /\ t = [ev].
Proof. unfold call_, call. intros [= <- <- <-]. auto. Qed.

End Inversion.

(** One step of symbolic execution on a hypothesis about a run. *)
Ltac run1 :=
  match goal with
  | H : (_ ≫= _) _ = (_, _, _) |- _ =>
      apply bind_inv in H;
      let a := fresh "a" in let s1 := fresh "s" in
      let t1 := fresh "t" in let t2 := fresh "t" in
      let H1 := fresh "Hfst" in
      destruct H as (a & s1 & t1 & t2 & H1 & H & ->)
  | H : mret _ _ = (_, _, _) |- _ =>
      apply ret_inv in H; destruct H as (? & ? & ?); subst
  | H : call _ _ _ = (_, _, _) |- _ =>
      apply call_inv in H;
      let w := fresh "w" in let Hh := fresh "Hcall" in
      destruct H as (w & Hh & -> & ->)
  | H : call_ _ _ _ = (_, _, _) |- _ =>
      apply call__inv in H; destruct H as (-> & ->)
  | H : get_volumes _ = (_, _, _) |- _ =>
      unfold get_volumes in H; injection H as ? ? ?; subst
  | H : get_vg _ = (_, _, _) |- _ =>
      unfold get_vg in H; injection H as ? ? ?; subst
  | H : set_volumes _ _ = (_, _, _) |- _ =>
      unfold set_volumes in H; injection H as ? ? ?; subst
  | H : set_vg _ _ = (_, _, _) |- _ =>
      unfold set_vg in H; injection H as ? ? ?; subst
  | H : defer _ _ = (_, _, _) |- _ =>
      unfold defer in H; injection H as ? ? ?; subst
  | H : take_defers _ = (_, _, _) |- _ =>
      unfold take_defers in H; injection H as ? ? ?; subst
  | H : ?f _ = (_, _, _) |- _ =>
      progress unfold TryAcquire, Release, NewManager, Manager_Destroy,
        GetVolumeByID, GetVolumeGroupSnapshotByName,
        GetVolumeGroupSnapshotByID, CreateVolumeGroup,
        Manager_CreateVolumeGroupSnapshot, NewUserCredentials,
        DeleteCredentials, PrepareVolumeForSnapshot, Volume_Destroy,
        AddVolume, RemoveVolume, VolumeGroup_Delete, VolumeGroup_Destroy,
        ToCSI, VolumeGroupSnapshot_Delete, VolumeGroupSnapshot_Destroy
        in H
  end; cbn [world volumes vg defers app enter] in *.

Ltac run_inv := repeat run1; rewrite ?app_nil_r in *.

Section Loops.

Context {B : Backend}.

Implicit Types (s : frame B) (t : list (event B)) (w : World B).

(** ** The loops *)

Lemma resolve_volumes_inv {R} mgr ids :
  forall s (done rest : list (option (Volume B))) r s' t,
    volumes s = done ++ rest ->
    length rest = length ids ->
    resolve_volumes (R := R) mgr (length done) ids s = (r, s', t) ->
    vg s' = vg s /\ defers s' = defers s /\
    ((r = None /\
      exists vols, length vols = length ids /\
                   t = resolved mgr ids vols /\
                   volumes s' = done ++ (Some <$> vols))
     \/
     (r = Some (Status InvalidArgument) /\
      exists ids1 id ids2 vols err,
        ids = ids1 ++ id :: ids2 /\
        length vols = length ids1 /\
        t = resolved mgr ids1 vols ++ [EvGetVolumeByID mgr id (inr err)] /\
        volumes s' = done ++ (Some <$> vols) ++ drop (length ids1) rest)).
Proof.
  induction ids as [|id ids IH]; intros s done rest r s' t Hvs Hlen Hrun;
    cbn [resolve_volumes] in Hrun.
  - run_inv. destruct rest; [|discriminate].
    split; [done|]. split; [done|]. left. split; [done|].
    exists []. rewrite Hvs. by rewrite !app_nil_r.
  - destruct rest as [|x rest]; [discriminate|].
    run_inv. destruct a as [vol|err]; run_inv.
    + rewrite Hvs in Hrun.
      destruct (decide _) as [_|Hge] in Hrun.
      2:{ exfalso. apply Hge. rewrite length_app. cbn. lia. }
      run_inv.
      replace (<[length done := Some vol]> (done ++ x :: rest))
        with ((done ++ [Some vol]) ++ rest) in Hrun.
      2:{ rewrite insert_app_r_alt by lia.
          rewrite Nat.sub_diag. cbn. by rewrite <- app_assoc. }
      replace (S (length done)) with (length (done ++ [Some vol])) in Hrun
        by (rewrite length_app; cbn; lia).
      eapply IH in Hrun; [|reflexivity|cbn in Hlen; lia].
      cbn [world volumes vg defers] in Hrun.
      destruct Hrun as (Hvg & Hdf & Hcases).
      split; [done|]. split; [done|].
      destruct Hcases as [(-> & vols & Hl & -> & Hv)
                         |(-> & ids1 & id' & ids2 & vols & err & -> & Hl & -> & Hv)].
      * left. split; [done|]. exists (vol :: vols).
        split; [cbn; lia|]. split; [done|].
        rewrite Hv. by rewrite <- app_assoc.
      * right. split; [done|].
        exists (id :: ids1), id', ids2, (vol :: vols), err.
        split; [done|]. split; [cbn; lia|]. split; [done|].
        rewrite Hv. by rewrite <- app_assoc.
    + split; [done|]. split; [done|]. right. split; [done|].
      exists [], id, ids, [], err. cbn. by rewrite Hvs.
Qed.

Lemma cleanup_volumes_no_group vs :
  forall s u s' t,
    vg s = None ->
    cleanup_volumes vs s = (u, s', t) ->
    t = destroyed (omap id vs) /\
    volumes s' = volumes s /\ vg s' = vg s /\ defers s' = defers s.
Proof.
  induction vs as [|v vs IH]; intros s u s' t Hvg Hrun;
    cbn [cleanup_volumes] in Hrun.
  - by run_inv.
  - run_inv. rewrite Hvg in *. run_inv.
    destruct v as [v|]; run_inv; (apply IH in Hrun; [|done]);
      cbn in Hrun.
    all: destruct Hrun as (-> & ? & ? & ?); split_and!; first [done | congruence].
Qed.

Lemma cleanup_volumes_group g vols :
  forall s u s' t,
    vg s = Some g ->
    cleanup_volumes (Some <$> vols) s = (u, s', t) ->
    (exists rs, length rs = length vols /\ t = removed g vols rs) /\
    volumes s' = volumes s /\ vg s' = vg s /\ defers s' = defers s.
Proof.
  induction vols as [|v vols IH]; intros s u s' t Hvg Hrun;
    cbn [cleanup_volumes fmap list_fmap] in Hrun.
  - run_inv. split; [|done]. by exists [].
  - run_inv. rewrite Hvg in *. run_inv.
    apply IH in Hrun; [|done]. cbn in Hrun.
    destruct Hrun as ((rs & Hl & ->) & ? & ? & ?).
    split; [|split_and!; first [done | congruence]].
    exists (a :: rs). split; [cbn; lia|done].
Qed.

Lemma prepare_volumes_inv creds vols :
  forall errList s r s' t,
    prepare_volumes creds (Some <$> vols) errList s = (r, s', t) ->
    (exists rs, length rs = length vols /\
                t = prepared creds vols rs /\
                r = Some (errList ++ omap id rs)) /\
    volumes s' = volumes s /\ vg s' = vg s /\ defers s' = defers s.
Proof.
  induction vols as [|v vols IH]; intros errList s r s' t Hrun;
    cbn [prepare_volumes fmap list_fmap] in Hrun.
  - run_inv. split; [|done]. exists []. by rewrite app_nil_r.
  - run_inv.
    destruct a as [e|]; apply IH in Hrun; cbn in Hrun;
      destruct Hrun as ((rs & Hl & -> & ->) & ? & ? & ?);
      (split; [|done]).
    + exists (Some e :: rs). split; [cbn; lia|]. split; [done|].
      cbn. by rewrite <- app_assoc.
    + exists (None :: rs). split; [cbn; lia|]. done.
Qed.

Lemma add_volumes_inv {R} g vols :
  forall s r s' t,
    add_volumes (R := R) g (Some <$> vols) s = (r, s', t) ->
    volumes s' = volumes s /\ vg s' = vg s /\ defers s' = defers s /\
    ((r = None /\ t = added g vols)
     \/
     (r = Some (Status Aborted) /\
      exists vols1 vol vols2 e,
        vols = vols1 ++ vol :: vols2 /\
        t = added g vols1 ++ [EvAddVolume g vol (Some e)])).
Proof.
  induction vols as [|v vols IH]; intros s r s' t Hrun;
    cbn [add_volumes fmap list_fmap] in Hrun.
  - run_inv. split_and!; try done. by left.
  - run_inv. destruct a as [e|].
    + run_inv. split_and!; try done. right. split; [done|].
      by exists [], v, vols, e.
    + apply IH in Hrun. cbn in Hrun.
      destruct Hrun as (? & ? & ? & Hcases). split_and!; try done.
      destruct Hcases as [(-> & ->)|(-> & vols1 & vol & vols2 & e & -> & ->)].
      * by left.
      * right. split; [done|]. by exists (v :: vols1), vol, vols2, e.
Qed.

Lemma omap_id_Some {A} (l : list A) : omap id (Some <$> l) = l.
Proof. induction l as [|x l IH]; [done|]. cbn. by rewrite IH. Qed.

Lemma omap_id_None {A} n : omap id (replicate n (@None A)) = [].
Proof. induction n as [|n IH]; [done|]. cbn. by rewrite IH. Qed.

Lemma omap_id_resolved {A} (l : list A) k n :
  omap id ((Some <$> l) ++ drop k (replicate n None)) = l.
Proof.
  rewrite omap_app, omap_id_Some, drop_replicate, omap_id_None.
  by rewrite app_nil_r.
Qed.

Lemma omap_id_nil {A} (l : list (option A)) :
  omap id l = [] -> l = replicate (length l) None.
Proof.
  induction l as [|[x|] l IH]; cbn; [done|done|].
  intros H. by rewrite <- IH.
Qed.

Lemma cleanup_no_group s u s' t :
  vg s = None ->
  cleanup s = (u, s', t) ->
  t = destroyed (omap id (volumes s)).
Proof.
  intros Hvg Hrun. unfold cleanup in Hrun. run_inv.
  match goal with
  | H : cleanup_volumes _ _ = _ |- _ =>
      apply cleanup_volumes_no_group in H; [|done];
      destruct H as (-> & ? & Hvg' & ?)
  end.
  rewrite Hvg', Hvg in *. by run_inv.
Qed.

Lemma cleanup_group g vols s u s' t :
  vg s = Some g ->
  volumes s = Some <$> vols ->
  cleanup s = (u, s', t) ->
  exists rs rd,
    length rs = length vols /\
    t = removed g vols rs
        ++ [EvVolumeGroupDelete g rd; EvVolumeGroupDestroy g].
Proof.
  intros Hvg Hvs Hrun. unfold cleanup in Hrun. run_inv.
  rewrite Hvs in *.
  match goal with
  | H : cleanup_volumes _ _ = _ |- _ =>
      apply (cleanup_volumes_group g) in H; [|done];
      destruct H as ((rs & Hl & ->) & ? & Hvg' & ?)
  end.
  rewrite Hvg', Hvg in *. run_inv. by exists rs, a.
Qed.

Lemma create_path_eq req r t t' :
  create_path req r t -> t = t' -> create_path req r t'.
Proof. by intros H <-. Qed.

End Loops.

(** Case analysis on the next branch of a run. *)
Ltac run_case :=
  match goal with
  | H : (if negb ?b then _ else _) _ = (_, _, _) |- _ =>
      destruct b; cbn [negb] in H
  | H : (match fst ?p with _ => _ end) _ = (_, _, _) |- _ =>
      destruct p as [? ?]; cbn [fst snd] in H
  | H : (match ?x with _ => _ end) _ = (_, _, _) |- _ => destruct x
  end; run_inv.

Ltac finish_no_group Hvs :=
  cbn [run_defers run_deferred] in *; run_inv;
  match goal with
  | H : cleanup _ = _ |- _ =>
      apply cleanup_no_group in H; [|done]; cbn [volumes] in H;
      rewrite Hvs in H; subst
  end;
  rewrite ?omap_id_Some, <- ?app_assoc.

(** Conclude with a constructor, up to the bracketing of the trace. *)
Tactic Notation "by_path" uconstr(p) :=
  eapply (create_path_eq _ _ _ _ p);
  unfold before_add, before_prepare, before_lookup, release, teardown,
    closing;
  repeat (rewrite <- ?app_assoc; cbn [app]);
  reflexivity.

Ltac finish_group Hvg Hvs :=
  cbn [run_defers run_deferred] in *; run_inv;
  match goal with
  | H : cleanup _ = _ |- _ =>
      eapply cleanup_group in H; [|exact Hvg|exact Hvs];
      let rs := fresh "rs" in let rd := fresh "rd" in
      let Hl := fresh "Hlrs" in
      destruct H as (rs & rd & Hl & ->)
  end;
  rewrite <- ?app_assoc.

Section Paths.

Context {B : Backend}.

Implicit Types (s : frame B) (t : list (event B)) (w : World B).

Lemma create_paths req w r s' t :
  CreateVolumeGroupSnapshot req (enter w) = (r, s', t) ->
  create_path req r t.
Proof.
  intros Hrun. unfold CreateVolumeGroupSnapshot, returning in Hrun.
  run_inv. unfold CreateVolumeGroupSnapshot_body in *. run_inv.
  run_case.
  2:{ cbn [run_defers] in *. run_inv. apply path_busy. }
  match goal with
  | H : resolve_volumes _ _ _ _ = _ |- _ =>
      eapply (resolve_volumes_inv _ _ _ []) in H;
      [|reflexivity|by rewrite length_replicate];
      cbn [world volumes vg defers app] in H;
      destruct H as (Hvg & Hdf & Hres)
  end.
  destruct Hres as [(-> & vols & Hl & -> & Hvs)
                   |(-> & ids1 & id & ids2 & vols & err & Hids & Hl & -> & Hvs)].
  2:{ run_inv. rewrite Hdf in *. cbn [run_defers run_deferred] in *.
      run_inv.
      match goal with
      | H : cleanup _ = _ |- _ =>
          apply cleanup_no_group in H; [|done]; cbn [volumes] in H;
          rewrite Hvs in H; subst
      end.
      erewrite omap_id_resolved. rewrite <- ?app_assoc.
      by_path (path_unresolved req _ ids1 id ids2 vols err Hids Hl). }
  run_inv. rewrite Hdf in *. run_case. run_case.
  { (* a snapshot of that name was returned *)
    run_case.
    - finish_no_group Hvs.
      by_path (path_found req _ vols _ _ (inl _) Hl).
    - finish_no_group Hvs.
      by_path (path_found req _ vols _ _ (inr _) Hl). }
  run_case.
  2:{ (* no credentials *)
      finish_no_group Hvs.
      by_path (path_no_credentials req _ vols _ _ Hl). }
  rewrite Hvs in *.
  match goal with
  | H : prepare_volumes _ _ _ _ = _ |- _ =>
      apply prepare_volumes_inv in H;
      cbn [world volumes vg defers app] in H;
      destruct H as ((rs & Hlrs & -> & ->) & Hvs1 & Hvg1 & Hdf1)
  end.
  cbn [app] in *. rewrite Hvg in Hvg1.
  destruct (omap id rs) as [|e es] eqn:Hom.
  2:{ (* a volume could not be prepared *)
      run_inv. rewrite Hdf1 in *. finish_no_group Hvs1.
      by_path (path_unprepared req _ vols _ _ rs e es Hl Hlrs Hom). }
  apply omap_id_nil in Hom. rewrite Hlrs in Hom. subst rs.
  run_inv. rewrite Hdf1 in *. run_case.
  2:{ (* the group could not be created *)
      finish_no_group Hvs1.
      by_path (path_no_group req _ vols _ _ _ Hl). }
  rewrite Hvs1 in *.
  match goal with
  | H : add_volumes _ _ _ = _ |- _ =>
      apply add_volumes_inv in H;
      cbn [world volumes vg defers app] in H;
      destruct H as (Hvs2 & Hvg2 & Hdf2 & Hadd)
  end.
  destruct Hadd as [(-> & ->)|(-> & vols1 & vol & vols2 & e & Hsplit & ->)].
  2:{ (* a volume could not be added *)
      run_inv. rewrite Hdf2 in *. finish_group Hvg2 Hvs2.
      by_path (path_not_added req _ _ _ _ _ vols1 vol vols2 e rs rd
                 Hl eq_refl ltac:(eassumption)). }
  run_inv. rewrite Hdf2 in *. run_case.
  2:{ (* the snapshot could not be taken *)
      finish_group Hvg2 Hvs2.
      by_path (path_no_snapshot req _ vols _ _ _ _ rs rd
                 Hl ltac:(eassumption)). }
  run_case.
  - finish_group Hvg2 Hvs2.
    by_path (path_created req _ vols _ _ _ _ (inl _) rs rd
               Hl ltac:(eassumption)).
  - finish_group Hvg2 Hvs2.
    by_path (path_created req _ vols _ _ _ _ (inr _) rs rd
               Hl ltac:(eassumption)).
Qed.

(** ** Traces are faithful *)

Lemma steps_app w t1 w1 t2 w2 :
  steps w t1 w1 -> steps w1 t2 w2 -> steps w (t1 ++ t2) w2.
Proof.
  revert w. induction t1 as [|ev t1 IH]; cbn; intros w.
  - by intros ->.
  - intros (w0 & Hstep & Hsteps) H2. exists w0. split; [done|].
    by apply IH.
Qed.

Lemma steps_app_inv w t1 t2 w2 :
  steps w (t1 ++ t2) w2 ->
  exists w1, steps w t1 w1 /\ steps w1 t2 w2.
Proof.
  revert w. induction t1 as [|ev t1 IH]; cbn; intros w.
  - intros H. by exists w.
  - intros (w0 & Hstep & Hsteps). apply IH in Hsteps.
    destruct Hsteps as (w1 & H1 & H2). exists w1. split; [|done].
    by exists w0.
Qed.

Lemma sound_ret {A} (a : A) : sound (B := B) (mret a).
Proof. intros s a' s' t H. by run_inv. Qed.

Lemma sound_bind {A C} (m : M B A) (k : A -> M B C) :
  sound m -> (forall a, sound (k a)) -> sound (m ≫= k).
Proof.
  intros Hm Hk s c s' t H. run_inv.
  eapply steps_app; [by eapply Hm|by eapply Hk].
Qed.

Lemma sound_call {A} (h : World B -> A * World B) ev :
  (forall w a w', h w = (a, w') -> step w (ev a) w') ->
  sound (call h ev).
Proof.
  intros Hh s a s' t H. run_inv. cbn. exists w. split; [|done].
  by apply Hh.
Qed.

Lemma sound_call_ (h : World B -> World B) ev :
  (forall w, step w ev (h w)) -> sound (call_ h ev).
Proof. intros Hh s a s' t H. run_inv. cbn. by eexists. Qed.

Lemma sound_frame {A} (m : M B A) :
  (forall s, exists a s', m s = (a, s', []) /\ world s' = world s) ->
  sound m.
Proof.
  intros Hm s a s' t H. destruct (Hm s) as (a' & s1 & Heq & Hw).
  rewrite Heq in H. injection H as <- <- <-. by cbn.
Qed.

End Paths.

(** Proves [sound m] by following the structure of [m]. *)
Ltac sound_tac :=
  repeat first
    [ assumption
    | match goal with H : forall _, sound _ |- _ => apply H end
    | match goal with H : forall _ _, sound _ |- _ => apply H end
    | match goal with H : forall _ _ _, sound _ |- _ => apply H end
    | apply sound_ret
    | apply sound_bind; [|intros ?]
    | apply sound_call; intros ? ? ? ?; cbn; assumption
    | apply sound_call_; intros ?; cbn; reflexivity
    | apply sound_frame; intros ?; do 2 eexists; split; reflexivity
    | progress unfold TryAcquire, Release, NewManager, Manager_Destroy,
        GetVolumeByID, GetVolumeGroupSnapshotByName,
        GetVolumeGroupSnapshotByID, CreateVolumeGroup,
        Manager_CreateVolumeGroupSnapshot, NewUserCredentials,
        DeleteCredentials, PrepareVolumeForSnapshot, Volume_Destroy,
        AddVolume, RemoveVolume, VolumeGroup_Delete, VolumeGroup_Destroy,
        ToCSI, VolumeGroupSnapshot_Delete, VolumeGroupSnapshot_Destroy
    | match goal with
      | |- sound (match fst ?x with _ => _ end) => destruct x as [[?|] ?]
      | |- sound (match ?x with _ => _ end) => destruct x
      | |- sound (if ?x then _ else _) => destruct x
      end ].

Section Faithful.

Context {B : Backend}.

Implicit Types (s : frame B) (t : list (event B)) (w : World B).

Lemma sound_cleanup_volumes (vs : list (option (Volume B))) :
  sound (cleanup_volumes vs).
Proof.
  induction vs as [|v vs IH]; cbn [cleanup_volumes]; sound_tac.
Qed.

Lemma sound_cleanup : sound (B := B) cleanup.
Proof.
  unfold cleanup. pose proof sound_cleanup_volumes. sound_tac.
Qed.

Lemma sound_run_defers (ds : list (deferred B)) : sound (run_defers ds).
Proof.
  pose proof sound_cleanup.
  induction ds as [|d ds IH]; cbn [run_defers]; [sound_tac|].
  apply sound_bind; [|by intros ?].
  destruct d; cbn [run_deferred]; sound_tac.
Qed.

Lemma sound_returning {A} (body : M B A) :
  sound body -> sound (returning body).
Proof.
  intros Hbody. unfold returning.
  apply sound_bind; [done|intros r].
  intros s a s' t H. run_inv.
  match goal with
  | H : run_defers _ _ = _ |- _ => apply sound_run_defers in H
  end.
  done.
Qed.

Lemma sound_resolve_volumes {R} (mgr : Manager B) ids :
  forall i, sound (resolve_volumes (R := R) mgr i ids).
Proof.
  induction ids as [|id ids IH]; intros i; cbn [resolve_volumes];
    sound_tac.
Qed.

Lemma sound_prepare_volumes (creds : Credentials B) vs :
  forall errList, sound (prepare_volumes creds vs errList).
Proof.
  induction vs as [|[v|] vs IH]; intros errList; cbn [prepare_volumes];
    sound_tac.
Qed.

Lemma sound_add_volumes {R} (g : VolumeGroup B) vs :
  sound (add_volumes (R := R) g vs).
Proof.
  induction vs as [|[v|] vs IH]; cbn [add_volumes]; sound_tac.
Qed.

Lemma sound_CreateVolumeGroupSnapshot req :
  sound (B := B) (CreateVolumeGroupSnapshot req).
Proof.
  apply sound_returning. unfold CreateVolumeGroupSnapshot_body.
  pose proof (sound_resolve_volumes
                (R := CreateVolumeGroupSnapshotResponse B)).
  pose proof sound_prepare_volumes.
  pose proof (sound_add_volumes
                (R := CreateVolumeGroupSnapshotResponse B)).
  sound_tac.
Qed.

Lemma sound_DeleteVolumeGroupSnapshot req :
  sound (B := B) (DeleteVolumeGroupSnapshot req).
Proof.
  apply sound_returning. unfold DeleteVolumeGroupSnapshot_body.
  sound_tac.
Qed.

Lemma sound_GetVolumeGroupSnapshot req :
  sound (B := B) (GetVolumeGroupSnapshot req).
Proof.
  apply sound_returning. unfold GetVolumeGroupSnapshot_body.
  sound_tac.
Qed.

(** A run of [CreateVolumeGroupSnapshot] from a world: its shape, and
    the worlds it went through. *)
Lemma run_Create_inv req w r w' t :
  run (CreateVolumeGroupSnapshot req) w = (r, w', t) ->
  create_path req r t /\ steps w t w'.
Proof.
  unfold run.
  destruct (CreateVolumeGroupSnapshot req (enter w)) as [[r0 s0] t0] eqn:H.
  intros [= <- <- <-]. split.
  - by eapply create_paths.
  - by apply sound_CreateVolumeGroupSnapshot in H.
Qed.

(** ** Properties of all events of a trace *)

Lemma Forall_resolved (P : event B -> Prop) mgr ids vols :
  (forall id vol, P (EvGetVolumeByID mgr id (inl vol))) ->
  Forall P (resolved mgr ids vols).
Proof.
  intros HP. unfold resolved. revert vols.
  induction ids as [|id ids IH]; intros [|vol vols]; cbn; auto.
Qed.

Lemma Forall_prepared (P : event B -> Prop) creds vols rs :
  (forall vol r, P (EvPrepareVolumeForSnapshot vol creds r)) ->
  Forall P (prepared creds vols rs).
Proof.
  intros HP. unfold prepared. revert rs.
  induction vols as [|vol vols IH]; intros [|r rs]; cbn; auto.
Qed.

Lemma Forall_added (P : event B -> Prop) g vols :
  (forall vol, P (EvAddVolume g vol None)) -> Forall P (added g vols).
Proof.
  intros HP. unfold added. induction vols; cbn; auto.
Qed.

Lemma Forall_destroyed (P : event B -> Prop) vols :
  (forall vol, P (EvVolumeDestroy vol)) -> Forall P (destroyed vols).
Proof.
  intros HP. unfold destroyed. induction vols; cbn; auto.
Qed.

Lemma Forall_removed (P : event B -> Prop) g vols rs :
  (forall vol r, P (EvRemoveVolume g (Some vol) r)) ->
  (forall vol, P (EvVolumeDestroy vol)) ->
  Forall P (removed g vols rs).
Proof.
  intros HP HQ. unfold removed. revert rs.
  induction vols as [|vol vols IH]; intros [|r rs]; cbn; auto.
Qed.

End Faithful.

(** Proves [Forall P t] for a trace [t] made of the segments above,
    when [P] holds of each kind of event by computation. *)
Ltac trace_all :=
  unfold before_add, before_prepare, before_lookup, release, teardown,
    closing;
  repeat first
    [ apply Forall_nil_2
    | apply Forall_cons_2
    | apply Forall_app_2
    | apply Forall_resolved; intros ? ?
    | apply Forall_prepared; intros ? ?
    | apply Forall_added; intros ?
    | apply Forall_destroyed; intros ?
    | apply Forall_removed; [intros ? ?|intros ?] ];
  cbn; try done; try (intros; congruence);
  try (intros; simplify_eq; by auto).

Section Readers.

Context {B : Backend}.

Implicit Types (s : frame B) (t : list (event B)) (w : World B).

(** ** Reading the segments *)

Lemma omap_none {A C} (f : A -> option C) (l : list A) :
  Forall (fun x => f x = None) l -> omap f l = [].
Proof.
  induction 1 as [|x l Hx _ IH]; [done|]. cbn. by rewrite Hx, IH.
Qed.

Lemma volumes_added_added g (vols : list (Volume B)) :
  omap (fun ev : event B => match ev with
                            | EvAddVolume _ vol None => Some vol
                            | _ => None
                            end) (added g vols) = vols.
Proof.
  unfold added.
  induction vols as [|v vols IH]; [done|]. cbn. by rewrite IH.
Qed.

Lemma volumes_removed_removed g (vols : list (Volume B)) rs :
  length rs = length vols ->
  omap (fun ev : event B => match ev with
                            | EvRemoveVolume _ vol _ => Some vol
                            | _ => None
                            end) (removed g vols rs) = Some <$> vols.
Proof.
  unfold removed. revert rs.
  induction vols as [|v vols IH]; intros [|r rs] Hl; try done.
  cbn. rewrite IH; [done|]. cbn in Hl. lia.
Qed.

Lemma prepare_failures_prepared creds (vols : list (Volume B)) rs :
  length rs = length vols ->
  omap (fun ev : event B => match ev with
                            | EvPrepareVolumeForSnapshot _ _ (Some e) =>
                                Some e
                            | _ => None
                            end) (prepared creds vols rs) = omap id rs.
Proof.
  unfold prepared. revert rs.
  induction vols as [|v vols IH]; intros [|r rs] Hl; try done.
  cbn in Hl. destruct r; cbn; rewrite IH; (done || lia).
Qed.

Lemma volumes_resolved_resolved mgr ids (vols : list (Volume B)) :
  length vols = length ids ->
  omap (fun ev : event B => match ev with
                            | EvGetVolumeByID _ _ (inl vol) => Some vol
                            | _ => None
                            end) (resolved mgr ids vols) = vols.
Proof.
  unfold resolved. revert vols.
  induction ids as [|i ids IH]; intros [|v vols] Hl; try done.
  cbn. rewrite IH; [done|]. cbn in Hl. lia.
Qed.

Lemma volumes_prepared_prepared creds (vols : list (Volume B)) rs :
  length rs = length vols ->
  omap (fun ev : event B => match ev with
                            | EvPrepareVolumeForSnapshot vol _ _ => Some vol
                            | _ => None
                            end) (prepared creds vols rs) = vols.
Proof.
  unfold prepared. revert rs.
  induction vols as [|v vols IH]; intros [|r rs] Hl; try done.
  cbn. rewrite IH; [done|]. cbn in Hl. lia.
Qed.

End Readers.

(** Computes what the readers see of a trace made of segments. *)
Ltac read_trace :=
  unfold groups_created, volumes_added, volumes_removed, groups_deleted,
    snapshots_taken, prepare_failures, lock_calls, volumes_resolved,
    volumes_prepared;
  unfold before_add, before_prepare, before_lookup, release, teardown,
    closing;
  repeat (rewrite ?omap_app; cbn [omap list_omap app]);
  rewrite ?volumes_added_added;
  rewrite ?volumes_removed_removed by (assumption || lia);
  rewrite ?prepare_failures_prepared
    by (assumption || lia || apply length_replicate);
  rewrite ?volumes_resolved_resolved by (assumption || lia);
  rewrite ?volumes_prepared_prepared
    by (assumption || lia || apply length_replicate);
  rewrite ?omap_id_None;
  rewrite ?(omap_none _ (resolved _ _ _)) by trace_all;
  rewrite ?(omap_none _ (prepared _ _ _)) by trace_all;
  rewrite ?(omap_none _ (added _ _)) by trace_all;
  rewrite ?(omap_none _ (destroyed _)) by trace_all;
  rewrite ?(omap_none _ (removed _ _ _)) by trace_all;
  cbn [app]; rewrite ?app_nil_r.

Ltac read_trace_in H :=
  unfold groups_created, volumes_added, volumes_removed, groups_deleted,
    snapshots_taken, prepare_failures, lock_calls, volumes_resolved,
    volumes_prepared in H;
  unfold before_add, before_prepare, before_lookup, release, teardown,
    closing in H;
  repeat (rewrite ?omap_app in H; cbn [omap list_omap app] in H);
  rewrite ?volumes_added_added in H;
  rewrite ?volumes_removed_removed in H by (assumption || lia);
  rewrite ?prepare_failures_prepared in H
    by (assumption || lia || apply length_replicate);
  rewrite ?volumes_resolved_resolved in H by (assumption || lia);
  rewrite ?volumes_prepared_prepared in H
    by (assumption || lia || apply length_replicate);
  rewrite ?omap_id_None in H;
  rewrite ?(omap_none _ (resolved _ _ _)) in H by trace_all;
  rewrite ?(omap_none _ (prepared _ _ _)) in H by trace_all;
  rewrite ?(omap_none _ (added _ _)) in H by trace_all;
  rewrite ?(omap_none _ (destroyed _)) in H by trace_all;
  rewrite ?(omap_none _ (removed _ _ _)) in H by trace_all;
  cbn [app] in H; rewrite ?app_nil_r in H.

(** Two traces that differ in bracketing only. *)
Ltac trace_eq :=
  unfold before_add, before_prepare, before_lookup, release, teardown,
    closing;
  repeat (rewrite <- ?app_assoc; cbn [app]);
  reflexivity.

(** The event of [H : ev ∈ t] is none of the events of [t]. *)
Ltac absurd_in H :=
  match type of H with
  | ?ev ∈ ?t =>
      let Hall := fresh in
      assert (Hall : Forall (fun e => e <> ev) t) by trace_all;
      rewrite Forall_forall in Hall;
      exact (False_ind _ (Hall _ H eq_refl))
  end.

(** [H : ev ∈ t] forces [Q], as every event of [t] that is [ev] does. *)
Tactic Notation "in_trace" hyp(H) "gives" constr(Q) "as" ident(HQ) :=
  match type of H with
  | ?ev ∈ ?t =>
      let Hall := fresh in
      assert (Hall : Forall (fun e => e = ev -> Q) t) by trace_all;
      rewrite Forall_forall in Hall;
      pose proof (Hall _ H eq_refl) as HQ; clear Hall
  end.

(** Computes the last call of a trace made of segments. *)
Ltac trace_last :=
  unfold before_add, before_prepare, before_lookup, release, teardown,
    closing;
  repeat (rewrite last_cons || rewrite last_app);
  cbn [last].

Section Claims.

Context {B : Backend}.

Implicit Types (s : frame B) (t : list (event B)) (w : World B).

Lemma length_prepared creds (vols : list (Volume B)) rs :
  length rs = length vols ->
  length (prepared creds vols rs) = length vols.
Proof.
  intros Hl. unfold prepared. rewrite length_zip_with. lia.
Qed.

(** ** The claims about [CreateVolumeGroupSnapshot] *)

(** C5: when the name lock is already held, Create fails with Aborted
    and [TryAcquire] is the only call it makes; when the lock is
    acquired, whatever the result of the call is, the lock calls of the
    run are that [TryAcquire] and one [Release] of the same name, and
    the [Release] is the last call of the run. *)
Theorem Create_lock_discipline req w r w' t :
  run (CreateVolumeGroupSnapshot req) w = (r, w', t) ->
  if fst (h_TryAcquire B (Name req) w)
  then lock_calls t
       = [EvTryAcquire (Name req) true; EvRelease (Name req)]
       /\ last t = Some (EvRelease (Name req))
  else r = Status Aborted /\ t = [EvTryAcquire (Name req) false].
Proof.
  intros Hrun. apply run_Create_inv in Hrun as [Hpath Hsteps].
  destruct Hpath; cbn in Hsteps; destruct Hsteps as (w1 & Hacq & _);
    cbn in Hacq; rewrite Hacq; cbn [fst]; try done.
  all: split; [by read_trace|by trace_last].
Qed.

(** C4: when one of the source volume IDs does not resolve, Create
    fails with InvalidArgument; no call of the run changes the cluster
    (no group is created, nothing is added, prepared, removed or
    snapshotted), and after the failed [GetVolumeByID] the run only
    gives handles and the lock back. *)
Theorem Create_unresolved_volume req w r w' t mgr id err :
  run (CreateVolumeGroupSnapshot req) w = (r, w', t) ->
  EvGetVolumeByID mgr id (inr err) ∈ t ->
  r = Status InvalidArgument /\
  Forall (fun ev => mutates ev = false) t /\
  groups_created t = [] /\
  exists t1 t2,
    t = t1 ++ EvGetVolumeByID mgr id (inr err) :: t2 /\
    Forall (fun ev => releases ev = true) t2.
Proof.
  intros Hrun Hin. apply run_Create_inv in Hrun as [Hpath _].
  destruct Hpath; try absurd_in Hin.
  in_trace Hin gives (mgr = mgr0 /\ id = id0 /\ err = err0) as Heq.
  destruct Heq as (-> & -> & ->).
  split; [done|]. split; [trace_all|]. split; [by read_trace|].
  eexists ([_; _] ++ resolved mgr0 ids1 vols), (release req mgr0 vols).
  split; [trace_eq|trace_all].
Qed.

(** C8: when one or more volumes fail [PrepareVolumeForSnapshot], Create
    returns the status code of the first failure; every resolved volume
    was prepared all the same, and [CreateVolumeGroup] is never
    called. *)
Theorem Create_prepare_failure req w r w' t e es :
  run (CreateVolumeGroupSnapshot req) w = (r, w', t) ->
  prepare_failures t = e :: es ->
  r = Status (status_Code B e) /\
  volumes_prepared t = volumes_resolved t /\
  length (volumes_resolved t) = length (SourceVolumeIds req) /\
  Forall (fun ev => creates_group ev = false) t.
Proof.
  intros Hrun Hfail. apply run_Create_inv in Hrun as [Hpath _].
  destruct Hpath; read_trace_in Hfail; try discriminate.
  assert (e0 = e) as -> by congruence.
  split; [done|]. split; [by read_trace|].
  split; [by read_trace|trace_all].
Qed.

(** C6: whenever [CreateVolumeGroup] returned a group, it is the group
    named after the request with the suffix -vg, it is the only group
    the run creates, and [Delete] is called on it later in the same
    run, whatever the result of the run is. *)
Theorem Create_group_deleted req w r w' t mgr name g :
  run (CreateVolumeGroupSnapshot req) w = (r, w', t) ->
  EvCreateVolumeGroup mgr name (inl g) ∈ t ->
  name = (Name req +:+ "-vg")%string /\
  groups_created t = [g] /\
  groups_deleted t = [g] /\
  exists t1 t2 rd t3,
    t = t1 ++ EvCreateVolumeGroup mgr name (inl g)
           :: t2 ++ EvVolumeGroupDelete g rd :: t3.
Proof.
  intros Hrun Hin. apply run_Create_inv in Hrun as [Hpath _].
  destruct Hpath; try absurd_in Hin.
  all: in_trace Hin gives
         (mgr = mgr0 /\ name = (Name req +:+ "-vg")%string /\ g = g0)
         as Heq;
       destruct Heq as (-> & -> & ->).
  all: split; [done|]; split; [by read_trace|]; split; [by read_trace|].
  - exists (before_prepare req mgr0 (vols1 ++ vol :: vols2) err creds
            ++ prepared creds (vols1 ++ vol :: vols2)
                 (replicate (length (vols1 ++ vol :: vols2)) None)),
           (added g0 vols1 ++ [EvAddVolume g0 vol (Some e)]
            ++ [EvDeleteCredentials creds]
            ++ removed g0 (vols1 ++ vol :: vols2) rs),
           rd, ([EvVolumeGroupDestroy g0] ++ closing req mgr0).
    subst vols. trace_eq.
  - exists (before_prepare req mgr0 vols err creds
            ++ prepared creds vols (replicate (length vols) None)),
           (added g0 vols
            ++ [EvCreateVolumeGroupSnapshot mgr0 g0 (Name req) (inr e)]
            ++ [EvDeleteCredentials creds] ++ removed g0 vols rs),
           rd, ([EvVolumeGroupDestroy g0] ++ closing req mgr0).
    trace_eq.
  - exists (before_prepare req mgr0 vols err creds
            ++ prepared creds vols (replicate (length vols) None)),
           (added g0 vols
            ++ [EvCreateVolumeGroupSnapshot mgr0 g0 (Name req) (inl gs);
                EvToCSI gs conv; EvVolumeGroupSnapshotDestroy gs]
            ++ [EvDeleteCredentials creds] ++ removed g0 vols rs),
           rd, ([EvVolumeGroupDestroy g0] ++ closing req mgr0).
    trace_eq.
Qed.

(** C2, as the code has it: when [AddVolume] fails for a volume, Create
    returns Aborted and never asks for the group snapshot; the volumes
    added before are exactly those that precede the failing one in the
    request; after the failure [RemoveVolume] is called on every
    resolved volume of the request, in request order, and then the
    group is deleted, all within the run. *)
Theorem Create_add_failure req w r w' t g vol e :
  run (CreateVolumeGroupSnapshot req) w = (r, w', t) ->
  EvAddVolume g vol (Some e) ∈ t ->
  r = Status Aborted /\
  Forall (fun ev => takes_snapshot ev = false) t /\
  (exists vols2, volumes_resolved t = volumes_added t ++ vol :: vols2) /\
  length (volumes_resolved t) = length (SourceVolumeIds req) /\
  groups_deleted t = [g] /\
  exists t1 t2 rd t3,
    t = t1 ++ EvAddVolume g vol (Some e)
           :: t2 ++ EvVolumeGroupDelete g rd :: t3 /\
    volumes_removed t1 = [] /\
    volumes_removed t2 = Some <$> volumes_resolved t /\
    volumes_removed t3 = [].
Proof.
  intros Hrun Hin. apply run_Create_inv in Hrun as [Hpath _].
  destruct Hpath; try absurd_in Hin.
  in_trace Hin gives (g = g0 /\ vol = vol0 /\ e = e0) as Heq.
  destruct Heq as (-> & -> & ->). subst vols.
  split; [done|]. split; [trace_all|].
  split; [exists vols2; by read_trace|].
  split; [by read_trace|]. split; [by read_trace|].
  exists (before_add req mgr (vols1 ++ vol0 :: vols2) err creds g0
          ++ added g0 vols1),
         ([EvDeleteCredentials creds]
          ++ removed g0 (vols1 ++ vol0 :: vols2) rs),
         rd, ([EvVolumeGroupDestroy g0] ++ closing req mgr).
  split; [trace_eq|]. split; [by read_trace|].
  split; by read_trace.
Qed.

(** C3, as the code has it: when the lookup by name returns no
    snapshot, its error, whatever it is, decides nothing: the next call
    builds the credentials; if that fails the result is Internal, and
    otherwise every resolved volume of the request is prepared. *)
Theorem Create_lookup_error_only_logged req w r w' t mgr err :
  run (CreateVolumeGroupSnapshot req) w = (r, w', t) ->
  EvGetVolumeGroupSnapshotByName mgr (Name req) (None, err) ∈ t ->
  exists t1 c t2,
    t = t1 ++ EvGetVolumeGroupSnapshotByName mgr (Name req) (None, err)
           :: EvNewUserCredentials (Secrets req) c :: t2 /\
    match c with
    | inr _ => r = Status Internal
    | inl _ =>
        volumes_prepared t2 = volumes_resolved t1 /\
        length (volumes_resolved t1) = length (SourceVolumeIds req)
    end.
Proof.
  intros Hrun Hin. apply run_Create_inv in Hrun as [Hpath _].
  destruct Hpath; try absurd_in Hin.
  all: in_trace Hin gives (mgr = mgr0 /\ err = err0) as Heq;
       destruct Heq as (-> & ->).
  - exists (before_lookup req mgr0 vols), (inr e), (release req mgr0 vols).
    split; [trace_eq|done].
  - exists (before_lookup req mgr0 vols), (inl creds),
           (prepared creds vols rs
            ++ [EvDeleteCredentials creds] ++ release req mgr0 vols).
    split; [trace_eq|]. split; by read_trace.
  - exists (before_lookup req mgr0 vols), (inl creds),
           (prepared creds vols (replicate (length vols) None)
            ++ [EvCreateVolumeGroup mgr0 (Name req +:+ "-vg")%string
                  (inr e);
                EvDeleteCredentials creds]
            ++ release req mgr0 vols).
    split; [trace_eq|]. split; by read_trace.
  - exists (before_lookup req mgr0 vols), (inl creds),
           (prepared creds vols (replicate (length vols) None)
            ++ [EvCreateVolumeGroup mgr0 (Name req +:+ "-vg")%string
                  (inl g)]
            ++ added g vols1 ++ [EvAddVolume g vol (Some e)]
            ++ teardown req mgr0 creds g vols rs rd).
    split; [trace_eq|]. split; by read_trace.
  - exists (before_lookup req mgr0 vols), (inl creds),
           (prepared creds vols (replicate (length vols) None)
            ++ [EvCreateVolumeGroup mgr0 (Name req +:+ "-vg")%string
                  (inl g)]
            ++ added g vols
            ++ [EvCreateVolumeGroupSnapshot mgr0 g (Name req) (inr e)]
            ++ teardown req mgr0 creds g vols rs rd).
    split; [trace_eq|]. split; by read_trace.
  - exists (before_lookup req mgr0 vols), (inl creds),
           (prepared creds vols (replicate (length vols) None)
            ++ [EvCreateVolumeGroup mgr0 (Name req +:+ "-vg")%string
                  (inl g)]
            ++ added g vols
            ++ [EvCreateVolumeGroupSnapshot mgr0 g (Name req) (inl gs);
                EvToCSI gs conv; EvVolumeGroupSnapshotDestroy gs]
            ++ teardown req mgr0 creds g vols rs rd).
    split; [trace_eq|]. split; by read_trace.
Qed.

(** The orchestrator's part of C1: when the lookup by name returns a
    snapshot, the result is that snapshot converted (Aborted when the
    conversion fails) and no call of the run changes the cluster. *)
Lemma Create_existing_snapshot req w r w' t mgr gs err :
  run (CreateVolumeGroupSnapshot req) w = (r, w', t) ->
  EvGetVolumeGroupSnapshotByName mgr (Name req) (Some gs, err) ∈ t ->
  (exists conv, EvToCSI gs conv ∈ t /\ r = converted conv) /\
  Forall (fun ev => mutates ev = false) t.
Proof.
  intros Hrun Hin. apply run_Create_inv in Hrun as [Hpath _].
  destruct Hpath; try absurd_in Hin.
  in_trace Hin gives (gs = gs0) as Heq. subst gs0.
  split; [|trace_all]. exists conv. split; [|done].
  unfold before_lookup, release, closing.
  rewrite !elem_of_app, !elem_of_cons. tauto.
Qed.

(** ** [DeleteVolumeGroupSnapshot] and [GetVolumeGroupSnapshot] *)

Lemma run_Delete_inv req w r w' t :
  run (DeleteVolumeGroupSnapshot req) w = (r, w', t) ->
  steps w t w' /\
  let id := del_GroupSnapshotId req in
  (r = Status Aborted /\ t = [EvTryAcquire id false]) \/
  (exists mgr err,
      r = (if errors_Is err group_ErrRBDGroupNotFound
           then Response mkDeleteResponse else Status Internal) /\
      t = [EvTryAcquire id true; EvNewManager None (del_Secrets req) mgr;
           EvGetVolumeGroupSnapshotByID mgr id (inr err);
           EvManagerDestroy mgr; EvRelease id]) \/
  (exists mgr gs rd,
      r = match rd with
          | Some _ => Status Internal
          | None => Response mkDeleteResponse
          end /\
      t = [EvTryAcquire id true; EvNewManager None (del_Secrets req) mgr;
           EvGetVolumeGroupSnapshotByID mgr id (inl gs);
           EvVolumeGroupSnapshotDelete gs rd;
           EvVolumeGroupSnapshotDestroy gs;
           EvManagerDestroy mgr; EvRelease id]).
Proof.
  unfold run.
  destruct (DeleteVolumeGroupSnapshot req (enter w)) as [[r0 s0] t0] eqn:H.
  intros [= <- <- <-]. split.
  { by apply sound_DeleteVolumeGroupSnapshot in H. }
  unfold DeleteVolumeGroupSnapshot, returning in H. run_inv.
  unfold DeleteVolumeGroupSnapshot_body in *. run_inv. run_case.
  2:{ cbn [run_defers] in *. run_inv. by left. }
  run_case.
  - run_case; cbn [run_defers run_deferred] in *; run_inv;
      right; right; do 3 eexists; (split; [|reflexivity]); reflexivity.
  - destruct (errors_Is e group_ErrRBDGroupNotFound) eqn:His; run_inv;
      cbn [run_defers run_deferred] in *; run_inv;
      right; left; do 2 eexists; by rewrite His.
Qed.

Lemma run_Get_inv req w r w' t :
  run (GetVolumeGroupSnapshot req) w = (r, w', t) ->
  steps w t w' /\
  let id := get_GroupSnapshotId req in
  (r = Status Aborted /\ t = [EvTryAcquire id false]) \/
  (exists mgr err,
      r = (if errors_Is err group_ErrRBDGroupNotFound
           then Status NotFound else Status Internal) /\
      t = [EvTryAcquire id true; EvNewManager None (get_Secrets req) mgr;
           EvGetVolumeGroupSnapshotByID mgr id (inr err);
           EvManagerDestroy mgr; EvRelease id]) \/
  (exists mgr gs conv,
      r = match conv with
          | inl csiVGS => Response (mkGetResponse csiVGS)
          | inr _ => Status Aborted
          end /\
      t = [EvTryAcquire id true; EvNewManager None (get_Secrets req) mgr;
           EvGetVolumeGroupSnapshotByID mgr id (inl gs);
           EvToCSI gs conv;
           EvVolumeGroupSnapshotDestroy gs;
           EvManagerDestroy mgr; EvRelease id]).
Proof.
  unfold run.
  destruct (GetVolumeGroupSnapshot req (enter w)) as [[r0 s0] t0] eqn:H.
  intros [= <- <- <-]. split.
  { by apply sound_GetVolumeGroupSnapshot in H. }
  unfold GetVolumeGroupSnapshot, returning in H. run_inv.
  unfold GetVolumeGroupSnapshot_body in *. run_inv. run_case.
  2:{ cbn [run_defers] in *. run_inv. by left. }
  run_case.
  - run_case; cbn [run_defers run_deferred] in *; run_inv;
      right; right; do 3 eexists; (split; [|reflexivity]); reflexivity.
  - destruct (errors_Is e group_ErrRBDGroupNotFound) eqn:His; run_inv;
      cbn [run_defers run_deferred] in *; run_inv;
      right; left; do 2 eexists; by rewrite His.
Qed.

(** C7: when the lookup by ID fails with an error that is or wraps the
    not-found error of the group package, Delete returns its empty
    response and no error, without deleting anything, and Get fails
    with NotFound; when the lookup fails with any other error, both
    fail with Internal. *)
Theorem Delete_Get_lookup_failure dreq greq w1 w2 rd wd td rg wg tg :
  run (DeleteVolumeGroupSnapshot dreq) w1 = (rd, wd, td) ->
  run (GetVolumeGroupSnapshot greq) w2 = (rg, wg, tg) ->
  (forall mgr err,
      EvGetVolumeGroupSnapshotByID mgr (del_GroupSnapshotId dreq) (inr err)
        ∈ td ->
      rd = (if errors_Is err group_ErrRBDGroupNotFound
            then Response mkDeleteResponse else Status Internal) /\
      Forall (fun ev => mutates ev = false) td) /\
  (forall mgr err,
      EvGetVolumeGroupSnapshotByID mgr (get_GroupSnapshotId greq) (inr err)
        ∈ tg ->
      rg = (if errors_Is err group_ErrRBDGroupNotFound
            then Status NotFound else Status Internal) /\
      Forall (fun ev => mutates ev = false) tg).
Proof.
  intros Hd Hg.
  apply run_Delete_inv in Hd as [_ Hd]. apply run_Get_inv in Hg as [_ Hg].
  split; intros mgr err Hin.
  - destruct Hd as [(_ & ->)|[(mgr0 & err0 & -> & ->)|(mgr0 & gs & r0 & _ & ->)]];
      try absurd_in Hin.
    in_trace Hin gives (err = err0) as Heq. subst err0.
    split; [done|trace_all].
  - destruct Hg as [(_ & ->)|[(mgr0 & err0 & -> & ->)|(mgr0 & gs & r0 & _ & ->)]];
      try absurd_in Hin.
    in_trace Hin gives (err = err0) as Heq. subst err0.
    split; [done|trace_all].
Qed.

End Claims.

End GroupSnapshotFacts.

(* ===================================================================== *)
(** * The RPCs on the storage cluster of the specification *)
(* ===================================================================== *)

Module SimFacts.

Import GoErrors GroupSnapshot Sim GroupSnapshotFacts.

Implicit Types (w : cluster) (t : list (event backend)).

(** What a call leaves alone. *)
Lemma sim_step_frame w ev w' :
  step (B := backend) w ev w' ->
  images w' = images w /\
  lookup_fault w' = lookup_fault w /\
  (changes_snapshots ev = false -> snapshots w' = snapshots w) /\
  (is_lock_event ev = false -> held w' = held w).
Proof.
  destruct ev; cbn;
    unfold sim_TryAcquire, sim_Release, sim_GetVolumeByID,
      sim_GetVolumeGroupSnapshotByName, sim_GetVolumeGroupSnapshotByID,
      sim_CreateVolumeGroup, sim_CreateVolumeGroupSnapshot,
      sim_PrepareVolumeForSnapshot, sim_AddVolume, sim_RemoveVolume,
      sim_VolumeGroup_Delete, sim_ToCSI, sim_VolumeGroupSnapshot_Delete;
    intros H; repeat case_match; simplify_eq; done.
Qed.

Lemma sim_steps_frame t : forall w w',
  steps (B := backend) w t w' ->
  images w' = images w /\
  lookup_fault w' = lookup_fault w /\
  (Forall (fun ev => changes_snapshots ev = false) t ->
   snapshots w' = snapshots w) /\
  (Forall (fun ev => is_lock_event ev = false) t -> held w' = held w).
Proof.
  induction t as [|ev t IH]; cbn; intros w w'.
  - by intros ->.
  - intros (w1 & Hstep & Hsteps).
    apply sim_step_frame in Hstep as (Hi & Hf & Hs & Hh).
    apply IH in Hsteps as (Hi' & Hf' & Hs' & Hh').
    split; [congruence|]. split; [congruence|].
    split; intros [? ?]%Forall_cons; [rewrite Hs'|rewrite Hh']; auto.
Qed.

Lemma sim_ToCSI_pure gs w w' : fst (sim_ToCSI gs w) = fst (sim_ToCSI gs w').
Proof. done. Qed.

Lemma sim_resolved_steps (mgr : Manager backend) ids :
  forall (vols : list (Volume backend)) w w',
  length vols = length ids ->
  steps (B := backend) w (resolved mgr ids vols) w' ->
  w' = w /\ Forall (fun id => id ∈ images w) ids.
Proof.
  induction ids as [|id ids IH]; intros [|vol vols] w w' Hl; try done.
  unfold resolved. cbn. intros (w1 & Hstep & Hsteps).
  unfold sim_GetVolumeByID in Hstep. case_decide; simplify_eq.
  apply IH in Hsteps as (-> & Hall); [|by simplify_eq/=].
  split; [done|]. by constructor.
Qed.

(** The world in which the lookup by name is made. *)
Lemma sim_before_lookup req (mgr : Manager backend)
    (vols : list (Volume backend)) ev t' w w' :
  length vols = length (SourceVolumeIds req) ->
  steps (B := backend) w (before_lookup req mgr vols ++ ev :: t') w' ->
  Forall (fun id => id ∈ images w) (SourceVolumeIds req) /\
  exists w1 w2,
    lookup_fault w1 = lookup_fault w /\
    snapshots w1 = snapshots w /\
    step (B := backend) w1 ev w2 /\
    steps (B := backend) w2 t' w'.
Proof.
  intros Hl Hsteps. apply steps_app_inv in Hsteps as (w1 & Hpre & Hrest).
  cbn in Hrest. destruct Hrest as (w2 & Hstep & Hrest).
  pose proof (sim_steps_frame _ _ _ Hpre) as (_ & Hf & Hs & _).
  split.
  - unfold before_lookup in Hpre.
    apply steps_app_inv in Hpre as (wb & Hopen & Hres).
    apply sim_resolved_steps in Hres as (_ & Hall); [|done].
    apply sim_steps_frame in Hopen as (Hi & _). by rewrite Hi in Hall.
  - exists w1, w2. split; [done|]. split; [|done].
    apply Hs. trace_all.
Qed.

Lemma sim_released t name w w' :
  last t = Some (EvRelease name) ->
  steps (B := backend) w t w' ->
  name ∉ held w'.
Proof.
  intros (t0 & ->)%last_Some Hsteps.
  apply steps_app_inv in Hsteps as (w1 & _ & Hrel).
  cbn in Hrel. destruct Hrel as (w2 & Hrel & ->). subst w2. cbn.
  rewrite elem_of_difference, elem_of_singleton. tauto.
Qed.

(** On this cluster, a Create for a name whose snapshot is stored, with a
    free lock and known volumes, returns that snapshot converted and changes
    nothing. *)
Lemma sim_Create_found name ids w gs r w' t :
  name ∉ held w ->
  Forall (fun id => id ∈ images w) ids ->
  lookup_fault w = None ->
  snapshots w !! name = Some gs ->
  Create name ids w = (r, w', t) ->
  r = converted (B := backend) (fst (sim_ToCSI gs w)) /\
  Forall (fun ev => mutates ev = false) t.
Proof.
  intros Hfree Hids Hfault Hsnap Hrun. unfold Create in Hrun.
  apply (run_Create_inv (B := backend)) in Hrun as [Hpath Hsteps].
  destruct Hpath; cbn [Name SourceVolumeIds create_req] in *.
  - (* the lock is free *)
    cbn in Hsteps. destruct Hsteps as (w1 & Hacq & _).
    unfold sim_TryAcquire in Hacq. by case_decide.
  - (* every volume is known *)
    exfalso. apply steps_app_inv in Hsteps as (wb & Hopen & Hres).
    apply steps_app_inv in Hres as (wc & Hres & Hfail).
    apply sim_resolved_steps in Hres as (-> & _); [|done].
    cbn in Hfail. destruct Hfail as (wd & Hfail & _).
    apply sim_steps_frame in Hopen as (Hi & _).
    unfold sim_GetVolumeByID in Hfail. case_decide as Hid; simplify_eq.
    apply Hid. rewrite Hi.
    apply Forall_app in Hids as [_ Hids]. by apply Forall_cons in Hids as [? _].
  - (* the lookup finds the stored snapshot *)
    split; [|trace_all].
    apply sim_before_lookup in Hsteps as (_ & w1 & w2 & Hf & Hs & Hlook & Hrest);
      [|done].
    cbn in Hlook. unfold sim_GetVolumeGroupSnapshotByName in Hlook.
    rewrite Hf, Hfault, Hs, Hsnap in Hlook. simplify_eq.
    cbn in Hrest. destruct Hrest as (w3 & Hconv & _).
    by rewrite (sim_ToCSI_pure _ w w2), Hconv.
  - exfalso. apply sim_before_lookup in Hsteps
      as (_ & w1 & w2 & Hf & Hs & Hlook & _); [|done].
    cbn in Hlook. unfold sim_GetVolumeGroupSnapshotByName in Hlook.
    by rewrite Hf, Hfault, Hs, Hsnap in Hlook.
  - exfalso. unfold before_prepare in Hsteps.
    rewrite <- app_assoc in Hsteps. cbn [app] in Hsteps.
    apply sim_before_lookup in Hsteps
      as (_ & w1 & w2 & Hf & Hs & Hlook & _); [|done].
    cbn in Hlook. unfold sim_GetVolumeGroupSnapshotByName in Hlook.
    by rewrite Hf, Hfault, Hs, Hsnap in Hlook.
  - exfalso. unfold before_prepare in Hsteps.
    rewrite <- app_assoc in Hsteps. cbn [app] in Hsteps.
    apply sim_before_lookup in Hsteps
      as (_ & w1 & w2 & Hf & Hs & Hlook & _); [|done].
    cbn in Hlook. unfold sim_GetVolumeGroupSnapshotByName in Hlook.
    by rewrite Hf, Hfault, Hs, Hsnap in Hlook.
  - exfalso. unfold before_add, before_prepare in Hsteps.
    rewrite <- !app_assoc in Hsteps. cbn [app] in Hsteps.
    apply sim_before_lookup in Hsteps
      as (_ & w1 & w2 & Hf & Hs & Hlook & _); [|done].
    cbn in Hlook. unfold sim_GetVolumeGroupSnapshotByName in Hlook.
    by rewrite Hf, Hfault, Hs, Hsnap in Hlook.
  - exfalso. unfold before_add, before_prepare in Hsteps.
    rewrite <- !app_assoc in Hsteps. cbn [app] in Hsteps.
    apply sim_before_lookup in Hsteps
      as (_ & w1 & w2 & Hf & Hs & Hlook & _); [|done].
    cbn in Hlook. unfold sim_GetVolumeGroupSnapshotByName in Hlook.
    by rewrite Hf, Hfault, Hs, Hsnap in Hlook.
  - exfalso. unfold before_add, before_prepare in Hsteps.
    rewrite <- !app_assoc in Hsteps. cbn [app] in Hsteps.
    apply sim_before_lookup in Hsteps
      as (_ & w1 & w2 & Hf & Hs & Hlook & _); [|done].
    cbn in Hlook. unfold sim_GetVolumeGroupSnapshotByName in Hlook.
    by rewrite Hf, Hfault, Hs, Hsnap in Hlook.
Qed.

(** What a successful Create leaves behind on this cluster: the lock is
    free again, the volumes of the request are known, lookups still work
    and the snapshot it returned is stored under the name. *)
Lemma sim_Create_success name ids w resp w1 t1 :
  lookup_fault w = None ->
  Create name ids w = (Response resp, w1, t1) ->
  (name ∉ held w1) /\
  Forall (fun id => id ∈ images w1) ids /\
  lookup_fault w1 = None /\
  exists gs,
    snapshots w1 !! name = Some gs /\
    converted (B := backend) (fst (sim_ToCSI gs w1)) = Response resp.
Proof.
  intros Hfault Hrun. unfold Create in Hrun.
  apply (run_Create_inv (B := backend)) in Hrun as [Hpath Hsteps].
  pose proof (sim_steps_frame _ _ _ Hsteps) as (Hi & Hf & Hs & _).
  remember (Response resp) as r eqn:Hr.
  destruct Hpath; cbn [Name SourceVolumeIds create_req] in *;
    try discriminate.
  - (* the snapshot was there already *)
    split. { eapply sim_released; [|exact Hsteps]. by trace_last. }
    rewrite Hi, Hf.
    apply sim_before_lookup in Hsteps as (Hids & wa & wb & Hfa & Hsa & Hlook & Hrest);
      [|done].
    split; [done|]. split; [done|].
    cbn in Hlook. unfold sim_GetVolumeGroupSnapshotByName in Hlook.
    rewrite Hfa, Hfault, Hsa in Hlook.
    destruct (snapshots w !! name) as [gs'|] eqn:Hsnap; simplify_eq.
    eexists. rewrite Hs by trace_all. split; [exact Hsnap|].
    cbn in Hrest. destruct Hrest as (wc & Hconv & _).
    by rewrite (sim_ToCSI_pure _ w1 wb), Hconv.
  - (* the snapshot was taken by this call *)
    split. { eapply sim_released; [|exact Hsteps]. by trace_last. }
    rewrite Hi, Hf. clear Hs.
    unfold before_add, before_prepare in Hsteps.
    rewrite <- !app_assoc in Hsteps. cbn [app] in Hsteps.
    apply sim_before_lookup in Hsteps as (Hids & wa & wb & _ & _ & _ & Hrest);
      [|done].
    split; [done|]. split; [done|].
    cbn [steps] in Hrest. destruct Hrest as (wc & _ & Hrest).
    apply steps_app_inv in Hrest as (wd & _ & Hrest).
    cbn [steps] in Hrest. destruct Hrest as (we & _ & Hrest).
    apply steps_app_inv in Hrest as (wf & _ & Hrest).
    cbn [steps] in Hrest. destruct Hrest as (wg & Htake & Hsuffix).
    pose proof (sim_steps_frame
                  (EvToCSI gs conv :: EvVolumeGroupSnapshotDestroy gs
                   :: teardown (create_req name ids) mgr creds g vols rs rd)
                  wg w1 Hsuffix) as (_ & _ & Hss & _).
    rewrite Hss by trace_all.
    destruct Hsuffix as (wh & Hconv & _).
    cbn in Htake, Hconv. unfold sim_CreateVolumeGroupSnapshot in Htake.
    repeat case_match; simplify_eq. cbn [snapshots set_snapshots].
    eexists. split; [apply lookup_insert_eq|].
    unfold sim_ToCSI in Hconv |- *. by simplify_eq.
Qed.

(** C1: (1) for every backend, when the lookup by name returns a snapshot,
    Create returns that snapshot converted to its external form (Aborted
    when the conversion itself fails) and no call of the run changes the
    cluster: no group is created, no volume is added, prepared or removed,
    no snapshot is taken; (2) on the storage cluster of the specification,
    with working lookups, a second identical Create after a successful one
    returns the same response and changes nothing. *)
Theorem Create_idempotent :
  (forall (B : Backend) req (w w' : World B) r (t : list (event B))
          mgr gs err,
      run (CreateVolumeGroupSnapshot req) w = (r, w', t) ->
      EvGetVolumeGroupSnapshotByName mgr (Name req) (Some gs, err) ∈ t ->
      (exists conv, EvToCSI gs conv ∈ t /\ r = converted conv) /\
      Forall (fun ev => mutates ev = false) t) /\
  (forall name ids w resp w1 t1,
      lookup_fault w = None ->
      Create name ids w = (Response resp, w1, t1) ->
      exists w2 t2,
        Create name ids w1 = (Response resp, w2, t2) /\
        Forall (fun ev => mutates ev = false) t2).
Proof.
  split.
  - intros B req w r w' t mgr gs err. apply Create_existing_snapshot.
  - intros name ids w resp w1 t1 Hfault Hrun.
    apply sim_Create_success in Hrun
      as (Hfree & Hids & Hfault1 & gs & Hsnap & Hconv); [|done].
    destruct (Create name ids w1) as [[r2 w2] t2] eqn:Hrun2.
    exists w2, t2.
    eapply sim_Create_found in Hrun2 as (-> & Hall); [|done..].
    split; [|done]. by rewrite Hconv.
Qed.

(** ** The claims at concrete requests *)

Local Open Scope string_scope.

(** Puts the result and the trace of the run of [Hrun] in place of the
    variables that stand for them. *)
Ltac eval_run Hrun :=
  match type of Hrun with
  | ?x = (?r, ?w', ?t) =>
      let vt := eval vm_compute in (snd x) in
      let vr := eval vm_compute in (fst (fst x)) in
      let Et := fresh in let Er := fresh in
      assert (Et : t = vt)
        by (change (snd (r, w', t) = vt); rewrite <- Hrun; reflexivity);
      assert (Er : r = vr)
        by (change (fst (fst (r, w', t)) = vr); rewrite <- Hrun; reflexivity);
      subst r t
  end.

Lemma Create_lock_discipline_witness :
  (let '(r, _, t) := Create "vgs1" ["v1"; "v2"; "v3"] cluster_busy in
   r = Status Aborted /\ t = [EvTryAcquire "vgs1" false]) /\
  (let '(r, _, t) := Create "vgs1" ["v1"; "v2"; "v3"] cluster0 in
   lock_calls t = [EvTryAcquire "vgs1" true; EvRelease "vgs1"] /\
   last t = Some (EvRelease "vgs1")).
Proof.
  split; unfold Create.
  - destruct (run (B := backend) _ cluster_busy) as [[r w'] t] eqn:Hrun.
    exact (Create_lock_discipline _ _ r w' t Hrun).
  - destruct (run (B := backend) _ cluster0) as [[r w'] t] eqn:Hrun.
    exact (Create_lock_discipline _ _ r w' t Hrun).
Defined.

Lemma Create_unresolved_volume_witness :
  let '(r, _, t) := Create "vgs2" ["v1"; "vX"] cluster0 in
  EvGetVolumeByID (B := backend) () "vX" (inr (New ErrImageNotFound)) ∈ t /\
  r = Status InvalidArgument /\
  Forall (fun ev => mutates ev = false) t /\
  groups_created t = [] /\
  exists t1 t2,
    t = (t1 ++ EvGetVolumeByID (B := backend) () "vX"
                 (inr (New ErrImageNotFound)) :: t2)%list /\
    Forall (fun ev => releases ev = true) t2.
Proof.
  unfold Create.
  destruct (run (B := backend) _ cluster0) as [[r w'] t] eqn:Hrun.
  assert (Hin : EvGetVolumeByID (B := backend) () "vX"
                  (inr (New ErrImageNotFound)) ∈ t)
    by (eval_run Hrun; repeat constructor).
  exact (conj Hin (Create_unresolved_volume _ _ r w' t _ _ _ Hrun Hin)).
Defined.

Lemma Create_prepare_failure_witness :
  let '(r, _, t) := Create "vgs1" ["v1"; "v2"; "v3"] cluster_unquiesced in
  prepare_failures t = [New (ErrForeign 8); New (ErrForeign 12)] /\
  r = Status FailedPrecondition /\
  volumes_prepared t = volumes_resolved t /\
  length (volumes_resolved t) = 3 /\
  Forall (fun ev => creates_group ev = false) t.
Proof.
  unfold Create.
  destruct (run (B := backend) _ cluster_unquiesced) as [[r w'] t] eqn:Hrun.
  assert (Hfail : prepare_failures t
                  = [New (ErrForeign 8); New (ErrForeign 12)])
    by (eval_run Hrun; reflexivity).
  exact (conj Hfail (Create_prepare_failure _ _ r w' t _ _ Hrun Hfail)).
Defined.

Lemma Create_group_deleted_witness :
  let '(r, _, t) := Create "vgs1" ["v1"; "v2"; "v3"] cluster0 in
  EvCreateVolumeGroup (B := backend) () "vgs1-vg" (inl "vgs1-vg") ∈ t /\
  "vgs1-vg" = "vgs1" +:+ "-vg" /\
  groups_created t = ["vgs1-vg"] /\
  groups_deleted t = ["vgs1-vg"] /\
  exists t1 t2 rd t3,
    t = (t1 ++ EvCreateVolumeGroup (B := backend) () "vgs1-vg" (inl "vgs1-vg")
            :: t2 ++ EvVolumeGroupDelete (B := backend) "vgs1-vg" rd :: t3)%list.
Proof.
  unfold Create.
  destruct (run (B := backend) _ cluster0) as [[r w'] t] eqn:Hrun.
  assert (Hin : EvCreateVolumeGroup (B := backend) () "vgs1-vg"
                  (inl "vgs1-vg") ∈ t)
    by (eval_run Hrun; repeat constructor).
  exact (conj Hin (Create_group_deleted _ _ r w' t _ _ _ Hrun Hin)).
Defined.

Lemma Create_add_failure_witness :
  let '(r, _, t) := Create "vgs3" ["v1"; "v2"; "v3"] cluster_grouped in
  EvAddVolume (B := backend) "vgs3-vg" "v2" (Some (New ErrObjectExists)) ∈ t /\
  r = Status Aborted /\
  Forall (fun ev => takes_snapshot ev = false) t /\
  (exists vols2, volumes_resolved t = (volumes_added t ++ "v2" :: vols2)%list) /\
  length (volumes_resolved t) = 3 /\
  groups_deleted t = ["vgs3-vg"] /\
  exists t1 t2 rd t3,
    t = (t1 ++ EvAddVolume (B := backend) "vgs3-vg" "v2"
                 (Some (New ErrObjectExists))
            :: t2 ++ EvVolumeGroupDelete (B := backend) "vgs3-vg" rd :: t3)%list /\
    volumes_removed t1 = [] /\
    volumes_removed t2 = Some <$> volumes_resolved t /\
    volumes_removed t3 = [].
Proof.
  unfold Create.
  destruct (run (B := backend) _ cluster_grouped) as [[r w'] t] eqn:Hrun.
  assert (Hin : EvAddVolume (B := backend) "vgs3-vg" "v2"
                  (Some (New ErrObjectExists)) ∈ t)
    by (eval_run Hrun; repeat constructor).
  exact (conj Hin (Create_add_failure _ _ r w' t _ _ _ Hrun Hin)).
Defined.

(** C2 as the specification states it fails here: adding the second of
    three volumes fails, only v1 had been added, and yet [RemoveVolume] is
    called on all three volumes, not on v1 alone. *)
Lemma Create_add_failure_removes_all :
  let '(r, _, t) := Create "vgs3" ["v1"; "v2"; "v3"] cluster_grouped in
  EvAddVolume (B := backend) "vgs3-vg" "v2" (Some (New ErrObjectExists)) ∈ t /\
  volumes_added t = ["v1"] /\
  volumes_removed t = [Some "v1"; Some "v2"; Some "v3"] /\
  volumes_removed t <> Some <$> volumes_added t.
Proof.
  unfold Create.
  destruct (run (B := backend) _ cluster_grouped) as [[r w'] t] eqn:Hrun.
  eval_run Hrun. split; [repeat constructor|].
  split; [reflexivity|]. split; [reflexivity|].
  intros Heq. vm_compute in Heq. discriminate.
Qed.

Lemma Create_lookup_error_only_logged_witness :
  let '(r, _, t) := Create "vgs1" ["v1"; "v2"; "v3"] cluster_unreachable in
  EvGetVolumeGroupSnapshotByName (B := backend) () "vgs1"
    (None, Some (New (ErrForeign 13))) ∈ t /\
  exists t1 c t2,
    t = (t1 ++ EvGetVolumeGroupSnapshotByName (B := backend) () "vgs1"
                 (None, Some (New (ErrForeign 13)))
            :: EvNewUserCredentials ∅ c :: t2)%list /\
    match c with
    | inr _ => r = Status Internal
    | inl _ =>
        volumes_prepared t2 = volumes_resolved t1 /\
        length (volumes_resolved t1) = 3
    end.
Proof.
  unfold Create.
  destruct (run (B := backend) _ cluster_unreachable) as [[r w'] t] eqn:Hrun.
  assert (Hin : EvGetVolumeGroupSnapshotByName (B := backend) () "vgs1"
                  (None, Some (New (ErrForeign 13))) ∈ t)
    by (eval_run Hrun; repeat constructor).
  exact (conj Hin
           (Create_lookup_error_only_logged _ _ r w' t _ _ Hrun Hin)).
Defined.

(** C3 as the specification states it fails here: the lookup by name fails
    with an error that is not the not-found error, and the call does not
    return Internal: it prepares the three volumes, creates the group,
    takes the snapshot and returns it. *)
Lemma Create_lookup_error_not_Internal :
  let '(r, _, t) := Create "vgs1" ["v1"; "v2"; "v3"] cluster_unreachable in
  EvGetVolumeGroupSnapshotByName (B := backend) () "vgs1"
    (None, Some (New (ErrForeign 13))) ∈ t /\
  errors_Is (New (ErrForeign 13)) group_ErrRBDGroupNotFound = false /\
  r <> Status Internal /\
  (exists resp, r = Response resp) /\
  volumes_prepared t = ["v1"; "v2"; "v3"] /\
  groups_created t = ["vgs1-vg"] /\
  length (snapshots_taken t) = 1.
Proof.
  unfold Create.
  destruct (run (B := backend) _ cluster_unreachable) as [[r w'] t] eqn:Hrun.
  eval_run Hrun. split; [repeat constructor|].
  split; [reflexivity|]. split; [discriminate|].
  split; [by eexists|]. split; [reflexivity|]. split; reflexivity.
Qed.

Lemma Delete_Get_lookup_failure_witness :
  (let '(rd, _, td) := Delete "id-vgs9" cluster0 in
   let '(rg, _, tg) := Get "id-vgs9" cluster0 in
   let err := Wrap "group snapshot" (New group_ErrRBDGroupNotFound) in
   EvGetVolumeGroupSnapshotByID (B := backend) () "id-vgs9" (inr err) ∈ td /\
   EvGetVolumeGroupSnapshotByID (B := backend) () "id-vgs9" (inr err) ∈ tg /\
   rd = Response mkDeleteResponse /\ rg = Status NotFound) /\
  (let '(rd, _, td) := Delete "id-vgs9" cluster_unreachable in
   let '(rg, _, tg) := Get "id-vgs9" cluster_unreachable in
   let err := New (ErrForeign 13) in
   EvGetVolumeGroupSnapshotByID (B := backend) () "id-vgs9" (inr err) ∈ td /\
   EvGetVolumeGroupSnapshotByID (B := backend) () "id-vgs9" (inr err) ∈ tg /\
   rd = Status Internal /\ rg = Status Internal).
Proof.
  split; unfold Delete, Get.
  - destruct (run (B := backend) (DeleteVolumeGroupSnapshot _) cluster0)
      as [[rd wd] td] eqn:Hd.
    destruct (run (B := backend) (GetVolumeGroupSnapshot _) cluster0)
      as [[rg wg] tg] eqn:Hg.
    pose proof (Delete_Get_lookup_failure _ _ _ _ rd wd td rg wg tg Hd Hg)
      as [Td Tg].
    assert (Hind : EvGetVolumeGroupSnapshotByID (B := backend) () "id-vgs9"
                     (inr (Wrap "group snapshot"
                             (New group_ErrRBDGroupNotFound))) ∈ td)
      by (eval_run Hd; repeat constructor).
    assert (Hing : EvGetVolumeGroupSnapshotByID (B := backend) () "id-vgs9"
                     (inr (Wrap "group snapshot"
                             (New group_ErrRBDGroupNotFound))) ∈ tg)
      by (eval_run Hg; repeat constructor).
    exact (conj Hind (conj Hing (conj (proj1 (Td _ _ Hind))
                                      (proj1 (Tg _ _ Hing))))).
  - destruct (run (B := backend) (DeleteVolumeGroupSnapshot _)
                cluster_unreachable) as [[rd wd] td] eqn:Hd.
    destruct (run (B := backend) (GetVolumeGroupSnapshot _)
                cluster_unreachable) as [[rg wg] tg] eqn:Hg.
    pose proof (Delete_Get_lookup_failure _ _ _ _ rd wd td rg wg tg Hd Hg)
      as [Td Tg].
    assert (Hind : EvGetVolumeGroupSnapshotByID (B := backend) () "id-vgs9"
                     (inr (New (ErrForeign 13))) ∈ td)
      by (eval_run Hd; repeat constructor).
    assert (Hing : EvGetVolumeGroupSnapshotByID (B := backend) () "id-vgs9"
                     (inr (New (ErrForeign 13))) ∈ tg)
      by (eval_run Hg; repeat constructor).
    exact (conj Hind (conj Hing (conj (proj1 (Td _ _ Hind))
                                      (proj1 (Tg _ _ Hing))))).
Defined.

Lemma Create_idempotent_witness :
  let ids := ["v1"; "v2"; "v3"] in
  let '(r1, w1, _) := Create "vgs1" ids cluster0 in
  let '(r2, _, t2) := Create "vgs1" ids w1 in
  (exists resp, r1 = Response resp /\ r2 = Response resp) /\
  Forall (fun ev => mutates ev = false) t2.
Proof.
  cbv zeta.
  destruct (Create "vgs1" ["v1"; "v2"; "v3"] cluster0) as [[r1 w1] t1] eqn:Hrun.
  assert (Hok : exists resp, r1 = Response resp)
    by (unfold Create in Hrun; eval_run Hrun; by eexists).
  destruct Hok as [resp ->].
  destruct (proj2 Create_idempotent "vgs1" ["v1"; "v2"; "v3"] cluster0
              resp w1 t1 eq_refl Hrun) as (w2 & t2 & -> & Hall).
  split; [exists resp; split; reflexivity|exact Hall].
Defined.

End SimFacts.

(* ===================================================================== *)
(** * Facts about [strconv] *)
(* ===================================================================== *)

Module StrconvFacts.

Import Qos.

Local Open Scope string_scope.
Local Open Scope Z_scope.

(** ** [strconv.FormatInt] and [strconv.ParseInt] *)

Lemma parse_digits_acc (d : Decimal.uint) (acc : positive) :
  parse_digits (NilEmpty.string_of_uint d) (Z.pos acc)
  = Some (Z.pos (Pos.of_uint_acc d acc)).
Proof.
  revert acc. induction d; intros acc; cbn [NilEmpty.string_of_uint];
    [done|..]; cbn [parse_digits Pos.of_uint_acc];
    match goal with
    | |- context [digit_of ?c] =>
        let v := eval vm_compute in (digit_of c) in
        change (digit_of c) with v
    end;
    rewrite <- IHd; f_equal; lia.
Qed.

Lemma parse_digits_0 (d : Decimal.uint) :
  parse_digits (NilEmpty.string_of_uint d) 0
  = Some (Z.of_N (Pos.of_uint d)).
Proof.
  induction d; cbn [NilEmpty.string_of_uint]; [done|..];
    cbn [parse_digits Pos.of_uint];
    match goal with
    | |- context [digit_of ?c] =>
        let v := eval vm_compute in (digit_of c) in
        change (digit_of c) with v
    end;
    cbn [Z.mul Z.add]; try apply IHd; apply parse_digits_acc.
Qed.

Lemma string_of_uint_nonempty (d : Decimal.uint) :
  d <> Decimal.Nil -> NilEmpty.string_of_uint d <> "".
Proof. by destruct d. Qed.

Lemma string_of_uint_unsigned (d : Decimal.uint) c s :
  NilEmpty.string_of_uint d = String c s ->
  Ascii.eqb c "+" || Ascii.eqb c "-" = false.
Proof. destruct d; cbn; intros [= <- _]; done. Qed.

Lemma ParseUint_to_uint (p : positive) :
  ParseUint (NilZero.string_of_uint (Pos.to_uint p)) = Some (Z.pos p).
Proof.
  pose proof (DecimalPos.Unsigned.to_uint_nonnil p) as Hnil.
  pose proof (parse_digits_0 (Pos.to_uint p)) as Hp.
  rewrite DecimalPos.Unsigned.of_to in Hp.
  unfold NilZero.string_of_uint.
  destruct (Pos.to_uint p) eqn:E; try done; unfold ParseUint;
    by rewrite <- Hp.
Qed.

(** What [FormatInt] writes, [ParseInt] reads back. *)
Lemma ParseInt_FormatInt (z : Z) :
  int64_range z -> ParseInt (FormatInt z) = Some z.
Proof.
  unfold int64_range, minInt64, maxInt64, FormatInt. intros Hz.
  destruct z as [|p|p]; cbn [Z.to_int NilZero.string_of_int].
  - done.
  - pose proof (ParseUint_to_uint p) as Hp.
    pose proof (DecimalPos.Unsigned.to_uint_nonnil p) as Hnil.
    unfold NilZero.string_of_uint in *.
    destruct (Pos.to_uint p) eqn:E; try done.
    all: unfold ParseInt;
      match goal with
      | |- context [NilEmpty.string_of_uint ?d] =>
          destruct (NilEmpty.string_of_uint d) as [|c s] eqn:Es;
          [done|]
      end;
      rewrite (string_of_uint_unsigned _ _ _ Es);
      assert (Hneg : Ascii.eqb c "-" = false)
        by (apply string_of_uint_unsigned in Es;
            by apply orb_false_iff in Es as [_ ?]);
      rewrite Hneg, Hp;
      destruct (Z.pos p >=? 2 ^ 63) eqn:Hge; [lia|done].
  - pose proof (ParseUint_to_uint p) as Hp.
    unfold ParseInt. cbn [Ascii.eqb]. cbn -[ParseUint Z.pow Z.gtb].
    rewrite Hp.
    destruct (Z.pos p >? 2 ^ 63) eqn:Hgt; [lia|done].
Qed.

Lemma parse_digits_nonneg (s : string) (acc z : Z) :
  0 <= acc -> parse_digits s acc = Some z -> 0 <= z.
Proof.
  revert acc. induction s as [|c s IH]; intros acc Hacc; cbn.
  - intros [= <-]. done.
  - unfold digit_of.
    destruct (_ && _) eqn:Hd; [|done].
    apply andb_true_iff in Hd as [H1 H2]. apply IH. lia.
Qed.

(** What [ParseInt] returns fits [int64]. *)
Lemma ParseInt_range (s : string) (z : Z) :
  ParseInt s = Some z -> int64_range z.
Proof.
  unfold ParseInt, int64_range, minInt64, maxInt64.
  destruct s as [|c s]; [done|].
  destruct (ParseUint _) as [un|] eqn:Hun; [|done].
  assert (0 <= un).
  { unfold ParseUint in Hun.
    destruct (if Ascii.eqb c "+" || Ascii.eqb c "-" then s else String c s);
      [done|].
    by eapply parse_digits_nonneg in Hun. }
  destruct (Ascii.eqb c "-").
  - destruct (un >? 2 ^ 63) eqn:E; intros [= <-]; lia.
  - destruct (un >=? 2 ^ 63) eqn:E; intros [= <-]; lia.
Qed.

End StrconvFacts.

(* ===================================================================== *)
(** * Facts about the QoS parameters *)
(* ===================================================================== *)

Module QosParamFacts.

Import Qos QosReading QosFacts StrconvFacts.

Local Open Scope string_scope.

(** ** [parseQosParams] *)

Lemma parseQosParams_step_lookup sc acc k v k' :
  parseQosParams_step sc acc (k, v) !! k' =
  if decide (k' = k) then
    match acc !! k with
    | Some qos =>
        if nonempty v
        then Some (mkQosSpec (baseLimitType qos) v (perGiBLimitType qos)
                     (match sc !! perGiBLimitType qos with
                      | Some p => if nonempty p then p else perGiBLimit qos
                      | None => perGiBLimit qos
                      end) true)
        else Some qos
    | None => None
    end
  else acc !! k'.
Proof.
  unfold parseQosParams_step.
  destruct (decide (k' = k)) as [->|Hne].
  - destruct (acc !! k) as [qos|] eqn:Hk; [|done].
    destruct (nonempty v); [|done]. by rewrite lookup_insert_eq.
  - destruct (acc !! k) as [qos|] eqn:Hk; [|done].
    destruct (nonempty v); [|done]. by rewrite lookup_insert_ne.
Qed.

(** The loop of [parseQosParams] over any list of parameters with
    distinct keys: what it leaves under a key depends on the value of
    that key alone, not on the order of the list. *)
Lemma parseQosParams_fold_lookup sc (l : list (string * string)) acc k' :
  NoDup l.*1 ->
  fold_left (parseQosParams_step sc) l acc !! k' =
  match acc !! k', (list_to_map l : gmap string string) !! k' with
  | Some qos, Some v =>
      if nonempty v
      then Some (mkQosSpec (baseLimitType qos) v (perGiBLimitType qos)
                   (match sc !! perGiBLimitType qos with
                    | Some p => if nonempty p then p else perGiBLimit qos
                    | None => perGiBLimit qos
                    end) true)
      else Some qos
  | Some qos, None => Some qos
  | None, _ => None
  end.
Proof.
  revert acc. induction l as [|[k v] l IH]; intros acc Hnd.
  - cbn. rewrite lookup_empty. by destruct (acc !! k').
  - apply NoDup_cons in Hnd as [Hk Hnd]. cbn [fold_left list_to_map foldr].
    rewrite IH by done. rewrite parseQosParams_step_lookup.
    cbn [fst snd uncurry].
    destruct (decide (k' = k)) as [->|Hne].
    + rewrite lookup_insert_eq.
      assert (Hnone : (list_to_map l : gmap string string) !! k = None)
        by by apply not_elem_of_list_to_map_1.
      rewrite Hnone. destruct (acc !! k); [|done]. by destruct (nonempty v).
    + by rewrite lookup_insert_ne.
Qed.

Lemma parseQosParams_eq (scParams : gmap string string) :
  parseQosParams scParams =
  list_to_map
    [ (baseReadIops,
        parsed scParams baseReadIops readIopsLimit readIopsPerGiB);
      (baseWriteIops,
        parsed scParams baseWriteIops writeIopsLimit writeIopsPerGiB);
      (baseReadBytesPerSecond,
        parsed scParams baseReadBytesPerSecond readBpsLimit readBpsPerGiB);
      (baseWriteBytesPerSecond,
        parsed scParams baseWriteBytesPerSecond writeBpsLimit
               writeBpsPerGiB) ].
Proof.
  apply map_eq. intros k. unfold parseQosParams.
  rewrite parseQosParams_fold_lookup by apply NoDup_fst_map_to_list.
  rewrite list_to_map_to_list.
  unfold rbdQosParameters0. cbn [list_to_map foldr uncurry fst snd].
  unfold parsed, param.
  repeat match goal with
         | |- context [<[?k0 := _]> _ !! k] =>
             destruct (decide (k = k0)) as [->|?];
             [ rewrite !lookup_insert_eq
             | rewrite !(lookup_insert_ne _ k0 k) by done ]
         end.
  all: rewrite ?lookup_empty; try done.
  all: cbn [baseLimitType perGiBLimitType perGiBLimit].
  all: match goal with
       | |- context [default _ (?m !! ?b)] =>
           destruct (m !! b) as [v|]; cbn [default from_option id nonempty]; [|done]
       end.
  all: destruct (nonempty v); [|done].
  all: match goal with
       | |- context [default _ (?m !! ?b)] =>
           destruct (m !! b) as [p|]; cbn [default from_option id]; [|done]
       end.
  all: by destruct p.
Qed.

(** ** [calcQosBasedOnCapacity] *)

Lemma qos_param_insert rv m k v k' :
  qos_param (with_QosParameters rv (<[k := v]> m)) k' =
  if decide (k' = k) then Some v else m !! k'.
Proof.
  unfold qos_param. cbn. destruct (decide (k' = k)) as [->|Hne].
  - by rewrite lookup_insert_eq.
  - by rewrite lookup_insert_ne.
Qed.

Lemma qos_param_default rv k :
  qos_param (with_QosParameters rv (default ∅ (QosParameters rv))) k =
  qos_param rv k.
Proof. unfold qos_param. by destruct (QosParameters rv). Qed.

Lemma default_lookup rv k :
  default ∅ (QosParameters rv) !! k = qos_param rv k.
Proof. unfold qos_param. by destruct (QosParameters rv). Qed.

Lemma calc_frame (rv : rbdVolume) (qos : qosSpec) :
  let rv' := (calcQosBasedOnCapacity rv qos).1 in
  let err := (calcQosBasedOnCapacity rv qos).2 in
  RequestedVolSize rv' = RequestedVolSize rv /\
  BaseVolSize rv' = BaseVolSize rv /\
  QosParameters rv' <> None /\
  (forall k, k <> baseLimitType qos -> qos_param rv' k = qos_param rv k) /\
  (err <> None \/ baseLimit qos = "" ->
   forall k, qos_param rv' k = qos_param rv k).
Proof.
  cbv zeta. unfold calcQosBasedOnCapacity.
  repeat case_match; cbn [fst snd RequestedVolSize BaseVolSize
                          QosParameters with_QosParameters];
    (split; [done|]); (split; [done|]); (split; [done|]); split.
  all: try (intros k Hk; rewrite ?qos_param_insert, ?qos_param_default;
            try case_decide; try done; by apply default_lookup).
  all: intros [Herr|Hempty] k; try done;
       rewrite ?qos_param_default; try done.
  all: by destruct (baseLimit qos).
Qed.

Lemma calc_fails (rv : rbdVolume) (qos : qosSpec) :
  (calcQosBasedOnCapacity rv qos).2 <> None <->
  baseLimit qos <> "" /\
  (ParseInt (baseLimit qos) = None \/
   (perGiBLimit qos <> "" /\ BaseVolSize rv <> "" /\
    (ParseInt (perGiBLimit qos) = None \/
     ParseInt (BaseVolSize rv) = None))).
Proof.
  unfold calcQosBasedOnCapacity.
  cbn [BaseVolSize with_QosParameters].
  destruct (baseLimit qos) as [|c bl] eqn:Hbl; cbn [nonempty negb snd].
  { split; [done|]. by intros [? _]. }
  destruct (ParseInt (String c bl)) as [b|]; cbn [snd];
    [|split; [by auto|done]].
  destruct (perGiBLimit qos) as [|c1 pg] eqn:Hpg; cbn [nonempty andb snd].
  { split; [done|]. intros [_ [?|[? _]]]; done. }
  destruct (BaseVolSize rv) as [|c2 bv] eqn:Hbv; cbn [nonempty andb snd].
  { split; [done|]. intros [_ [?|(_ & ? & _)]]; done. }
  destruct (ParseInt (String c1 pg)) as [p|]; cbn [snd];
    [|split; [by auto 10|done]].
  destruct (ParseInt (String c2 bv)) as [v|]; cbn [snd];
    [|split; [by auto 10|done]].
  case_match; cbn [snd]; (split; [done|]);
    intros [_ [?|(_ & _ & [?|?])]]; done.
Qed.

(** The error of [calcQosBasedOnCapacity] and the value it stores under
    the key of the limit depend on the sizes of the volume and on the
    limit only, not on the parameters that are there already. *)
Lemma calc_fresh (rv : rbdVolume) (qos : qosSpec) :
  let rv0 := fresh (RequestedVolSize rv) (BaseVolSize rv) in
  (calcQosBasedOnCapacity rv qos).2 = (calcQosBasedOnCapacity rv0 qos).2 /\
  ((calcQosBasedOnCapacity rv qos).2 = None -> baseLimit qos <> "" ->
   qos_param (calcQosBasedOnCapacity rv qos).1 (baseLimitType qos)
   = qos_param (calcQosBasedOnCapacity rv0 qos).1 (baseLimitType qos)).
Proof.
  cbv zeta. unfold calcQosBasedOnCapacity, fresh.
  cbn [BaseVolSize RequestedVolSize QosParameters with_QosParameters].
  repeat case_match; cbn [fst snd]; (split; [done|]); intros He Hne;
    try done; rewrite ?qos_param_insert; try by case_decide.
  by destruct (baseLimit qos).
Qed.

(** ** [SetQOS] *)

(** The loop of [SetQOS] over limits with distinct keys, when it returns
    no error. *)
Lemma SetQOS_loop_ok (l : list qosSpec) (rv rv' : rbdVolume) :
  SetQOS_loop rv l = (rv', None) ->
  NoDup (baseLimitType <$> l) ->
  RequestedVolSize rv' = RequestedVolSize rv /\
  BaseVolSize rv' = BaseVolSize rv /\
  (forall qos, qos ∈ l -> present qos = true -> baseLimit qos <> "" ->
     qos_param rv' (baseLimitType qos)
     = qos_param (calcQosBasedOnCapacity
                    (fresh (RequestedVolSize rv) (BaseVolSize rv)) qos).1
                 (baseLimitType qos)) /\
  (forall k,
     (forall qos, qos ∈ l -> present qos = true -> baseLimitType qos <> k) ->
     qos_param rv' k = qos_param rv k).
Proof.
  revert rv. induction l as [|q l IH]; intros rv Hrun Hnd.
  { injection Hrun as <-. split_and!; try done. by intros qos ?%elem_of_nil. }
  apply NoDup_cons in Hnd as [Hq Hnd]. cbn [SetQOS_loop] in Hrun.
  destruct (present q) eqn:Hp.
  - destruct (calcQosBasedOnCapacity rv q) as [rv1 [e|]] eqn:Hcalc;
      [done|].
    pose proof (calc_frame rv q) as Hframe.
    pose proof (calc_fresh rv q) as Hfresh.
    cbv zeta in Hframe, Hfresh. rewrite Hcalc in Hframe, Hfresh.
    cbn [fst snd] in Hframe, Hfresh.
    destruct Hframe as (HR & HB & _ & Hother & _).
    destruct Hfresh as [_ Hval].
    destruct (IH rv1 Hrun Hnd) as (HR' & HB' & Hin & Hout).
    rewrite HR, HB in *.
    split; [done|]. split; [done|]. split.
    + intros qos [->|Hel]%elem_of_cons Hpres Hne.
      * rewrite Hout; [by apply Hval|].
        intros q' Hq' _ Heq. apply Hq. rewrite <- Heq.
        by apply list_elem_of_fmap_2.
      * by apply Hin.
    + intros k Hk. rewrite Hout.
      * apply Hother. intros ->. by apply (Hk q); [apply elem_of_cons; left|..].
      * intros q' Hq' Hp'. apply Hk; [apply elem_of_cons; by right|done].
  - destruct (IH rv Hrun Hnd) as (HR' & HB' & Hin & Hout).
    split; [done|]. split; [done|]. split.
    + intros qos [->|Hel]%elem_of_cons Hpres Hne; [congruence|].
      by apply Hin.
    + intros k Hk. apply Hout.
      intros q' Hq' Hp'. apply Hk; [apply elem_of_cons; by right|done].
Qed.

(** The limits that [SetQOS] ranges over: the four entries of
    [parseQosParams], in some order. *)
Lemma SetQOS_limits (scParams : gmap string string) :
  (map_to_list (parseQosParams scParams)).*2 ≡ₚ
  (fun '(base, limitType, perGiB) =>
     parsed scParams base limitType perGiB) <$> qos_rows.
Proof.
  rewrite parseQosParams_eq.
  rewrite map_to_list_to_map.
  - done.
  - apply (bool_decide_unpack _). by vm_compute.
Qed.

Lemma baseLimitType_parsed sc base limitType perGiB :
  baseLimitType (parsed sc base limitType perGiB) = limitType.
Proof. unfold parsed. by case_match. Qed.

Lemma present_parsed sc base limitType perGiB :
  present (parsed sc base limitType perGiB) = nonempty (param sc base).
Proof. unfold parsed. by case_match. Qed.

Lemma baseLimit_parsed sc base limitType perGiB :
  nonempty (param sc base) = true ->
  baseLimit (parsed sc base limitType perGiB) <> "".
Proof.
  unfold parsed. intros H. rewrite H. cbn. intros E. by rewrite E in H.
Qed.

Lemma SetQOS_start (rv : rbdVolume) (scParams : gmap string string) :
  let rv1 := match scParams !! baseVolSizeBytes with
             | Some v =>
                 if nonempty v
                 then with_BaseVolSize (with_BaseVolSize rv "") v
                 else with_BaseVolSize rv ""
             | None => with_BaseVolSize rv ""
             end in
  RequestedVolSize rv1 = RequestedVolSize rv /\
  BaseVolSize rv1 = param scParams baseVolSizeBytes /\
  (forall k, qos_param rv1 k = qos_param rv k).
Proof.
  cbv zeta. unfold param.
  destruct (scParams !! baseVolSizeBytes) as [[|c v]|]; done.
Qed.

(** [SetQOS], when it returns no error.  The base volume size of the
    volume is the one of the storage class, empty when that has none,
    whatever it was before.  Every base limit that the storage class
    gives a non-empty value has its image setting set to what one call of
    [calcQosBasedOnCapacity] stores for it on a volume without
    parameters; the order in which Go ranges over the limits does not
    show.  Every other parameter of the volume is as it was. *)
Theorem SetQOS_ok (rv rv' : rbdVolume) (scParams : gmap string string) :
  SetQOS rv scParams = (rv', None) ->
  RequestedVolSize rv' = RequestedVolSize rv /\
  BaseVolSize rv' = param scParams baseVolSizeBytes /\
  (forall base limitType perGiB,
     (base, limitType, perGiB) ∈ qos_rows ->
     qos_param rv' limitType =
     if nonempty (param scParams base)
     then qos_param
            (calcQosBasedOnCapacity
               (fresh (RequestedVolSize rv)
                      (param scParams baseVolSizeBytes))
               (parsed scParams base limitType perGiB)).1 limitType
     else qos_param rv limitType) /\
  (forall k, k ∉ (fun row => row.1.2) <$> qos_rows ->
     qos_param rv' k = qos_param rv k).
Proof.
  unfold SetQOS. intros Hrun.
  destruct (SetQOS_start rv scParams) as (HR1 & HB1 & HQ1).
  cbv zeta in HR1, HB1, HQ1.
  pose proof (SetQOS_limits scParams) as Hperm.
  apply SetQOS_loop_ok in Hrun as (HR & HB & Hin & Hout).
  2:{ rewrite Hperm. cbn [fmap list_fmap qos_rows].
      rewrite !baseLimitType_parsed.
      apply (bool_decide_unpack _). by vm_compute. }
  rewrite HR1 in *. rewrite HB1 in *.
  split; [done|]. split; [done|]. split.
  - intros base limitType perGiB Hrow.
    assert (Hel : parsed scParams base limitType perGiB
                  ∈ (map_to_list (parseQosParams scParams)).*2).
    { rewrite Hperm.
      by apply (list_elem_of_fmap_2
                  (fun '(base, limitType, perGiB) =>
                     parsed scParams base limitType perGiB)
                  _ (base, limitType, perGiB)). }
    destruct (nonempty (param scParams base)) eqn:Hne.
    + specialize (Hin _ Hel). rewrite baseLimitType_parsed in Hin.
      apply Hin; [by rewrite present_parsed|by apply baseLimit_parsed].
    + rewrite Hout; [done|]. intros qos Hqos Hpres.
      rewrite Hperm in Hqos.
      apply list_elem_of_fmap in Hqos as ([[b lt] pg] & -> & Hrow').
      rewrite present_parsed in Hpres. rewrite baseLimitType_parsed.
      intros ->.
      assert (b = base) as ->; [|congruence].
      unfold qos_rows in Hrow, Hrow'.
      repeat match goal with
             | H : _ ∈ _ :: _ |- _ => apply elem_of_cons in H as [H|H]
             | H : _ ∈ [] |- _ => by apply elem_of_nil in H
             end; by simplify_eq.
  - intros k Hk. rewrite Hout; [done|]. intros qos Hqos Hpres.
    rewrite Hperm in Hqos.
    apply list_elem_of_fmap in Hqos as ([[b lt] pg] & -> & Hrow').
    rewrite baseLimitType_parsed. intros ->. apply Hk.
    by apply (list_elem_of_fmap_2 (fun row => row.1.2) _ (b, k, pg)).
Qed.

(** The loop of [SetQOS] fails exactly when one of the limits it is to
    apply fails on its own. *)
Lemma SetQOS_loop_fails (l : list qosSpec) (rv : rbdVolume) :
  (SetQOS_loop rv l).2 <> None <->
  exists qos, qos ∈ l /\ present qos = true /\
    (calcQosBasedOnCapacity
       (fresh (RequestedVolSize rv) (BaseVolSize rv)) qos).2 <> None.
Proof.
  revert rv. induction l as [|q l IH]; intros rv; cbn [SetQOS_loop].
  { split; [done|]. by intros (qos & ?%elem_of_nil & _). }
  pose proof (calc_frame rv q) as Hframe.
  pose proof (calc_fresh rv q) as [Herr _].
  cbv zeta in Hframe, Herr.
  destruct Hframe as (HR & HB & _).
  destruct (present q) eqn:Hp.
  - destruct (calcQosBasedOnCapacity rv q) as [rv1 [e|]] eqn:Hcalc;
      cbn [fst snd] in *.
    + split; [|done]. intros _. exists q.
      split; [apply elem_of_cons; by left|]. split; [done|].
      by rewrite <- Herr.
    + rewrite IH, HR, HB. split.
      * intros (qos & Hel & Hq). exists qos.
        split; [apply elem_of_cons; by right|done].
      * intros (qos & [->|Hel]%elem_of_cons & Hpres & Hq).
        -- by rewrite <- Herr in Hq.
        -- by exists qos.
  - rewrite IH. split.
    + intros (qos & Hel & Hq). exists qos.
      split; [apply elem_of_cons; by right|done].
    + intros (qos & [->|Hel]%elem_of_cons & Hpres & Hq);
        [congruence|by exists qos].
Qed.

(** [SetQOS] returns an error exactly when the storage class gives some
    base limit a non-empty value that does not parse, or gives it a
    per-GiB limit together with a base volume size and one of the two
    does not parse.  Keys that are not in the table play no part, and
    neither does the order in which Go ranges over the limits. *)
Theorem SetQOS_fails (rv : rbdVolume) (scParams : gmap string string) :
  (SetQOS rv scParams).2 <> None <->
  exists base limitType perGiB,
    (base, limitType, perGiB) ∈ qos_rows /\
    param scParams base <> "" /\
    (ParseInt (param scParams base) = None \/
     (param scParams perGiB <> "" /\
      param scParams baseVolSizeBytes <> "" /\
      (ParseInt (param scParams perGiB) = None \/
       ParseInt (param scParams baseVolSizeBytes) = None))).
Proof.
  unfold SetQOS.
  destruct (SetQOS_start rv scParams) as (HR1 & HB1 & _).
  cbv zeta in HR1, HB1.
  rewrite SetQOS_loop_fails, HR1, HB1.
  pose proof (SetQOS_limits scParams) as Hperm.
  split.
  - intros (qos & Hel & Hpres & Hq). rewrite Hperm in Hel.
    apply list_elem_of_fmap in Hel as ([[b lt] pg] & -> & Hrow).
    exists b, lt, pg. split; [done|].
    rewrite present_parsed in Hpres.
    apply calc_fails in Hq as [_ Hq]. unfold parsed in Hq.
    rewrite Hpres in Hq. cbn in Hq.
    split; [by destruct (param scParams b)|done].
  - intros (b & lt & pg & Hrow & Hne & Hq).
    assert (Hpres : nonempty (param scParams b) = true)
      by by destruct (param scParams b).
    exists (parsed scParams b lt pg). split.
    { rewrite Hperm.
      by apply (list_elem_of_fmap_2
                  (fun '(base, limitType, perGiB) =>
                     parsed scParams base limitType perGiB)
                  _ (b, lt, pg)). }
    split; [by rewrite present_parsed|].
    apply calc_fails. unfold parsed. rewrite Hpres. by cbn.
Qed.

(** [parseQosParams] in closed form: the result has the four base limits
    as its keys, whatever the storage class holds, and the entry of each
    depends on its own two parameters only: it is marked present and
    filled when the base limit has a non-empty value, and then a per-GiB
    limit is taken over as it is given.  The order in which Go ranges
    over [scParams] does not show. *)
Theorem parseQosParams_closed_form (scParams : gmap string string) :
  parseQosParams scParams =
  list_to_map
    [ (baseReadIops,
        parsed scParams baseReadIops readIopsLimit readIopsPerGiB);
      (baseWriteIops,
        parsed scParams baseWriteIops writeIopsLimit writeIopsPerGiB);
      (baseReadBytesPerSecond,
        parsed scParams baseReadBytesPerSecond readBpsLimit readBpsPerGiB);
      (baseWriteBytesPerSecond,
        parsed scParams baseWriteBytesPerSecond writeBpsLimit
               writeBpsPerGiB) ].
Proof. apply parseQosParams_eq. Qed.

(** What [calcQosBasedOnCapacity] leaves alone: the sizes of the volume
    and every parameter but the one that the limit names; it never leaves
    the map of parameters nil; and when it returns an error, or the base
    limit is empty, no parameter has changed. *)
Theorem calcQosBasedOnCapacity_frame (rv : rbdVolume) (qos : qosSpec) :
  let rv' := (calcQosBasedOnCapacity rv qos).1 in
  let err := (calcQosBasedOnCapacity rv qos).2 in
  RequestedVolSize rv' = RequestedVolSize rv /\
  BaseVolSize rv' = BaseVolSize rv /\
  QosParameters rv' <> None /\
  (forall k, k <> baseLimitType qos -> qos_param rv' k = qos_param rv k) /\
  (err <> None \/ baseLimit qos = "" ->
   forall k, qos_param rv' k = qos_param rv k).
Proof. apply calc_frame. Qed.

(** When [calcQosBasedOnCapacity] fails: the base limit is not empty and
    does not parse, or a per-GiB limit and a base volume size are both
    given and one of them does not parse.  So a per-GiB limit that does
    not parse goes unnoticed as long as no base volume size is set. *)
Theorem calcQosBasedOnCapacity_fails (rv : rbdVolume) (qos : qosSpec) :
  (calcQosBasedOnCapacity rv qos).2 <> None <->
  baseLimit qos <> "" /\
  (ParseInt (baseLimit qos) = None \/
   (perGiBLimit qos <> "" /\ BaseVolSize rv <> "" /\
    (ParseInt (perGiBLimit qos) = None \/
     ParseInt (BaseVolSize rv) = None))).
Proof. apply calc_fails. Qed.

(** ** The limit as a number *)

Local Open Scope Z_scope.

Lemma calc_stored (rv : rbdVolume) (qos : qosSpec) (bl pg bvs : Z) :
  ParseInt (baseLimit qos) = Some bl ->
  ParseInt (perGiBLimit qos) = Some pg ->
  ParseInt (BaseVolSize rv) = Some bvs ->
  qos_param (calcQosBasedOnCapacity rv qos).1 (baseLimitType qos)
  = Some (if RequestedVolSize rv <=? bvs then baseLimit qos
          else FormatInt
                 (add64 bl
                    (mul64 (div64 (sub64 (RequestedVolSize rv) bvs) oneGB)
                           pg))).
Proof.
  intros Hbl Hpg Hbvs. unfold calcQosBasedOnCapacity.
  cbn [BaseVolSize RequestedVolSize with_QosParameters].
  rewrite (ParseInt_nonempty _ _ Hbl), Hbl. cbn [negb].
  rewrite (ParseInt_nonempty _ _ Hpg), (ParseInt_nonempty _ _ Hbvs).
  cbn [andb]. rewrite Hpg, Hbvs.
  destruct (RequestedVolSize rv <=? bvs); cbn [fst];
    rewrite qos_param_insert; by case_decide.
Qed.

(** With a per-GiB limit that is not negative, the limit that
    [calcQosBasedOnCapacity] sets never lies below the base limit and
    grows with the requested size, as long as the size difference and the
    limit of the larger volume fit [int64]. *)
Theorem calcQosBasedOnCapacity_grows
    (rv1 rv2 : rbdVolume) (qos : qosSpec) (bl pg bvs : Z) :
  ParseInt (baseLimit qos) = Some bl ->
  ParseInt (perGiBLimit qos) = Some pg ->
  BaseVolSize rv1 = BaseVolSize rv2 ->
  ParseInt (BaseVolSize rv2) = Some bvs ->
  0 <= pg ->
  RequestedVolSize rv1 <= RequestedVolSize rv2 ->
  int64_range (RequestedVolSize rv2 - bvs) ->
  int64_range (bl + (RequestedVolSize rv2 - bvs) / 2 ^ 30 * pg) ->
  exists z1 z2,
    qos_param (calcQosBasedOnCapacity rv1 qos).1 (baseLimitType qos)
      ≫= ParseInt = Some z1 /\
    qos_param (calcQosBasedOnCapacity rv2 qos).1 (baseLimitType qos)
      ≫= ParseInt = Some z2 /\
    bl <= z1 <= z2.
Proof.
  intros Hbl Hpg HB Hbvs Hpos HR Hsub Hfin.
  rewrite (calc_stored rv1 qos bl pg bvs) by (done || by rewrite HB).
  rewrite (calc_stored rv2 qos bl pg bvs) by done.
  cbn [mbind option_bind].
  pose proof (ParseInt_range _ _ Hbl) as Hblr.
  set (R1 := RequestedVolSize rv1) in *.
  set (R2 := RequestedVolSize rv2) in *.
  assert (Hq2 : 0 <= R2 - bvs -> 0 <= (R2 - bvs) / 2 ^ 30)
    by (intros; apply Z.div_pos; lia).
  assert (Hmono : bvs < R1 -> (R1 - bvs) / 2 ^ 30 <= (R2 - bvs) / 2 ^ 30)
    by (intros; apply Z.div_le_mono; lia).
  assert (Hq1 : bvs < R1 -> 0 <= (R1 - bvs) / 2 ^ 30)
    by (intros; apply Z.div_pos; lia).
  unfold int64_range, minInt64, maxInt64 in *.
  destruct (Z.leb_spec R1 bvs) as [H1|H1];
    destruct (Z.leb_spec R2 bvs) as [H2|H2]; try lia.
  - exists bl, bl. rewrite Hbl. split_and!; done || lia.
  - exists bl, (bl + (R2 - bvs) / 2 ^ 30 * pg).
    rewrite Hbl, finalQosLimit_exact, ParseInt_FormatInt by done.
    split_and!; try done. nia.
  - exists (bl + (R1 - bvs) / 2 ^ 30 * pg), (bl + (R2 - bvs) / 2 ^ 30 * pg).
    assert (Hle : (R1 - bvs) / 2 ^ 30 * pg <= (R2 - bvs) / 2 ^ 30 * pg)
      by (apply Z.mul_le_mono_nonneg_r; auto).
    assert (0 <= (R1 - bvs) / 2 ^ 30 * pg) by (apply Z.mul_nonneg_nonneg; auto).
    rewrite !finalQosLimit_exact, !ParseInt_FormatInt;
      unfold int64_range, minInt64, maxInt64; try lia.
    split_and!; done || lia.
Qed.

(** After a call of [calcQosBasedOnCapacity] that sets the parameter, the
    parameter reads as a decimal [int64] again: it is the base limit as
    given, which parsed, or what [FormatInt] wrote. *)
Theorem calcQosBasedOnCapacity_stores_int64
    (rv : rbdVolume) (qos : qosSpec) :
  (calcQosBasedOnCapacity rv qos).2 = None ->
  baseLimit qos <> "" ->
  exists z,
    qos_param (calcQosBasedOnCapacity rv qos).1 (baseLimitType qos)
      ≫= ParseInt = Some z /\
    int64_range z.
Proof.
  unfold calcQosBasedOnCapacity.
  cbn [BaseVolSize RequestedVolSize with_QosParameters].
  intros Herr Hne.
  destruct (baseLimit qos) as [|c s] eqn:Hb; [done|]. cbn [nonempty negb] in *.
  destruct (ParseInt (String c s)) as [bl|] eqn:Hbl; [|done].
  pose proof (ParseInt_range _ _ Hbl) as Hblr.
  repeat case_match; cbn [fst snd] in *; try done;
    rewrite qos_param_insert; case_decide; try done;
    cbn [mbind option_bind]; rewrite ?Hbl; eauto.
  eexists. split; [apply ParseInt_FormatInt|]; apply wrap64_range.
Qed.

(** ** The properties at concrete volumes *)

Local Open Scope string_scope.

Lemma SetQOS_ok_witness :
  let rv := mkRbdVolume (100 * oneGB) "" None in
  let rv' := (SetQOS rv test_params).1 in
  SetQOS rv test_params = (rv', None) /\
  RequestedVolSize rv' = 100 * oneGB /\
  BaseVolSize rv' = "21474836480" /\
  qos_param rv' readIopsLimit = Some "3600" /\
  qos_param rv' writeIopsLimit = Some "1800" /\
  qos_param rv' readBpsLimit = Some "377487360" /\
  qos_param rv' writeBpsLimit = Some "188743680" /\
  qos_param rv' "rbd_qos_iops_limit" = None.
Proof.
  intros rv rv'.
  assert (Hrun : SetQOS rv test_params = (rv', None))
    by (subst rv'; destruct (SetQOS rv test_params) as [rv1 e] eqn:E;
        assert (He : e = None)
          by (change e with (rv1, e).2; rewrite <- E; by vm_compute);
        by rewrite He).
  split; [exact Hrun|].
  destruct (SetQOS_ok rv rv' test_params Hrun) as (HR & HB & Hrows & Hrest).
  split; [exact HR|]. split; [exact HB|].
  split; [exact (Hrows baseReadIops readIopsLimit readIopsPerGiB
                   ltac:(repeat constructor))|].
  split; [exact (Hrows baseWriteIops writeIopsLimit writeIopsPerGiB
                   ltac:(repeat constructor))|].
  split; [exact (Hrows baseReadBytesPerSecond readBpsLimit readBpsPerGiB
                   ltac:(repeat constructor))|].
  split; [exact (Hrows baseWriteBytesPerSecond writeBpsLimit writeBpsPerGiB
                   ltac:(repeat constructor))|].
  refine (Hrest "rbd_qos_iops_limit" _).
  apply (bool_decide_unpack _). by vm_compute.
Defined.

Lemma calcQosBasedOnCapacity_grows_witness :
  let rv1 := mkRbdVolume (20 * oneGB) "21474836480" None in
  let rv2 := mkRbdVolume (100 * oneGB) "21474836480" None in
  let qos := mkQosSpec readIopsLimit "2000" readIopsPerGiB "20" true in
  qos_param (calcQosBasedOnCapacity rv1 qos).1 readIopsLimit = Some "2000" /\
  qos_param (calcQosBasedOnCapacity rv2 qos).1 readIopsLimit = Some "3600" /\
  exists z1 z2,
    qos_param (calcQosBasedOnCapacity rv1 qos).1 readIopsLimit
      ≫= ParseInt = Some z1 /\
    qos_param (calcQosBasedOnCapacity rv2 qos).1 readIopsLimit
      ≫= ParseInt = Some z2 /\
    (2000 <= z1 <= z2)%Z.
Proof.
  intros rv1 rv2 qos. split; [reflexivity|]. split; [reflexivity|].
  refine (calcQosBasedOnCapacity_grows rv1 rv2 qos 2000 20 21474836480
            eq_refl eq_refl eq_refl eq_refl _ _ _ _).
  - apply Zle_bool_imp_le; reflexivity.
  - apply Zle_bool_imp_le; reflexivity.
  - split; apply Zle_bool_imp_le; reflexivity.
  - split; apply Zle_bool_imp_le; reflexivity.
Defined.

Lemma calcQosBasedOnCapacity_stores_int64_witness :
  let rv := mkRbdVolume (100 * oneGB) "21474836480" None in
  let qos := mkQosSpec readIopsLimit "2000" readIopsPerGiB "20" true in
  exists z,
    qos_param (calcQosBasedOnCapacity rv qos).1 readIopsLimit
      ≫= ParseInt = Some z /\
    int64_range z.
Proof.
  intros rv qos.
  refine (calcQosBasedOnCapacity_stores_int64 rv qos eq_refl _).
  discriminate.
Defined.

End QosParamFacts.

(* ===================================================================== *)
(** * More facts about the group snapshot RPCs *)
(* ===================================================================== *)

Module RpcFacts.

Import GoErrors GroupSnapshot Sim GroupSnapshotFacts Handles.

Section Segments.

Context {B : Backend}.

Lemma volumes_destroyed_destroyed (vols : list (Volume B)) :
  omap (fun ev : event B => match ev with
                            | EvVolumeDestroy vol => Some vol
                            | _ => None
                            end) (destroyed vols) = vols.
Proof.
  unfold destroyed.
  induction vols as [|v vols IH]; [done|]. cbn. by rewrite IH.
Qed.

Lemma volumes_destroyed_removed g (vols : list (Volume B)) rs :
  length rs = length vols ->
  omap (fun ev : event B => match ev with
                            | EvVolumeDestroy vol => Some vol
                            | _ => None
                            end) (removed g vols rs) = vols.
Proof.
  unfold removed. revert rs.
  induction vols as [|v vols IH]; intros [|r rs] Hl; try done.
  cbn. rewrite IH; [done|]. cbn in Hl. lia.
Qed.

End Segments.

(** Computes what the readers of handles see of a trace made of
    segments. *)
Ltac read_handles :=
  unfold volumes_destroyed, managers_made, managers_destroyed,
    credentials_made, credentials_deleted, groups_destroyed,
    snapshots_obtained, snapshots_destroyed, snapshots_deleted;
  unfold before_add, before_prepare, before_lookup, release, teardown,
    closing;
  repeat (rewrite ?omap_app; cbn [omap list_omap app]);
  rewrite ?volumes_destroyed_destroyed;
  rewrite ?volumes_destroyed_removed by (assumption || lia);
  read_trace.

Section Create.

Context {B : Backend}.

Implicit Types (t : list (event B)) (w : World B).

(** Every handle that a run of [CreateVolumeGroupSnapshot] obtains is
    given back before the call returns, on every path: each volume that
    [GetVolumeByID] returned is destroyed, in request order, the manager
    is destroyed, the credentials are deleted, the handle of a group
    snapshot that was found or taken is destroyed, and so is the handle
    of the group. *)
Theorem Create_handles_released (req : CreateVolumeGroupSnapshotRequest) w :
  let t := trace_of (run (CreateVolumeGroupSnapshot req) w) in
  volumes_destroyed t = volumes_resolved t /\
  managers_destroyed t = managers_made t /\
  credentials_deleted t = credentials_made t /\
  snapshots_destroyed t = snapshots_obtained t /\
  groups_destroyed t = groups_created t.
Proof.
  destruct (run (CreateVolumeGroupSnapshot req) w) as [[r w'] t] eqn:Hrun.
  cbn. apply run_Create_inv in Hrun as [Hpath _].
  destruct Hpath; subst; split_and!; by read_handles.
Qed.

(** The group snapshot is requested late: a run calls the manager's
    [CreateVolumeGroupSnapshot] only under the name of the request and on
    the one group it created, after every volume of the request was
    prepared without error and added to that group, and before any volume
    is removed from it. *)
Theorem Create_snapshot_of_full_group req w r w' t mgr g name res :
  run (CreateVolumeGroupSnapshot req) w = (r, w', t) ->
  EvCreateVolumeGroupSnapshot mgr g name res ∈ t ->
  name = Name req /\
  groups_created t = [g] /\
  prepare_failures t = [] /\
  length (volumes_resolved t) = length (SourceVolumeIds req) /\
  exists t1 t2,
    t = t1 ++ EvCreateVolumeGroupSnapshot mgr g name res :: t2 /\
    volumes_prepared t1 = volumes_resolved t /\
    volumes_added t1 = volumes_resolved t /\
    volumes_removed t1 = [] /\
    snapshots_taken t1 = [].
Proof.
  intros Hrun Hin. apply run_Create_inv in Hrun as [Hpath _].
  destruct Hpath; try absurd_in Hin.
  all: in_trace Hin gives
         (mgr = mgr0 /\ g = g0 /\ name = Name req) as Heq;
       destruct Heq as (-> & -> & ->).
  - in_trace Hin gives (res = inr e) as Heq. subst res.
    split; [done|]. split; [by read_trace|]. split; [by read_trace|].
    split; [by read_trace|].
    exists (before_add req mgr0 vols err creds g0 ++ added g0 vols),
           (teardown req mgr0 creds g0 vols rs rd).
    split; [trace_eq|]. split_and!; by read_trace.
  - in_trace Hin gives (res = inl gs) as Heq. subst res.
    split; [done|]. split; [by read_trace|]. split; [by read_trace|].
    split; [by read_trace|].
    exists (before_add req mgr0 vols err creds g0 ++ added g0 vols),
           ([EvToCSI gs conv; EvVolumeGroupSnapshotDestroy gs]
            ++ teardown req mgr0 creds g0 vols rs rd).
    split; [trace_eq|]. split_and!; by read_trace.
Qed.

(** When the manager's [CreateVolumeGroupSnapshot] fails, the call
    returns Aborted without converting anything; every volume had been
    added, [RemoveVolume] is then called on each of them, and the group is
    deleted. *)
Theorem Create_snapshot_failure req w r w' t mgr g name e :
  run (CreateVolumeGroupSnapshot req) w = (r, w', t) ->
  EvCreateVolumeGroupSnapshot mgr g name (inr e) ∈ t ->
  r = Status Aborted /\
  snapshots_obtained t = [] /\
  Forall (fun ev => match ev with EvToCSI _ _ => False | _ => True end) t /\
  volumes_removed t = Some <$> volumes_added t /\
  groups_deleted t = [g].
Proof.
  intros Hrun Hin. apply run_Create_inv in Hrun as [Hpath _].
  destruct Hpath; try absurd_in Hin.
  in_trace Hin gives (g = g0) as Heq. subst g0.
  split; [done|]. split; [by read_handles|]. split; [trace_all|].
  split; by read_trace.
Qed.

(** When [CreateVolumeGroup] fails, the call returns Internal; every
    volume of the request was prepared before, and the deferred cleanup
    finds no group: it adds, removes and deletes nothing and only
    destroys the volume handles. *)
Theorem Create_group_creation_failure req w r w' t mgr name e :
  run (CreateVolumeGroupSnapshot req) w = (r, w', t) ->
  EvCreateVolumeGroup mgr name (inr e) ∈ t ->
  r = Status Internal /\
  volumes_prepared t = volumes_resolved t /\
  length (volumes_resolved t) = length (SourceVolumeIds req) /\
  volumes_added t = [] /\
  volumes_removed t = [] /\
  groups_deleted t = [] /\
  groups_destroyed t = [] /\
  snapshots_taken t = [] /\
  volumes_destroyed t = volumes_resolved t.
Proof.
  intros Hrun Hin. apply run_Create_inv in Hrun as [Hpath _].
  destruct Hpath; try absurd_in Hin.
  split; [done|]. split_and!; by read_handles.
Qed.

(** A run of [CreateVolumeGroupSnapshot] never deletes a group snapshot,
    not even one it has taken and then failed to convert: a failed
    [ToCSI] makes the call return Aborted and leaves the snapshot where
    it is. *)
Theorem Create_keeps_snapshots (req : CreateVolumeGroupSnapshotRequest) w :
  let x := run (CreateVolumeGroupSnapshot req) w in
  snapshots_deleted (trace_of x) = [] /\
  forall gs e, EvToCSI gs (inr e) ∈ trace_of x ->
    result_of x = Status Aborted /\ snapshots_obtained (trace_of x) = [gs].
Proof.
  destruct (run (CreateVolumeGroupSnapshot req) w) as [[r w'] t] eqn:Hrun.
  cbn. apply run_Create_inv in Hrun as [Hpath _].
  split.
  - destruct Hpath; by read_handles.
  - intros gs0 e0 Hin. destruct Hpath; try absurd_in Hin.
    all: in_trace Hin gives (gs0 = gs /\ conv = inr e0) as Heq;
         destruct Heq as (-> & ->).
    all: split; [done|by read_handles].
Qed.

(** A successful call returns the conversion of exactly one group
    snapshot.  Either that snapshot was found by name and the run changed
    nothing, or the run took it: then every volume of the request was
    added to the group before, [RemoveVolume] was called on each of them
    afterwards, and the group was deleted. *)
Theorem Create_success req w resp w' t :
  run (CreateVolumeGroupSnapshot req) w = (Response resp, w', t) ->
  exists gs,
    EvToCSI gs (inl (GroupSnapshot resp)) ∈ t /\
    snapshots_obtained t = [gs] /\
    ((snapshots_taken t = [] /\ Forall (fun ev => mutates ev = false) t) \/
     (snapshots_taken t = [gs] /\
      length (volumes_resolved t) = length (SourceVolumeIds req) /\
      volumes_added t = volumes_resolved t /\
      volumes_removed t = Some <$> volumes_resolved t /\
      groups_deleted t = groups_created t /\
      length (groups_created t) = 1)).
Proof.
  intros Hrun. apply run_Create_inv in Hrun as [Hpath _].
  inversion Hpath as
    [ | | mgr vols gs err conv Hl Hr Ht | | | |
    | | mgr vols err creds g gs conv rs rd Hl Hrs Hr Ht ];
    subst; try done.
  - destruct conv as [csi|]; [|done]. injection Hr as <-. exists gs.
    split.
    { unfold before_lookup, release, closing.
      rewrite !elem_of_app, !elem_of_cons. tauto. }
    split; [by read_handles|]. left. split; [by read_trace|trace_all].
  - destruct conv as [csi|]; [|done]. injection Hr as <-. exists gs.
    split.
    { unfold before_add, before_prepare, before_lookup, teardown, closing.
      rewrite !elem_of_app, !elem_of_cons. tauto. }
    split; [by read_handles|]. right. split_and!; by read_trace.
Qed.

(** An empty list of source volumes is not rejected: nothing is
    resolved, prepared, added or removed, the result is never
    InvalidArgument, and once the credentials are there the group is
    created all the same. *)
Theorem Create_no_volumes req w r w' t :
  run (CreateVolumeGroupSnapshot req) w = (r, w', t) ->
  SourceVolumeIds req = [] ->
  volumes_resolved t = [] /\
  volumes_prepared t = [] /\
  volumes_added t = [] /\
  volumes_removed t = [] /\
  r <> Status InvalidArgument /\
  forall sec creds, EvNewUserCredentials sec (inl creds) ∈ t ->
    exists mgr res,
      EvCreateVolumeGroup mgr (Name req +:+ "-vg")%string res ∈ t.
Proof.
  intros Hrun Hids. apply run_Create_inv in Hrun as [Hpath _].
  destruct Hpath;
    repeat match goal with
           | H : SourceVolumeIds req = _ ++ _ :: _ |- _ =>
               rewrite Hids in H; by destruct (app_cons_not_nil _ _ _ H)
           | H : length ?vols = length (SourceVolumeIds req) |- _ =>
               rewrite Hids in H; destruct vols; [clear H|done]
           | H : length ?rs = @length (Volume B) [] |- _ =>
               destruct rs; [clear H|done]
           | H : [] = _ ++ _ :: _ |- _ =>
               by destruct (app_cons_not_nil _ _ _ H)
           | H : omap id [] = _ :: _ |- _ => done
           end.
  all: unfold before_add, before_prepare, before_lookup; rewrite ?Hids.
  all: split; [by read_trace|]; split; [by read_trace|];
       split; [by read_trace|]; split; [by read_trace|];
       split; [by try destruct conv|]; intros sec c Hin;
       try absurd_in Hin.
  all: do 2 eexists; rewrite !elem_of_app, !elem_of_cons; eauto 10.
Qed.


End Create.

Section DeleteGet.

Context {B : Backend}.

Implicit Types (t : list (event B)) (w : World B).

(** [DeleteVolumeGroupSnapshot] and [GetVolumeGroupSnapshot] take the
    lock named by the group snapshot ID as Create takes the one named by
    the request: when it is held they fail with Aborted and make no other
    call; otherwise the lock calls of the run are that [TryAcquire] and
    one [Release], and the [Release] is the last call of the run. *)
Theorem Delete_Get_lock_discipline
    (dreq : DeleteVolumeGroupSnapshotRequest)
    (greq : GetVolumeGroupSnapshotRequest) w :
  let did := del_GroupSnapshotId dreq in
  let gid := get_GroupSnapshotId greq in
  let xd := run (DeleteVolumeGroupSnapshot dreq) w in
  let xg := run (GetVolumeGroupSnapshot greq) w in
  (if fst (h_TryAcquire B did w)
   then lock_calls (trace_of xd) = [EvTryAcquire did true; EvRelease did]
        /\ last (trace_of xd) = Some (EvRelease did)
   else result_of xd = Status Aborted
        /\ trace_of xd = [EvTryAcquire did false]) /\
  (if fst (h_TryAcquire B gid w)
   then lock_calls (trace_of xg) = [EvTryAcquire gid true; EvRelease gid]
        /\ last (trace_of xg) = Some (EvRelease gid)
   else result_of xg = Status Aborted
        /\ trace_of xg = [EvTryAcquire gid false]).
Proof.
  cbv zeta. split.
  - destruct (run (DeleteVolumeGroupSnapshot dreq) w) as [[r w'] t] eqn:Hrun.
    apply run_Delete_inv in Hrun as [Hsteps Hshape]. cbv zeta in Hshape.
    destruct Hshape
      as [(-> & ->)|[(mgr & err & -> & ->)|(mgr & gs & rd & -> & ->)]];
      cbn in Hsteps; destruct Hsteps as (w1 & Hacq & _); rewrite Hacq;
      by cbn.
  - destruct (run (GetVolumeGroupSnapshot greq) w) as [[r w'] t] eqn:Hrun.
    apply run_Get_inv in Hrun as [Hsteps Hshape]. cbv zeta in Hshape.
    destruct Hshape
      as [(-> & ->)|[(mgr & err & -> & ->)|(mgr & gs & conv & -> & ->)]];
      cbn in Hsteps; destruct Hsteps as (w1 & Hacq & _); rewrite Hacq;
      by cbn.
Qed.

(** When the lookup by ID finds the group snapshot,
    [DeleteVolumeGroupSnapshot] calls its [Delete] exactly once and
    destroys the handle right after; the call returns Internal when that
    [Delete] fails and the empty response otherwise. *)
Theorem Delete_found req w r w' t mgr id gs :
  run (DeleteVolumeGroupSnapshot req) w = (r, w', t) ->
  EvGetVolumeGroupSnapshotByID mgr id (inl gs) ∈ t ->
  id = del_GroupSnapshotId req /\
  snapshots_deleted t = [gs] /\
  exists rd t1 t2,
    t = t1 ++ EvVolumeGroupSnapshotDelete gs rd
           :: EvVolumeGroupSnapshotDestroy gs :: t2 /\
    r = match rd with
        | Some _ => Status Internal
        | None => Response mkDeleteResponse
        end.
Proof.
  intros Hrun Hin. apply run_Delete_inv in Hrun as [_ Hshape].
  cbv zeta in Hshape.
  destruct Hshape
    as [(-> & ->)|[(mgr0 & err & -> & ->)|(mgr0 & gs0 & rd & -> & ->)]];
    try absurd_in Hin.
  in_trace Hin gives (id = del_GroupSnapshotId req /\ gs = gs0) as Heq.
  destruct Heq as (-> & ->).
  split; [done|]. split; [done|].
  by exists rd, [EvTryAcquire (del_GroupSnapshotId req) true;
                 EvNewManager None (del_Secrets req) mgr0;
                 EvGetVolumeGroupSnapshotByID mgr0 (del_GroupSnapshotId req)
                   (inl gs0)],
            [EvManagerDestroy mgr0; EvRelease (del_GroupSnapshotId req)].
Qed.

(** [GetVolumeGroupSnapshot] only reads: no call of a run changes what
    the cluster stores.  When the lookup by ID finds the group snapshot,
    the result is its conversion, or Aborted when the conversion
    fails. *)
Theorem Get_read_only (req : GetVolumeGroupSnapshotRequest) w :
  let x := run (GetVolumeGroupSnapshot req) w in
  Forall (fun ev => mutates ev = false) (trace_of x) /\
  forall mgr id gs,
    EvGetVolumeGroupSnapshotByID mgr id (inl gs) ∈ trace_of x ->
    exists conv,
      EvToCSI gs conv ∈ trace_of x /\
      result_of x = match conv with
                    | inl csiVGS => Response (mkGetResponse csiVGS)
                    | inr _ => Status Aborted
                    end.
Proof.
  destruct (run (GetVolumeGroupSnapshot req) w) as [[r w'] t] eqn:Hrun.
  cbn. apply run_Get_inv in Hrun as [_ Hshape]. cbv zeta in Hshape.
  destruct Hshape
    as [(-> & ->)|[(mgr0 & err & -> & ->)|(mgr0 & gs0 & conv & -> & ->)]].
  - split; [trace_all|]. intros mgr id gs Hin. absurd_in Hin.
  - split; [trace_all|]. intros mgr id gs Hin. absurd_in Hin.
  - split; [trace_all|]. intros mgr id gs Hin.
    in_trace Hin gives (gs = gs0) as Heq. subst gs0.
    exists conv. split; [|done]. rewrite !elem_of_cons. tauto.
Qed.

(** [DeleteVolumeGroupSnapshot] and [GetVolumeGroupSnapshot] give back
    every handle they obtain, on every path: the manager is destroyed and
    so is the handle of the group snapshot that the lookup returned. *)
Theorem Delete_Get_handles_released
    (dreq : DeleteVolumeGroupSnapshotRequest)
    (greq : GetVolumeGroupSnapshotRequest) (wd wg : World B) :
  let td := trace_of (run (DeleteVolumeGroupSnapshot dreq) wd) in
  let tg := trace_of (run (GetVolumeGroupSnapshot greq) wg) in
  (managers_destroyed td = managers_made td /\
   snapshots_destroyed td = snapshots_obtained td) /\
  (managers_destroyed tg = managers_made tg /\
   snapshots_destroyed tg = snapshots_obtained tg).
Proof.
  cbv zeta. split.
  - destruct (run (DeleteVolumeGroupSnapshot dreq) wd)
      as [[r w'] t] eqn:Hrun.
    apply run_Delete_inv in Hrun as [_ Hshape]. cbv zeta in Hshape.
    by destruct Hshape
      as [(-> & ->)|[(mgr & err & -> & ->)|(mgr & gs & rd & -> & ->)]].
  - destruct (run (GetVolumeGroupSnapshot greq) wg)
      as [[r w'] t] eqn:Hrun.
    apply run_Get_inv in Hrun as [_ Hshape]. cbv zeta in Hshape.
    by destruct Hshape
      as [(-> & ->)|[(mgr & err & -> & ->)|(mgr & gs & conv & -> & ->)]].
Qed.

End DeleteGet.

(** ** The properties at concrete requests *)

Section Concrete.

Import SimFacts SimClusters.

Local Open Scope string_scope.

Lemma Create_snapshot_of_full_group_witness :
  let '(r, _, t) := Create "vgs1" ["v1"; "v2"; "v3"] cluster0 in
  exists gs,
    EvCreateVolumeGroupSnapshot (B := backend) () "vgs1-vg" "vgs1" (inl gs)
      ∈ t /\
    groups_created t = ["vgs1-vg"] /\
    prepare_failures t = [] /\
    length (volumes_resolved t) = 3 /\
    exists t1 t2,
      t = (t1 ++ EvCreateVolumeGroupSnapshot (B := backend) () "vgs1-vg"
                   "vgs1" (inl gs) :: t2)%list /\
      volumes_prepared t1 = volumes_resolved t /\
      volumes_added t1 = volumes_resolved t /\
      volumes_removed t1 = [] /\
      snapshots_taken t1 = [].
Proof.
  unfold Create.
  destruct (run (B := backend) _ cluster0) as [[r w'] t] eqn:Hrun.
  assert (Hin : EvCreateVolumeGroupSnapshot (B := backend) () "vgs1-vg"
                  "vgs1" (inl snapshot1) ∈ t)
    by (eval_run Hrun; repeat constructor).
  exists snapshot1.
  exact (conj Hin (proj2 (Create_snapshot_of_full_group _ _ r w' t _ _ _ _
                            Hrun Hin))).
Defined.

Lemma Create_snapshot_failure_witness :
  let '(r, _, t) := Create "vgs1" ["v1"; "v2"; "v3"] cluster_hidden in
  EvCreateVolumeGroupSnapshot (B := backend) () "vgs1-vg" "vgs1"
    (inr (New ErrObjectExists)) ∈ t /\
  r = Status Aborted /\
  snapshots_obtained t = [] /\
  Forall (fun ev => match ev with EvToCSI _ _ => False | _ => True end) t /\
  volumes_removed t = Some <$> volumes_added t /\
  groups_deleted t = ["vgs1-vg"].
Proof.
  unfold Create.
  destruct (run (B := backend) _ cluster_hidden) as [[r w'] t] eqn:Hrun.
  assert (Hin : EvCreateVolumeGroupSnapshot (B := backend) () "vgs1-vg"
                  "vgs1" (inr (New ErrObjectExists)) ∈ t)
    by (eval_run Hrun; repeat constructor).
  exact (conj Hin (Create_snapshot_failure _ _ r w' t _ _ _ _ Hrun Hin)).
Defined.

Lemma Create_group_creation_failure_witness :
  let '(r, _, t) := Create "vgs1" ["v1"; "v2"; "v3"] cluster_leftover in
  EvCreateVolumeGroup (B := backend) () "vgs1-vg"
    (inr (New ErrObjectExists)) ∈ t /\
  r = Status Internal /\
  volumes_prepared t = volumes_resolved t /\
  length (volumes_resolved t) = 3 /\
  volumes_added t = [] /\
  volumes_removed t = [] /\
  groups_deleted t = [] /\
  groups_destroyed t = [] /\
  snapshots_taken t = [] /\
  volumes_destroyed t = volumes_resolved t.
Proof.
  unfold Create.
  destruct (run (B := backend) _ cluster_leftover) as [[r w'] t] eqn:Hrun.
  assert (Hin : EvCreateVolumeGroup (B := backend) () "vgs1-vg"
                  (inr (New ErrObjectExists)) ∈ t)
    by (eval_run Hrun; repeat constructor).
  exact (conj Hin
           (Create_group_creation_failure _ _ r w' t _ _ _ Hrun Hin)).
Defined.

Lemma Create_success_witness :
  let '(r, _, t) := Create "vgs1" ["v1"; "v2"; "v3"] cluster0 in
  exists resp gs,
    r = Response resp /\
    EvToCSI gs (inl (GroupSnapshot resp)) ∈ t /\
    snapshots_obtained t = [gs] /\
    ((snapshots_taken t = [] /\ Forall (fun ev => mutates ev = false) t) \/
     (snapshots_taken t = [gs] /\
      length (volumes_resolved t) = 3 /\
      volumes_added t = volumes_resolved t /\
      volumes_removed t = Some <$> volumes_resolved t /\
      groups_deleted t = groups_created t /\
      length (groups_created t) = 1)).
Proof.
  unfold Create.
  destruct (run (B := backend) _ cluster0) as [[r w'] t] eqn:Hrun.
  assert (Hok : exists resp, r = Response resp)
    by (eval_run Hrun; by eexists).
  destruct Hok as [resp ->].
  destruct (Create_success _ _ resp w' t Hrun) as (gs & H).
  exists resp, gs. exact (conj eq_refl H).
Defined.

Lemma Create_no_volumes_witness :
  let '(r, _, t) := Create "vgs1" [] cluster0 in
  volumes_resolved t = [] /\
  volumes_prepared t = [] /\
  volumes_added t = [] /\
  volumes_removed t = [] /\
  r <> Status InvalidArgument /\
  forall sec creds,
    EvNewUserCredentials (B := backend) sec (inl creds) ∈ t ->
    exists mgr res,
      EvCreateVolumeGroup (B := backend) mgr "vgs1-vg" res ∈ t.
Proof.
  unfold Create.
  destruct (run (B := backend) _ cluster0) as [[r w'] t] eqn:Hrun.
  exact (Create_no_volumes _ _ r w' t Hrun eq_refl).
Defined.

Lemma Delete_found_witness :
  let '(r, _, t) := Delete "id-vgs1" cluster_snapshotted in
  EvGetVolumeGroupSnapshotByID (B := backend) () "id-vgs1" (inl snapshot1)
    ∈ t /\
  snapshots_deleted t = [snapshot1] /\
  exists rd t1 t2,
    t = (t1 ++ EvVolumeGroupSnapshotDelete (B := backend) snapshot1 rd
            :: EvVolumeGroupSnapshotDestroy (B := backend) snapshot1 :: t2)%list /\
    r = match rd with
        | Some _ => Status Internal
        | None => Response mkDeleteResponse
        end.
Proof.
  unfold Delete.
  destruct (run (B := backend) _ cluster_snapshotted)
    as [[r w'] t] eqn:Hrun.
  assert (Hin : EvGetVolumeGroupSnapshotByID (B := backend) () "id-vgs1"
                  (inl snapshot1) ∈ t)
    by (eval_run Hrun; repeat constructor).
  exact (conj Hin (proj2 (Delete_found _ _ r w' t _ _ _ Hrun Hin))).
Defined.

End Concrete.

End RpcFacts.
